(** * depends-tree-sitter-visualizer: graph conversion and viewer pipeline

    A shallow embedding of the text and graph transformations of

    - [depends-tree-sitter-visualizer.ts]: [convertDotIds], [treeToDot],
      [nodeToDot];
    - [src/App.tsx]: [parseDotToElements], [buildCytoscapeElements], the
      dialect probe of [init], [fetchDotForNode] and the node tap handler.

    JavaScript strings are sequences of UTF-16 code units; none of the regular
    expressions of the program carries the [u] flag, so they read a string
    one code unit at a time.  A string is therefore a [list N] here. *)

From Stdlib Require Import String Ascii.
From Stdlib Require Import Reals Lra.
From Stdlib Require Import List NArith ZArith Arith Lia Bool.
From Stdlib Require DecimalNat.
From Stdlib Require Import Permutation.
Import ListNotations.

Set Implicit Arguments.
Set Warnings "-register-all".

(* ================================================================== *)
(** * Strings *)

Module Js.

Abbreviation char := N (only parsing).
Abbreviation str := (list N) (only parsing).

Local Open Scope N_scope.

(** Code units of an ASCII literal. *)
Fixpoint lit (s : string) : str :=
  match s with
  | EmptyString => []
  | String a s' => N_of_ascii a :: lit s'
  end.

Definition dquote : char := 34.
Definition newline : char := 10.

(** Same as [lit], except that an apostrophe of the literal stands for the
    double quote character (code unit 34). *)
Fixpoint litq (s : string) : str :=
  match s with
  | EmptyString => []
  | String a s' =>
      (if N_of_ascii a =? 39 then dquote else N_of_ascii a) :: litq s'
  end.

Definition str_eqb (a b : str) : bool :=
  if list_eq_dec N.eq_dec a b then true else false.

(** [Array.prototype.join]. *)
Fixpoint join (sep : str) (l : list str) : str :=
  match l with
  | [] => []
  | [x] => x
  | x :: l' => x ++ sep ++ join sep l'
  end.

(** [s.split(c)] for a one-character separator. *)
Fixpoint split_on (c : char) (s : str) : list str :=
  match s with
  | [] => [[]]
  | d :: s' =>
      if d =? c then [] :: split_on c s'
      else match split_on c s' with
           | l :: ls => (d :: l) :: ls
           | [] => [[d]]
           end
  end.

(** [s.replaceAll('\r\n', '\n')]. *)
Fixpoint replaceAll_crlf (s : str) : str :=
  match s with
  | [] => []
  | c :: s' =>
      match s' with
      | d :: s'' =>
          if (c =? 13) && (d =? 10) then 10 :: replaceAll_crlf s''
          else c :: replaceAll_crlf s'
      | [] => [c]
      end
  end.

(** Decimal digits of a number, as template literals print a counter. *)
Fixpoint digits_of_uint (d : Decimal.uint) : str :=
  match d with
  | Decimal.Nil => []
  | Decimal.D0 d => 48 :: digits_of_uint d
  | Decimal.D1 d => 49 :: digits_of_uint d
  | Decimal.D2 d => 50 :: digits_of_uint d
  | Decimal.D3 d => 51 :: digits_of_uint d
  | Decimal.D4 d => 52 :: digits_of_uint d
  | Decimal.D5 d => 53 :: digits_of_uint d
  | Decimal.D6 d => 54 :: digits_of_uint d
  | Decimal.D7 d => 55 :: digits_of_uint d
  | Decimal.D8 d => 56 :: digits_of_uint d
  | Decimal.D9 d => 57 :: digits_of_uint d
  end.

Definition decimal (n : nat) : str := digits_of_uint (Nat.to_uint n).

(** ** Character classes of ECMAScript regular expressions *)

(** LineTerminator: LF, CR, LS, PS. *)
Definition is_line_terminator (c : char) : bool :=
  (c =? 10) || (c =? 13) || (c =? 8232) || (c =? 8233).

(** [\s]: WhiteSpace and LineTerminator. *)
Definition is_space (c : char) : bool :=
  (c =? 9) || (c =? 10) || (c =? 11) || (c =? 12) || (c =? 13) || (c =? 32)
  || (c =? 160) || (c =? 5760) || ((8192 <=? c) && (c <=? 8202))
  || (c =? 8232) || (c =? 8233) || (c =? 8239) || (c =? 8287)
  || (c =? 12288) || (c =? 65279).

(** [\d]. *)
Definition is_digit (c : char) : bool := (48 <=? c) && (c <=? 57).

(** [[A-Za-z0-9_]]. *)
Definition is_word (c : char) : bool :=
  ((65 <=? c) && (c <=? 90)) || ((97 <=? c) && (c <=? 122))
  || is_digit c || (c =? 95).

(** [.] without the [s] flag. *)
Definition is_dot (c : char) : bool := negb (is_line_terminator c).

(** Any character but the double quote. *)
Definition is_not_dquote (c : char) : bool := negb (c =? dquote).

(** [[\r\n]]. *)
Definition is_cr_or_lf (c : char) : bool := (c =? 13) || (c =? 10).

End Js.

(* ================================================================== *)
(** * Regular expressions

    Every regular expression of the program is a sequence of anchors and of
    quantified one-character classes, some of them captured.  The matcher
    below is the backtracking matcher of ECMAScript restricted to that
    shape: a greedy quantifier tries the longest repetition first and gives
    characters back one at a time, a lazy one tries the shortest first. *)

Module Regex.
Import Js.

Inductive quant := One | Opt | Star | Plus | StarLazy.

Inductive item :=
| Bol                                              (* ^ with the m flag *)
| Eol                                              (* $ with the m flag *)
| Cls (p : char -> bool) (q : quant) (cap : bool). (* class, quantifier, captured? *)

Definition regex := list item.

Definition Chr (c : char) : item := Cls (N.eqb c) One false.
Definition Lit (s : string) : regex := map Chr (lit s).

Section Repeat.
Variable R : Type.
Variable p : char -> bool.

(** The continuation receives the characters consumed and the rest. *)
Fixpoint greedy (k : str -> str -> option R) (s : str) : option R :=
  match s with
  | c :: s' =>
      if p c then
        match greedy (fun w r => k (c :: w) r) s' with
        | Some x => Some x
        | None => k [] s
        end
      else k [] s
  | [] => k [] s
  end.

Fixpoint lazy (k : str -> str -> option R) (s : str) : option R :=
  match k [] s with
  | Some x => Some x
  | None =>
      match s with
      | c :: s' => if p c then lazy (fun w r => k (c :: w) r) s' else None
      | [] => None
      end
  end.

Definition rep (q : quant) (k : str -> str -> option R) (s : str) : option R :=
  match q with
  | One =>
      match s with
      | c :: s' => if p c then k [c] s' else None
      | [] => None
      end
  | Opt =>
      match s with
      | c :: s' =>
          if p c then
            match k [c] s' with Some x => Some x | None => k [] s end
          else k [] s
      | [] => k [] s
      end
  | Star => greedy k s
  | Plus =>
      match s with
      | c :: s' => if p c then greedy (fun w r => k (c :: w) r) s' else None
      | [] => None
      end
  | StarLazy => lazy k s
  end.

End Repeat.

(** The character before the current position, after consuming [w]. *)
Definition prev_after (w : str) (prev : option char) : option char :=
  match rev w with
  | c :: _ => Some c
  | [] => prev
  end.

Definition at_bol (prev : option char) : bool :=
  match prev with
  | None => true
  | Some c => is_line_terminator c
  end.

Definition at_eol (s : str) : bool :=
  match s with
  | [] => true
  | c :: _ => is_line_terminator c
  end.

(** Match [r] at the start of [s]; [prev] is the character before [s].
    The result is the list of captured groups, in order, and the input left
    after the match. *)
Fixpoint run (r : regex) (prev : option char) (s : str)
  : option (list str * str) :=
  match r with
  | [] => Some ([], s)
  | Bol :: r' => if at_bol prev then run r' prev s else None
  | Eol :: r' => if at_eol s then run r' prev s else None
  | Cls p q cap :: r' =>
      rep p q
        (fun w rest =>
           match run r' (prev_after w prev) rest with
           | Some (caps, out) => Some (if cap then w :: caps else caps, out)
           | None => None
           end) s
  end.

(** Length of the match, from what is left. *)
Definition matched_len (s rest : str) : nat := length s - length rest.

(** Leftmost match at or after the start of [s]: [RegExp.prototype.test],
    and [String.prototype.match] of a regex without the g flag. *)
Fixpoint search (r : regex) (prev : option char) (s : str)
  : option (list str) :=
  match run r prev s with
  | Some (caps, _) => Some caps
  | None =>
      match s with
      | c :: s' => search r (Some c) s'
      | [] => None
      end
  end.

Definition test (r : regex) (s : str) : bool :=
  match search r None s with Some _ => true | None => false end.

(** All matches from left to right, as the loop
    [while ((m = re.exec(s)) !== null)] over a regex with the g flag sees
    them: after a match the search resumes where the match ended.  [skip]
    counts the characters of the current match still to step over.  (After
    an empty match the search resumes one character later, as [replace]
    does; no regular expression of the program matches the empty string.) *)
Fixpoint exec_all (r : regex) (prev : option char) (skip : nat) (s : str)
  : list (list str) :=
  match skip with
  | S n =>
      match s with
      | c :: s' => exec_all r (Some c) n s'
      | [] => []
      end
  | O =>
      match run r prev s with
      | Some (caps, rest) =>
          caps ::
          match s with
          | c :: s' => exec_all r (Some c) (matched_len s rest - 1) s'
          | [] => []
          end
      | None =>
          match s with
          | c :: s' => exec_all r (Some c) 0 s'
          | [] => []
          end
      end
  end.

(** [s.replace(re, f)] for a regex with the g flag; [f] receives the
    captured groups. *)
Fixpoint replace (r : regex) (f : list str -> str) (prev : option char)
  (skip : nat) (s : str) : str :=
  match skip with
  | S n =>
      match s with
      | c :: s' => replace r f (Some c) n s'
      | [] => []
      end
  | O =>
      match run r prev s with
      | Some (caps, rest) =>
          f caps ++
          match s with
          | c :: s' =>
              match matched_len s rest with
              | O => c :: replace r f (Some c) 0 s'
              | S n => replace r f (Some c) n s'
              end
          | [] => []
          end
      | None =>
          match s with
          | c :: s' => c :: replace r f (Some c) 0 s'
          | [] => []
          end
      end
  end.

Definition matches (r : regex) (s : str) : list (list str) :=
  exec_all r None 0 s.

Definition replace_g (r : regex) (f : list str -> str) (s : str) : str :=
  replace r f None 0 s.

End Regex.

(* ================================================================== *)
(** * Runtime library functions used by the program *)

(** ** [path.basename] (POSIX flavour of Node's [path] module)

    Trailing slashes are dropped, then the characters after the last
    remaining slash are kept; a path made of slashes only has the empty
    basename. *)

Module Path.
Import Js.
Local Open Scope N_scope.

Definition slash : char := 47.

Fixpoint drop_slashes (r : str) : str :=
  match r with
  | c :: r' => if c =? slash then drop_slashes r' else r
  | [] => []
  end.

Fixpoint take_segment (r : str) : str :=
  match r with
  | c :: r' => if c =? slash then [] else c :: take_segment r'
  | [] => []
  end.

Definition basename (p : str) : str :=
  rev (take_segment (drop_slashes (rev p))).

End Path.

(** ** [encodeURIComponent]

    Unreserved characters are kept, every other code point is written as the
    percent-escaped bytes of its UTF-8 encoding.  A surrogate that is not
    part of a pair makes the function throw a URIError ([None]). *)

Module Uri.
Import Js.
Local Open Scope N_scope.

Definition is_unreserved (c : char) : bool :=
  ((65 <=? c) && (c <=? 90)) || ((97 <=? c) && (c <=? 122))
  || ((48 <=? c) && (c <=? 57))
  || (c =? 45) || (c =? 95) || (c =? 46) || (c =? 33) || (c =? 126)
  || (c =? 42) || (c =? 39) || (c =? 40) || (c =? 41).

Definition hex_digit (n : N) : char :=
  if n <? 10 then 48 + n else 55 + n.

Definition percent (byte : N) : str :=
  [37; hex_digit (byte / 16); hex_digit (byte mod 16)].

Definition utf8 (cp : N) : list N :=
  if cp <? 128 then [cp]
  else if cp <? 2048 then [192 + cp / 64; 128 + cp mod 64]
  else if cp <? 65536 then
    [224 + cp / 4096; 128 + (cp / 64) mod 64; 128 + cp mod 64]
  else
    [240 + cp / 262144; 128 + (cp / 4096) mod 64; 128 + (cp / 64) mod 64;
     128 + cp mod 64].

Definition escape (cp : N) : str := concat (map percent (utf8 cp)).

Definition is_high_surrogate (c : char) : bool := (55296 <=? c) && (c <=? 56319).
Definition is_low_surrogate (c : char) : bool := (56320 <=? c) && (c <=? 57343).

Fixpoint encodeURIComponent (s : str) : option str :=
  match s with
  | [] => Some []
  | c :: s' =>
      if is_unreserved c then option_map (cons c) (encodeURIComponent s')
      else if is_low_surrogate c then None
      else if is_high_surrogate c then
        match s' with
        | d :: s'' =>
            if is_low_surrogate d then
              option_map
                (app (escape ((c - 55296) * 1024 + (d - 56320) + 65536)))
                (encodeURIComponent s'')
            else None
        | [] => None
        end
      else if 65536 <=? c then None (* not a code unit *)
      else option_map (app (escape c)) (encodeURIComponent s')
  end.

End Uri.

(** ** [Map] and [Set]: insertion-ordered collections keyed by strings *)

Module OMap.
Import Js.

Section Map.
Variable V : Type.

Definition t := list (str * V).

Fixpoint get (k : str) (m : t) : option V :=
  match m with
  | [] => None
  | (k', v) :: m' => if str_eqb k k' then Some v else get k m'
  end.

Definition has (k : str) (m : t) : bool :=
  match get k m with Some _ => true | None => false end.

(** [Map.prototype.set]: a key already present keeps its place. *)
Fixpoint set (k : str) (v : V) (m : t) : t :=
  match m with
  | [] => [(k, v)]
  | (k', v') :: m' =>
      if str_eqb k k' then (k, v) :: m' else (k', v') :: set k v m'
  end.

End Map.

(** [Set.prototype.add]. *)
Fixpoint add (k : str) (s : list str) : list str :=
  match s with
  | [] => [k]
  | k' :: s' => if str_eqb k k' then s else k' :: add k s'
  end.

(** [Array.prototype.includes] on an array of strings. *)
Definition includes (k : str) (s : list str) : bool :=
  existsb (str_eqb k) s.

End OMap.

(* ================================================================== *)
(** * The converter: [convertDotIds] *)

Module Converter.
Import Js Regex.

(** Regular expressions of the source are quoted in the comments with blanks
    between their parts, which are the items of the lists below. *)

(** ** Step 2: the id to label map

    commentRegex, with the g flag:   \/\/   \s*   ( \d+ )   :   ( .* ) *)
Definition commentRegex : regex :=
  Lit "//" ++ [Cls is_space Star false; Cls is_digit Plus true]
  ++ Lit ":" ++ [Cls is_dot Star true].

(** One turn of the [while] loop: [idToLabel.set(id, path.basename(fullPath))]. *)
Definition record_label (m : OMap.t str) (caps : list str) : OMap.t str :=
  match caps with
  | [id; fullPath] => OMap.set id (Path.basename fullPath) m
  | _ => m
  end.

Definition idToLabel_of (dot : str) : OMap.t str :=
  fold_left record_label (matches commentRegex dot) [].

(** ** Step 3: the edges

    The pattern of [dot.replace], with the g and m flags:
    ^   ( \s* )   ( \d+ )   \s+   ->   \s+   ( \d+ )   ; *)
Definition edgeLineRegex : regex :=
  [Bol; Cls is_space Star true; Cls is_digit Plus true; Cls is_space Plus false]
  ++ Lit "->"
  ++ [Cls is_space Plus false; Cls is_digit Plus true]
  ++ Lit ";".

(** [idToLabel.get(x) || x]: the empty string is falsy as well. *)
Definition label_or_id (m : OMap.t str) (x : str) : str :=
  match OMap.get x m with
  | Some (c :: l) => c :: l
  | Some [] => x
  | None => x
  end.

Definition quoted_edge (m : OMap.t str) (space from to : str) : str :=
  space ++ [dquote] ++ label_or_id m from ++ litq "' -> '"
  ++ label_or_id m to ++ litq "';".

Definition rewrite_edge (m : OMap.t str) (caps : list str) : str :=
  match caps with
  | [space; from; to] => quoted_edge m space from to
  | _ => []
  end.

(** ** Step 4: comment lines and empty lines

    Two more [replace] calls, both with the g and m flags and the empty
    replacement:   ^   \/\/   .*   $      and      ^   \s*   [\r\n] *)
Definition commentLineRegex : regex :=
  [Bol] ++ Lit "//" ++ [Cls is_dot Star false; Eol].

Definition blankLineRegex : regex :=
  [Bol; Cls is_space Star false; Cls is_cr_or_lf One false].

Definition erase (_ : list str) : str := [].

Definition rewrite_edges (m : OMap.t str) (dot : str) : str :=
  replace_g edgeLineRegex (rewrite_edge m) dot.

Definition strip_comments (s : str) : str := replace_g commentLineRegex erase s.

Definition strip_blank (s : str) : str := replace_g blankLineRegex erase s.

(** Steps 3 and 4 for a given map. *)
Definition rewriteDot (m : OMap.t str) (dot : str) : str :=
  strip_blank (strip_comments (rewrite_edges m dot)).

(** Steps 1 to 4: the text written to the converted file, from the text
    read. *)
Definition convertDotText (raw : str) : str :=
  let dot := replaceAll_crlf raw in
  rewriteDot (idToLabel_of dot) dot.

(** ** Step 6: the side file

    A parsed JSON document.  Numbers are restricted to the integers (an
    index is one); the key list of an object is in property order. *)
Inductive json :=
| JNull
| JBool (b : bool)
| JNum (z : Z)
| JStr (s : str)
| JArr (l : list json)
| JObj (fields : list (str * json)).

Inductive exn :=
| FsError (path : str)
| SyntaxError
| TypeError.

Inductive outcome (A : Type) :=
| Ok (a : A)
| Throw (e : exn).
Arguments Ok {A} a.
Arguments Throw {A} e.

Definition obind {A B} (x : outcome A) (f : A -> outcome B) : outcome B :=
  match x with
  | Ok a => f a
  | Throw e => Throw e
  end.

Fixpoint omapM {A B} (f : A -> outcome B) (l : list A) : outcome (list B) :=
  match l with
  | [] => Ok []
  | a :: l' =>
      obind (f a) (fun b => obind (omapM f l') (fun bs => Ok (b :: bs)))
  end.

(** [v.key] for one of the keys [variables], [cells], [src], [dest] and
    [values], none of which is a property of a primitive or of an array:
    [None] is [undefined]; reading a property of [null] throws. *)
Definition get_prop (v : json) (key : str) : outcome (option json) :=
  match v with
  | JNull => Throw TypeError
  | JObj fields => Ok (OMap.get key fields)
  | _ => Ok None
  end.

(** The receiver of [.map(...)] must be an array. *)
Definition as_array (v : option json) : outcome (list json) :=
  match v with
  | Some (JArr l) => Ok l
  | _ => Throw TypeError
  end.

(** [path.basename(v)] throws unless [v] is a string. *)
Definition basename_of (v : json) : outcome str :=
  match v with
  | JStr s => Ok (Path.basename s)
  | _ => Throw TypeError
  end.

(** Whether making a property key of [v] throws.  A primitive never
    does.  An object is made a string by its [toString]: the inherited one
    gives a string, an own property [toString] of a parsed document is
    never a function and the inherited [valueOf] returns the object
    itself, so a TypeError is thrown.  An array is joined: each of its
    elements but [null] is made a string in turn. *)
Fixpoint key_throws (v : json) : bool :=
  match v with
  | JObj fields => OMap.has (lit "toString") fields
  | JArr l => existsb key_throws l
  | _ => false
  end.

Section SideFile.

(** [arr[k]] for a key [k] that is a string or an array, as
    [JSON.stringify] prints it ([None]: left out).  The property table of
    arrays belongs to the runtime. *)
Variable array_prop : list str -> json -> option json.

(** [newVariables[k]], as [JSON.stringify] prints it.  A key that is an
    object or an array is first made a string, which throws for some
    keys ([key_throws]). *)
Definition index_variables (newVariables : list str) (k : option json)
  : outcome (option json) :=
  match k with
  | Some (JNum z) =>
      Ok (if (0 <=? z)%Z
          then option_map JStr (nth_error newVariables (Z.to_nat z))
          else None)
  | Some (JStr s) => Ok (array_prop newVariables (JStr s))
  | Some (JArr l) =>
      if key_throws (JArr l) then Throw TypeError
      else Ok (array_prop newVariables (JArr l))
  | Some (JObj fields) =>
      if key_throws (JObj fields) then Throw TypeError else Ok None
  | _ => Ok None
  end.

(** A property whose value is [undefined] is not printed. *)
Definition field (key : string) (v : option json) : list (str * json) :=
  match v with
  | Some x => [(lit key, x)]
  | None => []
  end.

(** The arrow function of [parsed.cells.map]. *)
Definition convert_cell (newVariables : list str) (cell : json) : outcome json :=
  obind (get_prop cell (lit "src")) (fun src =>
  obind (index_variables newVariables src) (fun newSrc =>
  obind (get_prop cell (lit "dest")) (fun dest =>
  obind (index_variables newVariables dest) (fun newDest =>
  obind (get_prop cell (lit "values")) (fun values =>
  Ok (JObj (field "src" newSrc
            ++ field "dest" newDest
            ++ field "values" values))))))).

(** The object [newJson] built from [parsed]. *)
Definition convertJson (parsed : json) : outcome json :=
  obind (get_prop parsed (lit "variables")) (fun vs =>
  obind (as_array vs) (fun vs =>
  obind (omapM basename_of vs) (fun newVariables =>
  obind (get_prop parsed (lit "cells")) (fun cs =>
  obind (as_array cs) (fun cs =>
  obind (omapM (convert_cell newVariables) cs) (fun newCells =>
  match parsed with
  | JObj fields =>
      Ok (JObj (OMap.set (lit "cells") (JArr newCells)
                  (OMap.set (lit "variables") (JArr (map JStr newVariables))
                     fields)))
  | _ => Throw TypeError (* not reached: [parsed.variables] was an array *)
  end)))))).

End SideFile.

(** ** The whole function, over a file system and a console

    What the runtime provides: the rest of Node's [path] module, JSON
    parsing and printing, the property table of arrays, and which paths can
    be written. *)
Record runtime := {
  path_dirname : str -> str;
  path_basename_ext : str -> str -> str;
  path_join : str -> str -> str;
  JSON_parse : str -> outcome json;
  JSON_stringify : json -> str;
  rt_array_prop : list str -> json -> option json;
  can_write : str -> bool
}.

Inductive log_entry :=
| LogDotPath (dotPath : str)
| LogRawDot (dot : str)
| LogIdToLabel (m : OMap.t str)
| LogDotConverted (newDotPath : str)
| LogJsonConverted (newJsonPath : str)
| WarnJson (e : exn)
| ErrorDot (e : exn).

(** A file that cannot be read has no content. *)
Record world := {
  files : str -> option str;
  console : list log_entry
}.

Definition M (A : Type) : Type := world -> outcome A * world.

Definition ret {A} (a : A) : M A := fun w => (Ok a, w).

Definition bind {A B} (x : M A) (f : A -> M B) : M B :=
  fun w =>
    match x w with
    | (Ok a, w') => f a w'
    | (Throw e, w') => (Throw e, w')
    end.

Definition lift {A} (x : outcome A) : M A := fun w => (x, w).

Definition try_catch {A} (body : M A) (handler : exn -> M A) : M A :=
  fun w =>
    match body w with
    | (Ok a, w') => (Ok a, w')
    | (Throw e, w') => handler e w'
    end.

Notation "x <- c1 ;; c2" := (bind c1 (fun x => c2))
  (at level 61, c1 at next level, right associativity).
Notation "c1 ;;; c2" := (bind c1 (fun _ => c2))
  (at level 61, right associativity).

Definition log (e : log_entry) : M unit :=
  fun w => (Ok tt, {| files := files w; console := console w ++ [e] |}).

Definition readFile (path : str) : M str :=
  fun w =>
    match files w path with
    | Some content => (Ok content, w)
    | None => (Throw (FsError path), w)
    end.

Definition writeFile (rt : runtime) (path content : str) : M unit :=
  fun w =>
    if can_write rt path then
      (Ok tt,
       {| files := fun p => if str_eqb p path then Some content else files w p;
          console := console w |})
    else (Throw (FsError path), w).

Definition convertDotIds (rt : runtime) (dotPath : str) : M unit :=
  log (LogDotPath dotPath) ;;;
  try_catch
    (raw <- readFile dotPath ;;
     let dot := replaceAll_crlf raw in
     log (LogRawDot dot) ;;;
     let idToLabel := idToLabel_of dot in
     log (LogIdToLabel idToLabel) ;;;
     let newDot := rewriteDot idToLabel dot in
     let dotDir := path_dirname rt dotPath in
     let dotBase := path_basename_ext rt dotPath (lit ".dot") in
     let newDotPath := path_join rt dotDir (dotBase ++ lit ".converted.dot") in
     writeFile rt newDotPath newDot ;;;
     log (LogDotConverted newDotPath) ;;;
     let jsonPath := path_join rt dotDir (dotBase ++ lit ".json") in
     try_catch
       (rawJson <- readFile jsonPath ;;
        parsed <- lift (JSON_parse rt rawJson) ;;
        newJson <- lift (convertJson (rt_array_prop rt) parsed) ;;
        let newJsonPath :=
          path_join rt dotDir (dotBase ++ lit ".converted.json") in
        writeFile rt newJsonPath (JSON_stringify rt newJson) ;;;
        log (LogJsonConverted newJsonPath))
       (fun err => log (WarnJson err)))
    (fun err => log (ErrorDot err)).

End Converter.

(* ================================================================== *)
(** * The serializer: [treeToDot] and [nodeToDot] *)

Module Serializer.
Import Js.

(** What the serializer reads of a syntax node: its type and its children. *)
Inductive tree := Node (type : str) (children : list tree).

(** The line of a node: id, a blank, then the type copied between
    [label=] quotes as it is. *)
Definition node_line (id type : str) : str :=
  id ++ litq " [label='" ++ type ++ litq "'];".

Definition edge_line (from to : str) : str :=
  from ++ lit " -> " ++ to ++ lit ";".

(** The state shared by the calls of [addNode]: [idCounter] and [lines]. *)
Definition st := (nat * list str)%type.

(** The body of the loop over the children, after the call on the child. *)
Definition link (nodeId : str) (r : str * st) : st :=
  (fst (snd r), snd (snd r) ++ [edge_line nodeId (fst r)]).

Fixpoint addNode (node : tree) (s : st) : str * st :=
  match node with
  | Node type children =>
      let nodeId := lit "n" ++ decimal (fst s) in
      (nodeId,
       fold_left (fun s child => link nodeId (addNode child s)) children
         (S (fst s), snd s ++ [node_line nodeId type]))
  end.

Definition treeLines (root : tree) : list str :=
  snd (snd (addNode root (0, [lit "digraph G {"]))) ++ [lit "}"].

Definition treeToDot (root : tree) : str := join [newline] (treeLines root).

(** [nodeToDot] of [parseFileWithTreeSitter]: numeric ids, two blanks of
    indentation, the edge from the parent before the children. *)
Definition decimalZ (z : Z) : str :=
  match z with
  | Zneg p => lit "-" ++ decimal (Pos.to_nat p)
  | _ => decimal (Z.to_nat z)
  end.

Fixpoint nodeToDot (node : tree) (parentId : Z) (s : st) : st :=
  match node with
  | Node type children =>
      let myId := fst s in
      let lines1 := snd s ++ [lit "  " ++ node_line (decimal myId) type] in
      let lines2 :=
        if (parentId =? -1)%Z then lines1
        else lines1
             ++ [lit "  " ++ edge_line (decimalZ parentId) (decimal myId)] in
      fold_left (fun s child => nodeToDot child (Z.of_nat myId) s) children
        (S myId, lines2)
  end.

Definition astLines (root : tree) : list str :=
  snd (nodeToDot root (-1) (0, [lit "digraph AST {"])) ++ [lit "}"].

Definition astDotGraph (root : tree) : str := join [newline] (astLines root).

(** The types of the nodes, in the order of the first visit. *)
Fixpoint preorder (node : tree) : list str :=
  match node with
  | Node type children => type :: flat_map preorder children
  end.

End Serializer.

(* ================================================================== *)
(** * The viewer: [App.tsx] *)

Module Viewer.
Import Js Regex.

(** ** [parseDotToElements]

    nodeRegex, g flag:
    ( [A-Za-z0-9_]+ )   \s*   \[label   \s*   =   \s*   quote   ( .*? )
    quote   \]   \s*   ;?

    edgeRegex, g flag:
    ( [A-Za-z0-9_]+ )   \s*   ->   \s*   ( [A-Za-z0-9_]+ )   \s*   ;? *)
Definition nodeRegex : regex :=
  [Cls is_word Plus true; Cls is_space Star false] ++ Lit "[label"
  ++ [Cls is_space Star false] ++ Lit "=" ++ [Cls is_space Star false]
  ++ [Chr dquote; Cls is_dot StarLazy true; Chr dquote] ++ Lit "]"
  ++ [Cls is_space Star false; Cls (N.eqb 59) Opt false].

Definition edgeRegex : regex :=
  [Cls is_word Plus true; Cls is_space Star false] ++ Lit "->"
  ++ [Cls is_space Star false; Cls is_word Plus true;
      Cls is_space Star false; Cls (N.eqb 59) Opt false].

Record graph := {
  nodes : list (str * str);  (* id, label *)
  edges : list (str * str)   (* source, target *)
}.

Definition declare_node (m : OMap.t str) (caps : list str) : OMap.t str :=
  match caps with
  | [id; label] => OMap.set id label m
  | _ => m
  end.

(** [if (!idToLabel.has(x)) idToLabel.set(x, x)] *)
Definition ensure_node (x : str) (m : OMap.t str) : OMap.t str :=
  if OMap.has x m then m else OMap.set x x m.

Definition record_edge (acc : list (str * str) * OMap.t str) (caps : list str)
  : list (str * str) * OMap.t str :=
  match caps with
  | [src; dst] =>
      (fst acc ++ [(src, dst)], ensure_node dst (ensure_node src (snd acc)))
  | _ => acc
  end.

(** [idToLabel] after the first loop: the declared nodes. *)
Definition declarations (dot : str) : OMap.t str :=
  fold_left declare_node (matches nodeRegex dot) [].

Definition parseDotToElements (dot : str) : graph :=
  let r :=
    fold_left record_edge (matches edgeRegex dot) ([], declarations dot) in
  {| nodes := snd r; edges := fst r |}.

(** ** The quoted dialect of [init]

    The probe and the pattern matched against each line:
    quote   ( [^quote]+ )   quote   \s*   ->   \s*   quote   ( [^quote]+ )
    quote *)
Definition quotedRegex : regex :=
  [Chr dquote; Cls is_not_dquote Plus true; Chr dquote;
   Cls is_space Star false] ++ Lit "->"
  ++ [Cls is_space Star false; Chr dquote; Cls is_not_dquote Plus true;
      Chr dquote].

Definition quotedMatch (dotText : str) : bool := test quotedRegex dotText.

(** One turn of the loop over the lines: [edges] and [nodesSet]. *)
Definition quoted_line (acc : list (str * str) * list str) (line : str)
  : list (str * str) * list str :=
  match search quotedRegex None line with
  | Some [a; b] => (fst acc ++ [(a, b)], OMap.add b (OMap.add a (snd acc)))
  | _ => acc
  end.

Definition quoted_graph (dotText : str) : graph :=
  let r := fold_left quoted_line (split_on newline dotText) ([], []) in
  {| nodes := map (fun id => (id, id)) (snd r); edges := fst r |}.

(** The structural model [init] builds from the text. *)
Definition graph_of_text (dotText : str) : graph :=
  if quotedMatch dotText then quoted_graph dotText
  else parseDotToElements dotText.

(** ** Radial placement

    Coordinates are JavaScript numbers; they are modelled by real numbers.
    The radius and the node count are integers (exactly representable). *)
Inductive element :=
| NodeElement (id name : str) (position : option (R * R))
| EdgeElement (id source target : str).

Definition centerX : R := 400.
Definition centerY : R := 250.

Definition place (radius angleStep : R) (i : nat) : R * R :=
  (centerX + radius * cos (INR i * angleStep),
   centerY + radius * sin (INR i * angleStep))%R.

(** [arr.map((x, i) => f x i)] *)
Fixpoint mapi_from {A B} (f : A -> nat -> B) (i : nat) (l : list A) : list B :=
  match l with
  | [] => []
  | a :: l' => f a i :: mapi_from f (S i) l'
  end.

Definition mapi {A B} (f : A -> nat -> B) (l : list A) : list B :=
  mapi_from f 0 l.

Definition edge_element (e : str * str) (i : nat) : element :=
  EdgeElement (lit "e" ++ decimal i) (fst e) (snd e).

(** [const n = nodes.length || 1] *)
Definition count_or_one (len : nat) : nat :=
  match len with
  | O => 1
  | S _ => len
  end.

(** [Math.max(120, Math.min(300, 40 * n))] *)
Definition radius_of (n : nat) : Z := Z.max 120 (Z.min 300 (40 * Z.of_nat n)).

Definition angleStep_of (n : nat) : R := (2 * PI / INR n)%R.

Definition buildCytoscapeElements (parsed : graph) : list element :=
  let n := count_or_one (length (nodes parsed)) in
  let radius := IZR (radius_of n) in
  let angleStep := angleStep_of n in
  mapi (fun node i =>
          NodeElement (fst node) (snd node) (Some (place radius angleStep i)))
       (nodes parsed)
  ++ mapi edge_element (edges parsed).

(** The quoted branch of [init]: [radius = 200] and
    [angleStep = (2 * Math.PI) / Math.max(1, nodesArr.length)]. *)
Definition quoted_radius : Z := 200.

Definition quoted_elements (dotText : str) : list element :=
  let g := quoted_graph dotText in
  let radius := IZR quoted_radius in
  let angleStep := angleStep_of (Nat.max 1 (length (nodes g))) in
  mapi (fun node i =>
          NodeElement (fst node) (fst node) (Some (place radius angleStep i)))
       (nodes g)
  ++ mapi edge_element (edges g).

(** [elementsData] of [init]. *)
Definition elementsData (dotText : str) : list element :=
  if quotedMatch dotText then quoted_elements dotText
  else buildCytoscapeElements (parseDotToElements dotText).

(** The radius the radial placement of [init] uses for a text. *)
Definition radius_used (dotText : str) : Z :=
  if quotedMatch dotText then quoted_radius
  else radius_of (count_or_one (length (nodes (parseDotToElements dotText)))).

(** ** [fetchDotForNode] *)

(** What [await fetch(url)] followed by [await res.text()] can do. *)
Inductive response :=
| NetworkError                      (* fetch rejects *)
| NotOk (status : nat)              (* res.ok is false *)
| OkText (text : str)               (* res.ok, and the body is read *)
| OkNoText.                         (* res.ok, and res.text() rejects *)

Inductive fetched :=
| Found (url text : str)
| NoDotFile (message : str)         (* the Error thrown after the loop *)
| URIError.                         (* thrown by encodeURIComponent *)

(** The pattern of the last candidate: %2F with the g flag. *)
Definition slashEscapeRegex : regex := Lit "%2F".

Definition candidates (enc : str) : list str :=
  [ lit "/dot/" ++ enc ++ lit ".tree.dot";
    lit "/dot/" ++ enc ++ lit ".dot";
    lit "/dot/" ++ enc ++ lit ".tree.dot.txt";
    lit "/" ++ enc ++ lit ".tree.dot";
    lit "/" ++ enc ++ lit ".dot";
    lit "/dot/" ++ enc ++ lit ".tree.dot";
    replace_g slashEscapeRegex (fun _ => lit "__")
      (lit "/dot/" ++ enc ++ lit ".tree.dot") ].

Definition not_found_message (nodeId : str) (tried : list str) : str :=
  litq "No DOT file found for '" ++ nodeId ++ litq "'. Tried: "
  ++ join (lit ", ") tried
  ++ lit ". Put the file in public/dot/ or ensure your server exposes /dot/ path.".

(** The [for] loop; [tried] is the array of the same name, which is also
    the list of the requests sent so far. *)
Fixpoint try_candidates (fetch : str -> response) (nodeId : str)
  (cands tried : list str) : list str * fetched :=
  match cands with
  | [] => (tried, NoDotFile (not_found_message nodeId tried))
  | url :: rest =>
      if OMap.includes url tried then try_candidates fetch nodeId rest tried
      else
        match fetch url with
        | OkText text => (tried ++ [url], Found url text)
        | _ => try_candidates fetch nodeId rest (tried ++ [url])
        end
  end.

(** The requests sent, in order, and the result. *)
Definition fetchDotForNode (fetch : str -> response) (nodeId : str)
  : list str * fetched :=
  match Uri.encodeURIComponent nodeId with
  | Some enc => try_candidates fetch nodeId (candidates enc) []
  | None => ([], URIError)
  end.

(** ** The tap handler and the overlay state *)
Record popup := {
  popupDot : option str;
  popupTitle : option str;
  popupError : option str
}.

(** Up to the [await]: [setPopupError(null); setPopupTitle(nodeId)]. *)
Definition tap_begin (p : popup) (nodeId : str) : popup :=
  {| popupDot := popupDot p; popupTitle := Some nodeId; popupError := None |}.

(** [err.message || String(err)]; the message of the URIError is the
    runtime's. *)
Definition error_text (uriErrorText : str) (f : fetched) : str :=
  match f with
  | NoDotFile (c :: m) => c :: m
  | NoDotFile [] => lit "Error"
  | URIError => uriErrorText
  | Found _ _ => []
  end.

(** After the [await]. *)
Definition tap_settle (uriErrorText : str) (p : popup) (f : fetched) : popup :=
  match f with
  | Found _ text =>
      {| popupDot := Some text; popupTitle := popupTitle p;
         popupError := popupError p |}
  | _ =>
      {| popupDot := None; popupTitle := popupTitle p;
         popupError := Some (error_text uriErrorText f) |}
  end.

Definition tap (uriErrorText : str) (fetch : str -> response) (p : popup)
  (nodeId : str) : popup :=
  tap_settle uriErrorText (tap_begin p nodeId) (snd (fetchDotForNode fetch nodeId)).

End Viewer.

(** * The request handler of [serveVisualizer], and the first request of
      the page *)

Module Server.
Import Js.
Local Open Scope N_scope.

(** [s.startsWith(p)] *)
Fixpoint startsWith (p s : str) : bool :=
  match p, s with
  | [], _ => true
  | a :: p', b :: s' => (a =? b) && startsWith p' s'
  | _ :: _, [] => false
  end.

(** [s.replace(pat, by)] for a string pattern: the first occurrence. *)
Fixpoint replace_first (pat by_ s : str) : str :=
  if startsWith pat s then by_ ++ skipn (length pat) s
  else match s with
       | c :: s' => c :: replace_first pat by_ s'
       | [] => []
       end.

(** The directory a request is served from: [path.dirname(dotPath)], or
    the [dist] directory of the visualizer. *)
Inductive public := DotDir | VisualizerDir.

(** The callback of [createServer]: the directory given to the file
    handler and [req.url] as the handler sees it ([None]: no url). *)
Definition route (url : option str) : public * option str :=
  match url with
  | Some u =>
      if startsWith (lit "/dot/") u
      then (DotDir, Some (replace_first (lit "/dot") [] u))
      else (VisualizerDir, Some u)
  | None => (VisualizerDir, None)
  end.

End Server.

Module Page.
Import Js.
Import Server.

(** [params.get("dot") || "depends-output-file.converted.dot"], then the
    leading slash of [fetchPath]. *)
Definition fetchPath (dotParam : option str) : str :=
  let dotUrlParam :=
    match dotParam with
    | Some (c :: p) => c :: p
    | _ => lit "depends-output-file.converted.dot"
    end in
  if startsWith (lit "/") dotUrlParam then dotUrlParam
  else lit "/" ++ dotUrlParam.

End Page.

(** * What the overlay shows *)

Module Overlay.
Import Js.
Import Viewer.


Inductive body :=
| Graph (dot : str)        (* the DotViewer and the raw text *)
| Loading                  (* the Loading placeholder *)
| NoBody.




End Overlay.

(** * The memory helpers of [loadTreeSitterLanguage]

    [mem] is the [Uint8Array] over the memory buffer: a sequence of bytes.
    The arguments of the helpers are integers (they stand for wasm
    addresses and sizes). *)

Module Wasm.
Local Open Scope Z_scope.

Definition bytes := list N.

(** [mem[k]]: [None] is [undefined], the value outside the array. *)
Definition get_byte (mem : bytes) (k : Z) : option N :=
  if (0 <=? k) && (k <? Z.of_nat (length mem))
  then nth_error mem (Z.to_nat k)
  else None.

Fixpoint update (n : nat) (v : N) (mem : bytes) : bytes :=
  match mem, n with
  | [], _ => []
  | _ :: mem', O => v :: mem'
  | b :: mem', S n' => b :: update n' v mem'
  end.

(** [mem[k] = v]: nothing happens outside the array; [undefined] is stored
    as 0. *)
Definition set_byte (mem : bytes) (k : Z) (v : option N) : bytes :=
  if (0 <=? k) && (k <? Z.of_nat (length mem))
  then update (Z.to_nat k)
         (match v with Some b => b | None => 0%N end) mem
  else mem.

(** An index argument of [copyWithin], relative to the end when
    negative, and kept within the array. *)
Definition clamp_index (len r : Z) : Z :=
  if r <? 0 then Z.max (len + r) 0 else Z.min r len.

(** [mem.copyWithin(target, start, end)]: the bytes are copied as if
    through a buffer. *)
Definition copyWithin (mem : bytes) (target start end_ : Z) : bytes :=
  let len := Z.of_nat (length mem) in
  let to := clamp_index len target in
  let from := clamp_index len start in
  let final := clamp_index len end_ in
  let count := Z.min (final - from) (len - to) in
  if 0 <? count then
    firstn (Z.to_nat to) mem
    ++ firstn (Z.to_nat count) (skipn (Z.to_nat from) mem)
    ++ skipn (Z.to_nat (to + count)) mem
  else mem.

(** The result and the memory afterwards. *)
Definition memcpy (mem : bytes) (dest src num : Z) : Z * bytes :=
  (dest, copyWithin mem dest src (src + num)).

(** [for (let i = num - 1; i >= 0; i--) mem[dest + i] = mem[src + i]]:
    [n] is the number of turns left, [i = n - 1]. *)
Fixpoint copy_backwards (n : nat) (mem : bytes) (dest src : Z) : bytes :=
  match n with
  | O => mem
  | S i =>
      copy_backwards i
        (set_byte mem (dest + Z.of_nat i) (get_byte mem (src + Z.of_nat i)))
        dest src
  end.

Definition memmove (mem : bytes) (dest src num : Z) : Z * bytes :=
  if dest <? src then (dest, copyWithin mem dest src (src + num))
  else (dest, copy_backwards (Z.to_nat num) mem dest src).

End Wasm.

(** * The command line: [findDotFile] and [main]

    The steps that [main] awaits belong to the outside: the Java process,
    the file system, the renderer, the parser and the server.  Each of
    them is a transition of the outside world that ends with a value or a
    rejection; [main] is modelled over any such steps. *)

Module Cli.
Import Js.

(** [s.endsWith(suffix)]. *)
Definition endsWith (s suffix : str) : bool :=
  (length suffix <=? length s)%nat
  && str_eqb (skipn (length s - length suffix) s) suffix.

(** [args.indexOf(x)]: [None] is -1. *)
Fixpoint indexOf (x : str) (args : list str) : option nat :=
  match args with
  | [] => None
  | a :: args' =>
      if str_eqb a x then Some 0%nat else option_map S (indexOf x args')
  end.

(** What [main] throws itself, or what an awaited step rejects with. *)
Inductive error (E : Type) :=
| NoDotFileInOutput             (* 'No .dot file found in output' *)
| NoDotFileIn (outputDir : str) (* 'No .dot file found in <outputDir>' *)
| NothingToVisualize            (* 'No DOT file found to visualize.' *)
| Rejected (e : E).
Arguments NoDotFileInOutput {E}.
Arguments NoDotFileIn {E} outputDir.
Arguments NothingToVisualize {E}.
Arguments Rejected {E} e.

(** The lines [main] prints itself. *)
Inductive message (E : Type) :=
| Usage
| Converting
| DoneConverting
| RunningTreeSitter
| Error (e : error E).
Arguments Usage {E}.
Arguments Converting {E}.
Arguments DoneConverting {E}.
Arguments RunningTreeSitter {E}.
Arguments Error {E} e.

(** How the call of [main] ends: it returns, or the process exits. *)
Inductive status := Returned | Exited (code : Z).

Inductive result (E A : Type) :=
| Done (a : A)
| Failed (e : error E).
Arguments Done {E A} a.
Arguments Failed {E A} e.

(** The outside: [W] is its state, [E] what a step rejects with, [number]
    the type of the port. *)
Record steps (W E number : Type) := {
  runDependsJar : str -> str -> str -> W -> (unit + E) * W;
  access : str -> W -> (unit + E) * W;
  path_join : str -> str -> str;
  convertDotIds : str -> W -> (unit + E) * W;
  renderDependsGraphs : str -> W -> (unit + E) * W;
  readdir : str -> W -> (list str + E) * W;
  parseFileWithTreeSitter : str -> str -> W -> (unit + E) * W;
  serveVisualizer : number -> str -> W -> (unit + E) * W;
  console : message E -> W -> W;
  parseInt10 : option str -> number;  (* [parseInt(x, 10)]; [None]: undefined *)
  DEFAULT_PORT : number               (* 3000 *)
}.

Arguments runDependsJar {W E number} s.
Arguments access {W E number} s.
Arguments path_join {W E number} s.
Arguments convertDotIds {W E number} s.
Arguments renderDependsGraphs {W E number} s.
Arguments readdir {W E number} s.
Arguments parseFileWithTreeSitter {W E number} s.
Arguments serveVisualizer {W E number} s.
Arguments console {W E number} s.
Arguments parseInt10 {W E number} s.
Arguments DEFAULT_PORT {W E number} s.

Section Main.
Variables W E number : Type.
Variable st : steps W E number.

Definition M (A : Type) : Type := W -> result E A * W.

Definition ret {A} (a : A) : M A := fun w => (Done a, w).

Definition bind {A B} (x : M A) (f : A -> M B) : M B :=
  fun w =>
    match x w with
    | (Done a, w') => f a w'
    | (Failed e, w') => (Failed e, w')
    end.

Definition throw {A} (e : error E) : M A := fun w => (Failed e, w).

Definition await {A} (step : W -> (A + E) * W) : M A :=
  fun w =>
    match step w with
    | (inl a, w') => (Done a, w')
    | (inr e, w') => (Failed (Rejected e), w')
    end.

Definition say (m : message E) : M unit := fun w => (Done tt, console st m w).

Notation "x <- c1 ;; c2" := (bind c1 (fun x => c2))
  (at level 61, c1 at next level, right associativity).
Notation "c1 ;;; c2" := (bind c1 (fun _ => c2))
  (at level 61, right associativity).

Definition findDotFile (outputDir filename : str) : M str :=
  let dotFile := path_join st outputDir filename in
  fun w =>
    match access st dotFile w with
    | (inr _, w') => (Failed NoDotFileInOutput, w')
    | (inl _, w') =>
        match dotFile with
        | [] => (Failed (NoDotFileIn outputDir), w')
        | _ :: _ => (Done dotFile, w')
        end
    end.

(** The loop over the entries of the source directory. *)
Fixpoint parse_each (src outputDir : str) (filesToParse : list str) : M unit :=
  match filesToParse with
  | [] => ret tt
  | file :: rest =>
      (if endsWith file (lit ".py")
       then await (parseFileWithTreeSitter st (path_join st src file) outputDir)
       else ret tt) ;;;
      parse_each src outputDir rest
  end.

Definition port_of (args : list str) : number :=
  match indexOf (lit "--port") args with
  | Some portIndex => parseInt10 st (nth_error args (portIndex + 1))
  | None => DEFAULT_PORT st
  end.

(** The body of the [try] block. *)
Definition run (args : list str) (language src outputDir : str) : M unit :=
  let runWeb := OMap.includes (lit "--web") args in
  let port := port_of args in
  let onlyTreeSitter := OMap.includes (lit "--only-tree-sitter") args in
  let onlyDepends := OMap.includes (lit "--only-depends") args in
  convertedDotFilePath <-
    (if negb onlyTreeSitter then
       await (runDependsJar st language src outputDir) ;;;
       dotFilePath <- findDotFile outputDir (lit "depends-output-file.dot") ;;
       say Converting ;;;
       await (convertDotIds st dotFilePath) ;;;
       say DoneConverting ;;;
       converted <-
         findDotFile outputDir (lit "depends-output-file.converted.dot") ;;
       await (renderDependsGraphs st converted) ;;;
       ret (Some converted)
     else ret None) ;;
  (if negb onlyDepends then
     say RunningTreeSitter ;;;
     filesToParse <- await (readdir st src) ;;
     parse_each src outputDir filesToParse
   else ret tt) ;;;
  if runWeb then
    match convertedDotFilePath with
    | Some (c :: path) => await (serveVisualizer st port (c :: path))
    | _ => throw NothingToVisualize
    end
  else ret tt.

Definition main (args : list str) (w : W) : status * W :=
  match args with
  | language :: src :: outputDir :: _ =>
      match run args language src outputDir w with
      | (Done _, w') => (Returned, w')
      | (Failed err, w') => (Exited 1, console st (Error err) w')
      end
  | _ => (Exited 1, console st Usage w)
  end.

End Main.

Arguments M W E A : clear implicits.
Arguments ret {W E A} a w.
Arguments bind {W E A B} x f w.
Arguments throw {W E A} e w.
Arguments await {W E A} step w.
Arguments say {W E number} st m w.
Arguments findDotFile {W E number} st outputDir filename w.
Arguments parse_each {W E number} st src outputDir filesToParse w.
Arguments port_of {W E number} st args.
Arguments run {W E number} st args language src outputDir w.
Arguments main {W E number} st args w.

End Cli.

(** * [renderDependsGraphs]

    The renderer, the image converter and the decoding of a file that is
    read as text belong to the outside; the file system is a table of
    contents by path. *)

Module Render.
Import Js.

(** [dotPath.replace(/\.dot$/, by)]: without the [m] flag the pattern
    matches only where what is left of the path is [.dot]. *)
Fixpoint replace_dot_end (by_ : str) (dotPath : str) : str :=
  if str_eqb dotPath (lit ".dot") then by_
  else
    match dotPath with
    | [] => []
    | c :: rest => c :: replace_dot_end by_ rest
    end.

Definition svgPath_of (dotPath : str) : str :=
  replace_dot_end (lit ".svg") dotPath.

Definition pngPath_of (dotPath : str) : str :=
  replace_dot_end (lit ".png") dotPath.

Inductive content (B : Type) :=
| Text (s : str)
| Binary (b : B).
Arguments Text {B} s.
Arguments Binary {B} b.

Inductive failure (E : Type) :=
| Unreadable (path : str)
| Unwritable (path : str)
| Rejected (e : E).
Arguments Unreadable {E} path.
Arguments Unwritable {E} path.
Arguments Rejected {E} e.

Inductive entry :=
| Rendering (dotPath : str)
| SavedSvg (svgPath : str)
| SavedPng (pngPath : str).

Record world (B : Type) := {
  files : str -> option (content B);
  output : list entry
}.
Arguments files {B} w path.
Arguments output {B} w.

(** The outside: [V] is a renderer, [B] a buffer, [E] a rejection. *)
Record outside (V B E : Type) := {
  createVizWithMemory : (str -> option (content B)) -> V + E;
  renderString : V -> str -> str + E;     (* with format svg *)
  png : str -> B + E;                     (* sharp(...).png().toBuffer() *)
  decode : B -> str;                      (* a file read as utf-8 *)
  can_write : str -> bool
}.
Arguments createVizWithMemory {V B E} o fs.
Arguments renderString {V B E} o viz dot.
Arguments png {V B E} o svgText.
Arguments decode {V B E} o b.
Arguments can_write {V B E} o path.

Section Steps.
Variables V B E : Type.
Variable o : outside V B E.

Definition M (A : Type) : Type := world B -> (A + failure E) * world B.

Definition ret {A} (a : A) : M A := fun w => (inl a, w).

Definition bind {A C} (x : M A) (f : A -> M C) : M C :=
  fun w =>
    match x w with
    | (inl a, w') => f a w'
    | (inr e, w') => (inr e, w')
    end.

Notation "x <- c1 ;; c2" := (bind c1 (fun x => c2))
  (at level 61, c1 at next level, right associativity).
Notation "c1 ;;; c2" := (bind c1 (fun _ => c2))
  (at level 61, right associativity).

Definition log (e : entry) : M unit :=
  fun w => (inl tt, {| files := files w; output := output w ++ [e] |}).

Definition await {A} (x : A + E) : M A :=
  fun w =>
    match x with
    | inl a => (inl a, w)
    | inr e => (inr (Rejected e), w)
    end.

Definition readFile (path : str) : M str :=
  fun w =>
    match files w path with
    | Some (Text s) => (inl s, w)
    | Some (Binary b) => (inl (decode o b), w)
    | None => (inr (Unreadable path), w)
    end.

Definition writeFile (path : str) (c : content B) : M unit :=
  fun w =>
    if can_write o path then
      (inl tt,
       {| files := fun p => if str_eqb p path then Some c else files w p;
          output := output w |})
    else (inr (Unwritable path), w).

Definition renderDependsGraphs (dotPath : str) : M unit :=
  log (Rendering dotPath) ;;;
  viz <- (fun w => await (createVizWithMemory o (files w)) w) ;;
  dot <- readFile dotPath ;;
  svgText <- await (renderString o viz dot) ;;
  let svgPath := svgPath_of dotPath in
  writeFile svgPath (Text svgText) ;;;
  pngBuffer <- await (png o svgText) ;;
  let pngPath := pngPath_of dotPath in
  writeFile pngPath (Binary pngBuffer) ;;;
  log (SavedSvg svgPath) ;;;
  log (SavedPng pngPath).

End Steps.

Arguments M B E A : clear implicits.
Arguments ret {B E A} a w.
Arguments bind {B E A C} x f w.
Arguments log {B E} e w.
Arguments await {B E A} x w.
Arguments readFile {V B E} o path w.
Arguments writeFile {V B E} o path c w.
Arguments renderDependsGraphs {V B E} o dotPath w.

End Render.

(* ================================================================== *)
(** * Specification-side definitions *)

Module Spec.
Import Js.

(** [clamp(x, lo, hi)]. *)
Definition clamp (x lo hi : Z) : Z :=
  if (x <? lo)%Z then lo else if (hi <? x)%Z then hi else x.

(** A list without its repeated elements: the first occurrence of each
    string stays where it is. *)
Fixpoint dedup (l : list str) : list str :=
  match l with
  | [] => []
  | x :: l' => x :: filter (fun y => negb (str_eqb x y)) (dedup l')
  end.

(** The last pair of an association list with a given key. *)
Fixpoint last_with (k : str) (l : list (str * str)) : option str :=
  match l with
  | [] => None
  | (k', v) :: l' =>
      match last_with k l' with
      | Some x => Some x
      | None => if str_eqb k k' then Some v else None
      end
  end.

End Spec.

Import Js.

Unset Implicit Arguments.

(** ** Words of a regular expression, runs of a class *)

Module Words.
Import Regex.

Definition all (p : char -> bool) (w : str) : Prop :=
  Forall (fun c => p c = true) w.

Definition length_ok (q : quant) (n : nat) : Prop :=
  match q with
  | One => n = 1
  | Opt => n <= 1
  | Plus => 1 <= n
  | Star | StarLazy => True
  end.

(** [Matches r prev w rest caps]: at a position preceded by [prev] and
    followed by [w ++ rest], the regular expression [r] can match exactly
    [w], capturing [caps]. *)
Inductive Matches : regex -> option char -> str -> str -> list str -> Prop :=
| M_nil prev rest : Matches [] prev [] rest []
| M_bol r prev w rest caps :
    at_bol prev = true -> Matches r prev w rest caps ->
    Matches (Bol :: r) prev w rest caps
| M_eol r prev w rest caps :
    at_eol (w ++ rest) = true -> Matches r prev w rest caps ->
    Matches (Eol :: r) prev w rest caps
| M_cls p q cap r prev w1 w2 rest caps :
    all p w1 -> length_ok q (length w1) ->
    Matches r (prev_after w1 prev) w2 rest caps ->
    Matches (Cls p q cap :: r) prev (w1 ++ w2) rest
      (if cap then w1 :: caps else caps).

(** Where a repetition can stop for good: the next character is not of
    the class. *)
Definition stops (p : char -> bool) (rest : str) : Prop :=
  match rest with
  | [] => True
  | c :: _ => p c = false
  end.

Definition occurs (r : regex) (prev : option char) (s : str) : Prop :=
  exists pre w rest caps,
    s = pre ++ w ++ rest /\ Matches r (prev_after pre prev) w rest caps.

Fixpoint takeWhile (p : char -> bool) (s : str) : str :=
  match s with
  | c :: s' => if p c then c :: takeWhile p s' else []
  | [] => []
  end.

Fixpoint dropWhile (p : char -> bool) (s : str) : str :=
  match s with
  | c :: s' => if p c then dropWhile p s' else s
  | [] => []
  end.

(** [r] cannot match where the input starts with a character of [p]. *)
Definition refuses (p : char -> bool) (r : regex) : Prop :=
  forall prev c s, p c = true -> run r prev (c :: s) = None.

(** The result of the rest of the expression, with one more group. *)
Definition with_group (cap : bool) (w : str) (x : option (list str * str))
  : option (list str * str) :=
  match x with
  | Some (caps, out) => Some (if cap then w :: caps else caps, out)
  | None => None
  end.

(** A match that starts in [pre] ends in [pre]. *)
Definition closed_before (r : regex) (prev : option char) (pre s : str)
  : Prop :=
  forall pre1 suf caps rest,
    pre = pre1 ++ suf -> suf <> [] ->
    run r (prev_after pre1 prev) (suf ++ s) = Some (caps, rest) ->
    (length s <= length rest)%nat.

Definition anchored (r : regex) : Prop :=
  forall prev s, at_bol prev = false -> run r prev s = None.

(** [k] refuses whatever starts with a character of the class. *)
Definition disjoint_k (R : Type) (p : char -> bool)
  (k : str -> str -> option R) : Prop :=
  forall w c r, p c = true -> k w (c :: r) = None.

End Words.

(** ** The shapes the viewer looks for *)

Module Shapes.
Import Words.

(** [s] has a part that satisfies [P]. *)
Definition contains (P : str -> Prop) (s : str) : Prop :=
  exists pre w post, s = pre ++ w ++ post /\ P w.

(** A quoted edge: a non-empty quoted label, an arrow, a non-empty quoted
    label, with optional white space around the arrow. *)
Definition quoted_edge_text (w : str) : Prop :=
  exists x ws1 ws2 y,
    w = dquote :: x ++ dquote :: ws1 ++ lit "->" ++ ws2 ++ dquote :: y ++ [dquote]
    /\ x <> [] /\ y <> []
    /\ all is_not_dquote x /\ all is_not_dquote y
    /\ all is_space ws1 /\ all is_space ws2.

(** An edge between two ids. *)
Definition plain_edge_text (w : str) : Prop :=
  exists a ws1 ws2 b,
    w = a ++ ws1 ++ lit "->" ++ ws2 ++ b
    /\ a <> [] /\ b <> [] /\ all is_word a /\ all is_word b
    /\ all is_space ws1 /\ all is_space ws2.

(** A node declaration: an id and a label between quotes. *)
Definition node_decl_text (w : str) : Prop :=
  exists id ws1 ws2 ws3 label,
    w = id ++ ws1 ++ lit "[label" ++ ws2 ++ lit "=" ++ ws3
        ++ dquote :: label ++ dquote :: lit "]"
    /\ id <> [] /\ all is_word id /\ all is_dot label
    /\ all is_space ws1 /\ all is_space ws2 /\ all is_space ws3.

End Shapes.

(** ** The comment pattern, with the longest runs *)

Module CommentParse.
Import Words.
Local Open Scope N_scope.

(** What the comment pattern does at a position, written with the longest
    runs: two slashes, white space, digits, a colon, the rest of the
    line. *)
Definition comment_parse (s : str) : option (list str * str) :=
  match s with
  | a :: b :: s1 =>
      if (47 =? a) && (47 =? b) then
        match takeWhile is_digit (dropWhile is_space s1) with
        | [] => None
        | id =>
            match dropWhile is_digit (dropWhile is_space s1) with
            | d :: s4 =>
                if 58 =? d
                then Some ([id; takeWhile is_dot s4], dropWhile is_dot s4)
                else None
            | [] => None
            end
        end
      else None
  | _ => None
  end.

(** The pairs (id, path) the loop of step 2 sees. *)
Definition entry_of (caps : list str) : list (str * str) :=
  match caps with
  | [id; fullPath] => [(id, fullPath)]
  | _ => []
  end.

Definition comment_entries (dot : str) : list (str * str) :=
  flat_map entry_of (Regex.matches Converter.commentRegex dot).

(** A position where a line starts. *)
Definition line_start (pre : str) : Prop :=
  pre = [] \/ exists pre0, pre = pre0 ++ [newline].

(** The text of a label comment. *)
Definition label_comment (ws id path : str) : str :=
  lit "//" ++ ws ++ id ++ lit ":" ++ path.

(** Its parts: white space, a non-empty run of digits, and a path without
    line terminator. *)
Definition label_parts (ws id path : str) : Prop :=
  all is_space ws /\ id <> [] /\ all is_digit id
  /\ all is_dot path.

Definition label_comment_text (w : str) : Prop :=
  exists ws id path, w = label_comment ws id path /\ label_parts ws id path.

Definition comment_of (e : str * str) (w : str) : Prop :=
  exists ws, w = label_comment ws (fst e) (snd e)
             /\ label_parts ws (fst e) (snd e).

End CommentParse.

(** ** The three patterns of the rewriter, with the longest runs *)

Module RewriteParse.
Import Words.
Local Open Scope N_scope.

(** The edge pattern behind its leading white space: digits, white space,
    the arrow, white space, digits, a semicolon. *)
Definition edge_tail_parse (s1 : str) : option (list str * str) :=
  match takeWhile is_digit s1 with
  | [] => None
  | a =>
      match takeWhile is_space (dropWhile is_digit s1) with
      | [] => None
      | _ =>
          match dropWhile is_space (dropWhile is_digit s1) with
          | x :: y :: s3 =>
              if (45 =? x) && (62 =? y) then
                match takeWhile is_space s3 with
                | [] => None
                | _ =>
                    match takeWhile is_digit (dropWhile is_space s3) with
                    | [] => None
                    | b =>
                        match dropWhile is_digit (dropWhile is_space s3) with
                        | z :: out =>
                            if 59 =? z then Some ([a; b], out) else None
                        | [] => None
                        end
                    end
                end
              else None
          | _ => None
          end
      end
  end.

Definition edge_parse (s : str) : option (list str * str) :=
  with_group true (takeWhile is_space s)
    (edge_tail_parse (dropWhile is_space s)).

(** The comment-line pattern: two slashes and the rest of the line. *)
Definition comment_line_parse (s : str) : option (list str * str) :=
  match s with
  | a :: b :: s1 =>
      if (47 =? a) && (47 =? b) then Some ([], dropWhile is_dot s1) else None
  | _ => None
  end.

(** The last carriage return or line feed of a run of white space: the
    run up to it, it included, and what is behind. *)
Fixpoint last_break (w : str) : option (str * str) :=
  match w with
  | [] => None
  | c :: w' =>
      match last_break w' with
      | Some (a, b) => Some (c :: a, b)
      | None => if is_cr_or_lf c then Some ([c], w') else None
      end
  end.

(** The blank-line pattern: it takes the white space up to the last break
    of the run. *)
Definition blank_parse (s : str) : option (list str * str) :=
  match last_break (takeWhile is_space s) with
  | Some (a, b) => Some ([], b ++ dropWhile is_space s)
  | None => None
  end.

(** What follows the white space of the blank-line pattern. *)
Definition break_here (rest : str) : option (list str * str) :=
  match rest with
  | c :: r => if is_cr_or_lf c then Some ([], r) else None
  | [] => None
  end.

End RewriteParse.

(** ** Texts made of lines *)

Module Lines.
Import Words Converter.
Local Open Scope N_scope.

(** White space that ends no line. *)
Definition is_inline (c : char) : bool := is_space c && is_dot c.

(** The lines of a graph text in the numeric dialect. *)
Inductive line :=
| Blank (ws : str)
| Comment (body : str)                      (* two slashes, then [body] *)
| Edge (ws from sp1 sp2 to tail : str)      (* an edge, then [tail] *)
| Other (ws : str) (c : char) (body : str). (* anything else *)

Definition starts_with_slashes (t : str) : bool :=
  match t with
  | a :: b :: _ => (47 =? a) && (47 =? b)
  | _ => false
  end.

Definition line_text (l : line) : str :=
  match l with
  | Blank ws => ws
  | Comment body => lit "//" ++ body
  | Edge ws from sp1 sp2 to tail =>
      ws ++ from ++ sp1 ++ lit "->" ++ sp2 ++ to ++ lit ";" ++ tail
  | Other ws c body => ws ++ c :: body
  end.

Definition digits (a : str) : Prop := a <> [] /\ all is_digit a.

Definition gap (sp : str) : Prop := sp <> [] /\ all is_inline sp.

(** The part of a line behind its leading white space, read as an edge:
    [Hit] when it begins with one (digits, white space, the arrow, white
    space, digits, a semicolon), [Cut] when the line ends inside one,
    behind the first number or behind the arrow, white space apart, and
    [Miss] in every other case. *)
Inductive scan :=
| Miss
| Cut
| Hit (from sp1 sp2 to tail : str).

Definition edge_scan (t : str) : scan :=
  match takeWhile is_digit t with
  | [] => Miss
  | from =>
      match dropWhile is_space (dropWhile is_digit t) with
      | [] => Cut
      | [_] => Miss
      | x :: y :: r2 =>
          match takeWhile is_space (dropWhile is_digit t) with
          | [] => Miss
          | sp1 =>
              if (45 =? x) && (62 =? y) then
                match dropWhile is_space r2 with
                | [] => Cut
                | r3 =>
                    match takeWhile is_space r2 with
                    | [] => Miss
                    | sp2 =>
                        match takeWhile is_digit r3 with
                        | [] => Miss
                        | to =>
                            match dropWhile is_digit r3 with
                            | z :: tail =>
                                if 59 =? z then Hit from sp1 sp2 to tail
                                else Miss
                            | [] => Miss
                            end
                        end
                    end
                end
              else Miss
          end
      end
  end.

(** No part of a line holds a line terminator; an other line is not a
    comment, and what stands behind its white space neither begins with an
    edge nor is the beginning of one that the end of the line cuts. *)
Definition wf_line (l : line) : Prop :=
  match l with
  | Blank ws => all is_inline ws
  | Comment body => all is_dot body
  | Edge ws from sp1 sp2 to tail =>
      all is_inline ws /\ digits from /\ gap sp1 /\ gap sp2 /\ digits to
      /\ all is_dot tail
  | Other ws c body =>
      all is_inline ws /\ is_space c = false /\ edge_scan (c :: body) = Miss
      /\ all is_dot body /\ starts_with_slashes (ws ++ c :: body) = false
  end.

(** A line that ends inside an edge: it holds a number alone, or a
    number, white space and the arrow alone, white space apart. *)
Definition cut (t : str) : bool :=
  match edge_scan (dropWhile is_space t) with
  | Cut => true
  | _ => false
  end.

(** The lines of the texts considered: no line terminator, and no end
    inside an edge. *)
Definition whole (t : str) : Prop := all is_dot t /\ cut t = false.

(** The line that a text is. *)
Definition classify (t : str) : line :=
  if starts_with_slashes t then Comment (skipn 2 t)
  else
    match dropWhile is_space t with
    | [] => Blank t
    | c :: body =>
        match edge_scan (c :: body) with
        | Hit from sp1 sp2 to tail =>
            Edge (takeWhile is_space t) from sp1 sp2 to tail
        | _ => Other (takeWhile is_space t) c body
        end
    end.

(** A text from its lines, each ended by a line feed. *)
Definition render (texts : list str) : str :=
  flat_map (fun t => t ++ [newline]) texts.

(** What becomes of a line: an edge is rewritten behind its own leading
    white space, a comment and a blank line disappear. *)
Definition rewritten (m : OMap.t str) (l : line) : list str :=
  match l with
  | Blank _ => []
  | Comment _ => []
  | Edge ws from _ _ to tail => [quoted_edge m ws from to ++ tail]
  | Other ws c body => [ws ++ c :: body]
  end.

Definition output (m : OMap.t str) (ls : list line) : str :=
  render (flat_map (rewritten m) ls).

(** No label of the map holds a line terminator. *)
Definition inline_labels (m : OMap.t str) : Prop :=
  Forall (fun kv => all is_dot (snd kv)) m.

(** The line after the first [replace]. *)
Definition text1 (m : OMap.t str) (l : line) : str :=
  match l with
  | Edge ws from _ _ to tail => quoted_edge m ws from to ++ tail
  | _ => line_text l
  end.

(** What the second [replace] leaves of a line. *)
Definition strip (t : str) : str :=
  if starts_with_slashes t then [] else t.

Definition nonblank (t : str) : bool := negb (forallb is_space t).

(** What stands for an edge behind the leading white space. *)
Definition quoted_part (m : OMap.t str) (from to : str) : str :=
  [dquote] ++ label_or_id m from ++ litq "' -> '" ++ label_or_id m to
  ++ litq "';".

End Lines.

(** ** Trees and their lines *)

Module SerializerSpec.
Import Regex Words Serializer.
Local Open Scope N_scope.

(** A type in which no double quote is followed by a closing bracket. *)
Definition no_quote_bracket (type : str) : Prop :=
  forall a b, type <> a ++ dquote :: 93 :: b.

(** The type as an escaping serializer would write it: a backslash before
    every double quote and every backslash. *)
Fixpoint escaped (type : str) : str :=
  match type with
  | [] => []
  | c :: t =>
      if (c =? dquote) || (c =? 92) then 92 :: c :: escaped t
      else c :: escaped t
  end.

Definition size (t : tree) : nat := length (preorder t).

(** What [addNode] does to the state: the counter advances by the number
    of nodes, lines are appended, and among them is the line of every
    node, with the next free ids in the order of the visit and the type
    as it is. *)
Definition addNode_ok (t : tree) : Prop :=
  forall k ls,
  exists L,
    addNode t (k, ls) = (lit "n" ++ decimal k, ((k + size t)%nat, ls ++ L))
    /\ forall i type,
         nth_error (preorder t) i = Some type ->
         In (node_line (lit "n" ++ decimal (k + i)) type) L.

(** The same for [nodeToDot]. *)
Definition nodeToDot_ok (t : tree) : Prop :=
  forall parentId k ls,
  exists L,
    nodeToDot t parentId (k, ls) = ((k + size t)%nat, ls ++ L)
    /\ forall i type,
         nth_error (preorder t) i = Some type ->
         In (lit "  " ++ node_line (decimal (k + i)) type) L.

(** What follows the label in the node pattern. *)
Definition label_end : regex :=
  [Chr dquote; Chr 93; Cls is_space Star false; Cls (N.eqb 59) Opt false].

End SerializerSpec.

(** ** The graph model *)

Module GraphSpec.
Import Regex Viewer.

Definition closed (es : list (str * str)) (m : OMap.t str) : Prop :=
  Forall (fun e => In (fst e) (map fst m) /\ In (snd e) (map fst m)) es.

(** Labels: an entry is a declaration, or an id standing for itself. *)
Definition labelled (decls m : OMap.t str) : Prop :=
  NoDup (map fst m)
  /\ (forall k, In k (map fst decls) -> In k (map fst m))
  /\ Forall (fun n => OMap.get (fst n) decls = Some (snd n)
                      \/ (OMap.get (fst n) decls = None /\ snd n = fst n)) m.

(** The quoted dialect. *)
Definition closed_set (es : list (str * str)) (s : list str) : Prop :=
  Forall (fun e => In (fst e) s /\ In (snd e) s) es.

(** What the text declares for an id: nothing in the quoted dialect. *)
Definition declared_label (text id : str) : option str :=
  if quotedMatch text then None else OMap.get id (declarations text).

End GraphSpec.

(** ** The candidate locations *)

Module OverlaySpec.
Import Viewer.

(** The candidates that a run of the loop started with [tried] still asks
    for when every request fails. *)
Fixpoint fresh (tried cands : list str) : list str :=
  match cands with
  | [] => []
  | url :: rest =>
      if OMap.includes url tried then fresh tried rest
      else url :: fresh (tried ++ [url]) rest
  end.

Definition fails (fetch : str -> response) (url : str) : Prop :=
  forall text, fetch url <> OkText text.

End OverlaySpec.

(** ** The record set of the side file *)

Module SideFileSpec.
Import Converter.

(** A cell of the record set: two indices and the opaque values. *)
Definition cell_json (c : Z * Z * json) : json :=
  let '(src, dest, values) := c in
  JObj [(lit "src", JNum src); (lit "dest", JNum dest); (lit "values", values)].

(** The name at an index, when the index is one of the array. *)
Definition name_at (names : list str) (i : Z) : option json :=
  if (0 <=? i)%Z then option_map JStr (nth_error names (Z.to_nat i)) else None.

(** The cell written for it: the indices are replaced by the names found
    there (a property is missing when the index is out of range). *)
Definition converted_cell (names : list str) (c : Z * Z * json) : json :=
  let '(src, dest, values) := c in
  JObj (field "src" (name_at names src) ++ field "dest" (name_at names dest)
        ++ [(lit "values", values)]).

(** The cells of a record set. *)
Definition cells_of (j : json) : option json :=
  match j with
  | JObj fields => OMap.get (lit "cells") fields
  | _ => None
  end.

(** The paths [convertDotIds] derives from [dotPath]. *)
Definition converted_path (rt : runtime) (dotPath : str) (ext : string) : str :=
  path_join rt (path_dirname rt dotPath)
    (path_basename_ext rt dotPath (lit ".dot") ++ lit ext).

(** The text written to the converted file, the files after that, and the
    console up to there. *)
Definition files_with (files : str -> option str) (path content : str)
  : str -> option str :=
  fun p => if str_eqb p path then Some content else files p.

Definition dot_log (rt : runtime) (dotPath raw : str) : list log_entry :=
  [LogDotPath dotPath; LogRawDot (replaceAll_crlf raw);
   LogIdToLabel (idToLabel_of (replaceAll_crlf raw));
   LogDotConverted (converted_path rt dotPath ".converted.dot")].

End SideFileSpec.

(** ** Sample inputs *)

Module Samples.
Import Converter Serializer Viewer Lines SideFileSpec.
Local Open Scope N_scope.

Definition helpers : str := lit "util/helpers.py".

Definition helpers_enc : str := lit "util%2Fhelpers.py".

Definition nothing_served (url : str) : response := NotOk 404.

Definition only_plain_dot (url : str) : response :=
  if str_eqb url (lit "/dot/util%2Fhelpers.py.dot")
  then OkText (lit "digraph G {}")
  else NetworkError.

Definition displaying : popup :=
  {| popupDot := Some (lit "digraph G {}");
     popupTitle := Some (lit "a.py");
     popupError := None |}.

Definition no_array_prop (arr : list str) (k : json) : option json := None.

Definition sample_values : json := JObj [(lit "Call", JNum 2)].

Definition sample : json :=
  JObj [(lit "schemaVersion", JStr (lit "1.0"));
        (lit "variables", JArr [JStr (lit "/a/b/x.py"); JStr (lit "/a/c/y.py")]);
        (lit "cells", JArr [cell_json (0%Z, 1%Z, sample_values)])].

Definition sample_converted : json :=
  JObj [(lit "schemaVersion", JStr (lit "1.0"));
        (lit "variables", JArr [JStr (lit "x.py"); JStr (lit "y.py")]);
        (lit "cells",
         JArr [JObj [(lit "src", JStr (lit "x.py"));
                     (lit "dest", JStr (lit "y.py"));
                     (lit "values", sample_values)]])].

Definition two_quoted : str := litq "'a.py' -> 'b.py';".

Definition main_lines : list line :=
  [Comment (lit " 7:/a/b/main.py");
   Other [] 100 (lit "igraph");
   Other [] 123 [];
   Edge [9] (lit "7") (lit " ") (lit " ") (lit "9") [];
   Blank (lit "  ");
   Other [] 125 []].

Definition main_text : str :=
  join [newline]
    [lit "// 7:/a/b/main.py"; lit "digraph"; lit "{"; 9 :: lit "7 -> 9;";
     lit "  "; lit "}"; []].

Definition main_converted : str :=
  join [newline]
    [lit "digraph"; lit "{"; 9 :: litq "'main.py' -> '9';"; lit "}"; []].

(** A map that holds the empty string for 7: the lookup succeeds and the
    id is written all the same. *)
Definition empty_label : OMap.t str := [(lit "7", [])].

(** A comment cut after its slashes: the digits stand on the next line. *)
Definition cut_comment : str :=
  join [newline] [lit "//"; lit "7:/a/x.py"; []].

Definition bracket_type : str := litq "a']b".

Definition bracket_tree : tree := Node bracket_type [].

Definition sample_tree : tree :=
  Node (lit "module")
    [Node (lit "expression_statement") [Node (litq "'") []];
     Node (lit "comment") []].

End Samples.

Module ElementSpec.
Import Viewer.

(** The ids of the node elements of a list, and the ids of its edge
    elements, in order. *)
Definition node_ids (els : list element) : list str :=
  flat_map (fun e => match e with
                     | NodeElement id _ _ => [id]
                     | EdgeElement _ _ _ => []
                     end) els.

Definition edge_ids (els : list element) : list str :=
  flat_map (fun e => match e with
                     | NodeElement _ _ _ => []
                     | EdgeElement id _ _ => [id]
                     end) els.

End ElementSpec.

Module LabelSpec.
Import Words.

(** An entry of the id to label map as the scan leaves it: the id is a
    non-empty run of digits, the label holds no slash and no line
    terminator. *)
Definition clean_entry (kv : str * str) : Prop :=
  fst kv <> [] /\ all is_digit (fst kv)
  /\ ~ In Path.slash (snd kv) /\ all is_dot (snd kv).

End LabelSpec.

Module SideFileShape.
Import Converter.

Definition is_string (j : json) : bool :=
  match j with JStr _ => true | _ => false end.

Definition not_null (j : json) : bool :=
  match j with JNull => false | _ => true end.

(** [cell.src] and [cell.dest]: [None] is [undefined]. *)
Definition cell_key (cell : json) (key : string) : option json :=
  match cell with
  | JObj fields => OMap.get (lit key) fields
  | _ => None
  end.

Definition key_fails (k : option json) : bool :=
  match k with
  | Some v => key_throws v
  | None => false
  end.

(** A cell the conversion accepts: it is not [null], and neither its
    [src] nor its [dest] is an object that has a property [toString] of
    its own, or an array that holds such an object (inside arrays
    too). *)
Definition good_cell (cell : json) : bool :=
  not_null cell
  && negb (key_fails (cell_key cell "src"))
  && negb (key_fails (cell_key cell "dest")).

(** An object whose [variables] is an array of strings and whose [cells]
    is an array of cells that satisfy [ok]. *)
Definition record_set (ok : json -> bool) (parsed : json) : bool :=
  match parsed with
  | JObj fields =>
      match OMap.get (lit "variables") fields, OMap.get (lit "cells") fields with
      | Some (JArr vs), Some (JArr cs) =>
          forallb is_string vs && forallb ok cs
      | _, _ => false
      end
  | _ => false
  end.

(** The documents the conversion accepts. *)
Definition convertible (parsed : json) : bool := record_set good_cell parsed.

End SideFileShape.

Module RequestSpec.
Import Viewer.

(** The five locations that differ for every id. *)
Definition distinct_candidates (enc : str) : list str :=
  [ lit "/dot/" ++ enc ++ lit ".tree.dot";
    lit "/dot/" ++ enc ++ lit ".dot";
    lit "/dot/" ++ enc ++ lit ".tree.dot.txt";
    lit "/" ++ enc ++ lit ".tree.dot";
    lit "/" ++ enc ++ lit ".dot" ].

End RequestSpec.

Module ScanSpec.
Import Regex.

(** A regular expression without anchor. *)
Definition anchor_free (r : regex) : Prop :=
  Forall (fun i => match i with Cls _ _ _ => True | _ => False end) r.

(** The classes of a regular expression accept the character. *)
Definition accepted (r : regex) (c : char) : Prop :=
  Exists (fun i => match i with Cls p _ _ => p c = true | _ => False end) r.

End ScanSpec.

(** ** Graph texts made of node lines and edge lines *)

Module TreeGraph.
Import Words SerializerSpec.
Import Regex Serializer Viewer.

Inductive dline :=
| NodeL (id type : str)
| EdgeL (source target : str).

Definition dline_text (indent : str) (l : dline) : str :=
  match l with
  | NodeL id type => indent ++ node_line id type
  | EdgeL source target => indent ++ edge_line source target
  end.

(** A graph text: the opening line, the lines, the closing brace. *)
Definition graph_text (header indent : str) (ls : list dline) : str :=
  join [newline] (header :: map (dline_text indent) ls ++ [lit "}"]).

Definition node_entry (l : dline) : list (str * str) :=
  match l with
  | NodeL id type => [(id, type)]
  | EdgeL _ _ => []
  end.

Definition edge_entry (l : dline) : list (str * str) :=
  match l with
  | NodeL _ _ => []
  | EdgeL source target => [(source, target)]
  end.

(** What the two loops of the parser capture on a line. *)
Definition node_caps (l : dline) : list (list str) :=
  match l with
  | NodeL id type => [[id; type]]
  | EdgeL _ _ => []
  end.

Definition edge_caps (l : dline) : list (list str) :=
  match l with
  | NodeL _ _ => []
  | EdgeL source target => [[source; target]]
  end.

(** A type the parser reads back: no line terminator, no double quote
    followed by a closing bracket, and nothing in it that reads as an edge
    between two ids. *)
Definition plain_type (type : str) : Prop :=
  all is_dot type /\ no_quote_bracket type /\ test edgeRegex type = false.

(** The same, as a test. *)
Fixpoint quote_bracket (type : str) : bool :=
  match type with
  | c :: t =>
      match t with
      | d :: _ => (N.eqb c dquote && N.eqb d 93) || quote_bracket t
      | [] => false
      end
  | [] => false
  end.

Definition plain_typeb (type : str) : bool :=
  forallb is_dot type && negb (quote_bracket type)
  && negb (test edgeRegex type).

Definition word (id : str) : Prop := id <> [] /\ all is_word id.

Definition wf_dline (l : dline) : Prop :=
  match l with
  | NodeL id type => word id /\ plain_type type
  | EdgeL source target => word source /\ word target
  end.

(** Both patterns of the parser begin with an id, white space and a
    character [x] that is neither of an id nor white space. *)
Definition head_pattern (x : char) (r' : regex) : regex :=
  Cls is_word Plus true :: Cls is_space Star false :: Chr x :: r'.

(** The first character of [s] behind its white space is not [x]. *)
Definition next_is_not (x : char) (s : str) : Prop :=
  match dropWhile is_space s with
  | d :: _ => N.eqb x d = false
  | [] => True
  end.

(** The node pattern and the edge pattern behind that character. *)
Definition node_tail : regex :=
  Lit "label" ++ [Cls is_space Star false] ++ Lit "="
  ++ [Cls is_space Star false]
  ++ [Chr dquote; Cls is_dot StarLazy true; Chr dquote] ++ Lit "]"
  ++ [Cls is_space Star false; Cls (N.eqb 59) Opt false].

Definition edge_tail : regex :=
  [Chr 62; Cls is_space Star false; Cls is_word Plus true;
   Cls is_space Star false; Cls (N.eqb 59) Opt false].

(** The lines behind the opening line. *)
Fixpoint lines_text (indent : str) (ls : list dline) : str :=
  match ls with
  | [] => lit "}"
  | l :: ls' => dline_text indent l ++ newline :: lines_text indent ls'
  end.

End TreeGraph.

(** ** The lines and the model of a tree *)

Module TreeNumbering.
Import SerializerSpec TreeGraph.
Import Serializer Viewer.

(** The values of [f] on the children of a node, the first child being
    numbered [j] and each next one after the nodes of its elder
    brothers. *)
Definition over_children (A : Type) (f : tree -> nat -> list A)
  : list tree -> nat -> list A :=
  fix go (cs : list tree) (j : nat) : list A :=
    match cs with
    | [] => []
    | c :: cs' => f c j ++ go cs' (j + size c)%nat
    end.

(** The nodes of a tree as the parser reads them back: numbered from [k]
    in the order of the first visit, each with its type as label. *)
Definition numbered (pre : str) (k : nat) (types : list str)
  : list (str * str) :=
  mapi_from (fun type i => (pre ++ decimal i, type)) k types.

(** The lines of [treeToDot] for a tree whose root is numbered [k]: the
    line of the node, then for every child its lines and the edge to it. *)
Fixpoint tree_dlines (t : tree) (k : nat) : list dline :=
  match t with
  | Node type children =>
      NodeL (lit "n" ++ decimal k) type
      :: over_children dline
           (fun c j =>
              tree_dlines c j
              ++ [EdgeL (lit "n" ++ decimal k) (lit "n" ++ decimal j)])
           children (S k)
  end.

Fixpoint tree_edges (t : tree) (k : nat) : list (str * str) :=
  match t with
  | Node type children =>
      over_children (str * str)
        (fun c j =>
           tree_edges c j ++ [(lit "n" ++ decimal k, lit "n" ++ decimal j)])
        children (S k)
  end.

(** The argument [parentId] of [nodeToDot]. *)
Definition parent_id (parent : option nat) : Z :=
  match parent with
  | Some p => Z.of_nat p
  | None => (-1)%Z
  end.

Definition parent_line (parent : option nat) (k : nat) : list dline :=
  match parent with
  | Some p => [EdgeL (decimal p) (decimal k)]
  | None => []
  end.

Definition parent_edge (parent : option nat) (k : nat) : list (str * str) :=
  match parent with
  | Some p => [(decimal p, decimal k)]
  | None => []
  end.

(** The lines of [nodeToDot]: the line of the node, the edge from its
    parent, then the lines of the children. *)
Fixpoint ast_dlines (t : tree) (parent : option nat) (k : nat) : list dline :=
  match t with
  | Node type children =>
      NodeL (decimal k) type
      :: parent_line parent k
      ++ over_children dline (fun c j => ast_dlines c (Some k) j)
           children (S k)
  end.

Fixpoint ast_edges (t : tree) (parent : option nat) (k : nat)
  : list (str * str) :=
  match t with
  | Node type children =>
      parent_edge parent k
      ++ over_children (str * str) (fun c j => ast_edges c (Some k) j)
           children (S k)
  end.

(** A line whose ids are numbers of the range, and whose type, if any,
    satisfies [P]. *)
Definition numbered_line (pre : str) (P : str -> Prop) (lo hi : nat)
  (l : dline) : Prop :=
  match l with
  | NodeL id type =>
      (exists i, (lo <= i < hi)%nat /\ id = pre ++ decimal i) /\ P type
  | EdgeL a b =>
      exists i j, (lo <= i < hi)%nat /\ (lo <= j < hi)%nat
                  /\ a = pre ++ decimal i /\ b = pre ++ decimal j
  end.

End TreeNumbering.

Module ConvertedLines.
Import Converter Lines.

(** What the rewriter makes of a line, as a line again: an edge becomes an
    other line that begins with a double quote. *)
Definition converted_line (m : OMap.t str) (l : line) : list line :=
  match l with
  | Blank _ => []
  | Comment _ => []
  | Edge ws from _ _ to tail =>
      [Other ws dquote
         (label_or_id m from ++ litq "' -> '" ++ label_or_id m to
          ++ litq "';" ++ tail)]
  | Other ws c body => [Other ws c body]
  end.

Definition is_other (l : line) : Prop :=
  match l with
  | Other _ _ _ => True
  | _ => False
  end.

End ConvertedLines.

(** ** From the converted text to the graph shown *)

Module PipelineSpec.
Import Words.
Import Converter Viewer Lines.

(** The edge the rewriter writes for a line. *)
Definition edge_pair (m : OMap.t str) (l : line) : list (str * str) :=
  match l with
  | Edge _ from _ _ to _ => [(label_or_id m from, label_or_id m to)]
  | _ => []
  end.

(** The set of the ends of a list of edges, in the order of their first
    appearance. *)
Definition endpoints (es : list (str * str)) : list str :=
  fold_left (fun s e => OMap.add (snd e) (OMap.add (fst e) s)) es [].

(** A line that is no edge holds no quoted edge. *)
Definition quiet (l : line) : Prop :=
  match l with
  | Other ws c body => Regex.test quotedRegex (ws ++ c :: body) = false
  | _ => True
  end.

(** No label of the map holds a double quote. *)
Definition quote_free (m : OMap.t str) : Prop :=
  Forall (fun kv => all is_not_dquote (snd kv)) m.

End PipelineSpec.

Module CopySpec.
Import Wasm.
Local Open Scope Z_scope.

(** What a copy of [num] bytes from [src] to [dest] leaves, [r] being the
    result and the memory afterwards: the bytes that stood at [src] now
    stand at [dest], and nothing else has changed. *)
Definition copied (mem : bytes) (dest src num : Z) (r : Z * bytes) : Prop :=
  fst r = dest
  /\ length (snd r) = length mem
  /\ (forall i, 0 <= i < num ->
                get_byte (snd r) (dest + i) = get_byte mem (src + i))
  /\ (forall k, k < dest \/ dest + num <= k ->
                get_byte (snd r) k = get_byte mem k).

End CopySpec.

(** ** The two texts written for one syntax tree *)

Module Renaming.

(** A node and an edge with [pre] put before every id. *)
Definition named (pre : str) (n : str * str) : str * str :=
  (pre ++ fst n, snd n).

Definition linked (pre : str) (e : str * str) : str * str :=
  (pre ++ fst e, pre ++ snd e).

End Renaming.

Module CliSpec.
Import Js Cli.

(** Two outsides with the same file listing, parser, paths and console. *)
Definition same_parsing {W E number : Type} (a b : steps W E number) : Prop :=
  readdir a = readdir b
  /\ parseFileWithTreeSitter a = parseFileWithTreeSitter b
  /\ path_join a = path_join b
  /\ console a = console b.

(** The name of the converted graph file in [outputDir]. *)
Definition served_path {W E number : Type} (st : steps W E number)
  (outputDir : str) : str :=
  path_join st outputDir (lit "depends-output-file.converted.dot").

(** The third argument. *)
Definition output_dir (args : list str) : str := nth 2 args [].

(** An outside where every step succeeds at once and whose state is the
    list of what was printed and served. *)
Definition quiet_steps : steps (list str) unit N := {|
  runDependsJar := fun _ _ _ w => (inl tt, w);
  access := fun _ w => (inl tt, w);
  path_join := fun a b => a ++ lit "/" ++ b;
  convertDotIds := fun _ w => (inl tt, w);
  renderDependsGraphs := fun _ w => (inl tt, w);
  readdir := fun _ w => (inl [lit "a.py"; lit "b.txt"], w);
  parseFileWithTreeSitter := fun f _ w => (inl tt, w ++ [f]);
  serveVisualizer := fun _ p w => (inl tt, w ++ [p]);
  console := fun _ w => w;
  parseInt10 := fun _ => 4000%N;
  DEFAULT_PORT := 3000%N
|}.

End CliSpec.

Set Implicit Arguments.

(* ================================================================== *)
(** * Basic facts *)

Import Words Shapes CommentParse RewriteParse Lines SerializerSpec.
Import GraphSpec OverlaySpec SideFileSpec Samples.

Lemma str_eqb_eq (a b : str) : str_eqb a b = true <-> a = b.
Proof.
  unfold str_eqb. destruct (list_eq_dec N.eq_dec a b); split; congruence.
Qed.

Lemma str_eqb_refl (a : str) : str_eqb a a = true.
Proof. now apply str_eqb_eq. Qed.

Lemma str_eqb_neq (a b : str) : str_eqb a b = false <-> a <> b.
Proof.
  unfold str_eqb. destruct (list_eq_dec N.eq_dec a b); split; congruence.
Qed.

Lemma str_eqb_sym (a b : str) : str_eqb a b = str_eqb b a.
Proof.
  destruct (str_eqb a b) eqn:E.
  - apply str_eqb_eq in E. subst. symmetry. apply str_eqb_refl.
  - apply str_eqb_neq in E. symmetry. apply str_eqb_neq. congruence.
Qed.

(** ** The ordered map *)

Lemma get_set_same (V : Type) (k : str) (v : V) (m : OMap.t V) :
  OMap.get k (OMap.set k v m) = Some v.
Proof.
  induction m as [|[k' v'] m IH]; simpl.
  - now rewrite str_eqb_refl.
  - destruct (str_eqb k k') eqn:E; simpl; rewrite ?str_eqb_refl, ?E; auto.
Qed.

Lemma get_set_other (V : Type) (k k0 : str) (v : V) (m : OMap.t V) :
  k0 <> k -> OMap.get k0 (OMap.set k v m) = OMap.get k0 m.
Proof.
  intros Hne. induction m as [|[k' v'] m IH]; simpl.
  - apply str_eqb_neq in Hne. now rewrite Hne.
  - destruct (str_eqb k k') eqn:E; simpl.
    + apply str_eqb_eq in E. subst k'.
      apply str_eqb_neq in Hne. now rewrite Hne.
    + destruct (str_eqb k0 k'); auto.
Qed.

Lemma get_In (V : Type) (k : str) (v : V) (m : OMap.t V) :
  OMap.get k m = Some v -> In (k, v) m.
Proof.
  induction m as [|[k' v'] m IH]; simpl; [discriminate|].
  destruct (str_eqb k k') eqn:E.
  - apply str_eqb_eq in E. intros [= ->]. subst. now left.
  - intros H. right. auto.
Qed.

Lemma get_Some_keys (V : Type) (k : str) (m : OMap.t V) :
  OMap.has k m = true <-> In k (map fst m).
Proof.
  unfold OMap.has. induction m as [|[k' v'] m IH]; simpl.
  - split; [discriminate | tauto].
  - destruct (str_eqb k k') eqn:E.
    + apply str_eqb_eq in E. subst. split; auto.
    + apply str_eqb_neq in E. rewrite IH. split; [tauto|].
      intros [H|H]; [congruence | exact H].
Qed.

Lemma keys_set (V : Type) (k k0 : str) (v : V) (m : OMap.t V) :
  In k0 (map fst (OMap.set k v m)) <-> k0 = k \/ In k0 (map fst m).
Proof.
  induction m as [|[k' v'] m IH]; simpl.
  - intuition congruence.
  - destruct (str_eqb k k') eqn:E; simpl.
    + apply str_eqb_eq in E. subst. intuition congruence.
    + rewrite IH. intuition congruence.
Qed.

(** Setting a key changes no entry of another key. *)
Lemma In_set_other (V : Type) (k k0 : str) (v v0 : V) (m : OMap.t V) :
  k0 <> k -> In (k0, v0) (OMap.set k v m) <-> In (k0, v0) m.
Proof.
  intros Hne. induction m as [|[k' v'] m IH]; simpl.
  - intuition congruence.
  - destruct (str_eqb k k') eqn:E; simpl.
    + apply str_eqb_eq in E. subst. intuition congruence.
    + rewrite IH. tauto.
Qed.

Lemma In_set_same (V : Type) (k : str) (v v0 : V) (m : OMap.t V) :
  NoDup (map fst m) -> In (k, v0) (OMap.set k v m) -> v0 = v.
Proof.
  induction m as [|[k' v'] m IH]; simpl; intros Hnd H.
  - destruct H as [[= ->]|[]]. reflexivity.
  - inversion Hnd as [|? ? Hni Hnd']; subst.
    destruct (str_eqb k k') eqn:E.
    + apply str_eqb_eq in E. subst k'.
      destruct H as [[= ->]|H]; [reflexivity|].
      exfalso. apply Hni. now apply (in_map fst) in H.
    + apply str_eqb_neq in E.
      destruct H as [[= ? ?]|H]; [congruence | auto].
Qed.

Lemma NoDup_keys_set (V : Type) (k : str) (v : V) (m : OMap.t V) :
  NoDup (map fst m) -> NoDup (map fst (OMap.set k v m)).
Proof.
  induction m as [|[k' v'] m IH]; simpl; intros Hnd.
  - constructor; [tauto | constructor].
  - inversion Hnd as [|? ? Hni Hnd']; subst.
    destruct (str_eqb k k') eqn:E; simpl.
    + apply str_eqb_eq in E. subst. now constructor.
    + constructor; auto. rewrite keys_set.
      apply str_eqb_neq in E. intuition congruence.
Qed.

Lemma NoDup_add (k : str) (s : list str) : NoDup s -> NoDup (OMap.add k s).
Proof.
  induction s as [|k' s IH]; simpl; intros Hnd.
  - constructor; [tauto | constructor].
  - destruct (str_eqb k k') eqn:E; [exact Hnd|].
    inversion Hnd as [|? ? Hni Hnd']; subst. constructor; auto.
    intros Hin. apply Hni. clear - Hin E.
    induction s as [|x s IH]; simpl in *.
    + destruct Hin as [->|[]]. now rewrite str_eqb_refl in E.
    + destruct (str_eqb k x) eqn:Ex; simpl in Hin; [exact Hin|].
      destruct Hin as [->|Hin]; [now left | right; auto].
Qed.

Lemma In_add (k k0 : str) (s : list str) :
  In k0 (OMap.add k s) <-> k0 = k \/ In k0 s.
Proof.
  induction s as [|k' s IH]; simpl.
  - intuition congruence.
  - destruct (str_eqb k k') eqn:E; simpl.
    + apply str_eqb_eq in E. subst. intuition congruence.
    + rewrite IH. intuition congruence.
Qed.

(* ================================================================== *)
(** * The graph model of the viewer *)

Module GraphFacts.
Import Regex Viewer.


Lemma keys_ensure (x k : str) (m : OMap.t str) :
  In k (map fst (ensure_node x m)) <-> k = x \/ In k (map fst m).
Proof.
  unfold ensure_node. destruct (OMap.has x m) eqn:E.
  - apply get_Some_keys in E. intuition congruence.
  - apply keys_set.
Qed.

Lemma closed_mono (es : list (str * str)) (m m' : OMap.t str) :
  (forall k, In k (map fst m) -> In k (map fst m')) ->
  closed es m -> closed es m'.
Proof.
  intros Hsub H. unfold closed in *. rewrite Forall_forall in *.
  intros e He. destruct (H e He). split; auto.
Qed.

Lemma record_edge_closed (acc : list (str * str) * OMap.t str) (caps : list str) :
  closed (fst acc) (snd acc) ->
  closed (fst (record_edge acc caps)) (snd (record_edge acc caps)).
Proof.
  intros H. unfold record_edge.
  destruct caps as [|src [|dst [|? ?]]]; auto. simpl.
  unfold closed. apply Forall_app. split.
  - apply closed_mono with (m := snd acc); auto.
    intros k Hk. rewrite !keys_ensure. auto.
  - constructor; [|constructor]. simpl. rewrite !keys_ensure. auto.
Qed.

Lemma fold_record_edge_closed (ms : list (list str)) (acc : list (str * str) * OMap.t str) :
  closed (fst acc) (snd acc) ->
  closed (fst (fold_left record_edge ms acc)) (snd (fold_left record_edge ms acc)).
Proof.
  revert acc. induction ms as [|caps ms IH]; simpl; intros acc H; auto.
  apply IH. now apply record_edge_closed.
Qed.


Lemma get_None_keys (V : Type) (k : str) (m : OMap.t V) :
  OMap.get k m = None <-> ~ In k (map fst m).
Proof.
  rewrite <- get_Some_keys. unfold OMap.has.
  destruct (OMap.get k m); split; intros; congruence.
Qed.

Lemma In_get (V : Type) (k : str) (v : V) (m : OMap.t V) :
  NoDup (map fst m) -> In (k, v) m -> OMap.get k m = Some v.
Proof.
  induction m as [|[k' v'] m IH]; simpl; intros Hnd H; [tauto|].
  inversion Hnd as [|? ? Hni Hnd']; subst.
  destruct (str_eqb k k') eqn:E.
  - apply str_eqb_eq in E. subst k'.
    destruct H as [[= ->]|H]; [reflexivity|].
    exfalso. apply Hni. now apply (in_map fst) in H.
  - apply str_eqb_neq in E. destruct H as [[= ? ?]|H]; [congruence | auto].
Qed.

Lemma fold_declare_NoDup (ms : list (list str)) (m : OMap.t str) :
  NoDup (map fst m) -> NoDup (map fst (fold_left declare_node ms m)).
Proof.
  revert m. induction ms as [|caps ms IH]; simpl; intros m H; auto.
  apply IH. unfold declare_node.
  destruct caps as [|id [|label [|? ?]]]; auto. now apply NoDup_keys_set.
Qed.

Lemma declarations_NoDup (dot : str) : NoDup (map fst (declarations dot)).
Proof. apply fold_declare_NoDup. constructor. Qed.

Lemma labelled_start (decls : OMap.t str) :
  NoDup (map fst decls) -> labelled decls decls.
Proof.
  intros Hnd. repeat split; auto.
  apply Forall_forall. intros [k v] Hin. left. simpl. now apply In_get.
Qed.

Lemma labelled_ensure (decls m : OMap.t str) (x : str) :
  labelled decls m -> labelled decls (ensure_node x m).
Proof.
  intros (Hnd & Hsub & Hall). unfold ensure_node.
  destruct (OMap.has x m) eqn:E; [repeat split; auto|].
  assert (Hx : ~ In x (map fst m)).
  { rewrite <- get_Some_keys. congruence. }
  repeat split.
  - now apply NoDup_keys_set.
  - intros k Hk. apply keys_set. right. auto.
  - rewrite Forall_forall in *. intros [k v] Hin.
    destruct (list_eq_dec N.eq_dec k x) as [->|Hne].
    + apply In_set_same in Hin; auto. subst v. right. split; auto.
      apply get_None_keys. intros Hd. apply Hx. auto.
    + apply In_set_other in Hin; auto.
Qed.

Lemma fold_record_edge_labelled (decls : OMap.t str) (ms : list (list str))
  (acc : list (str * str) * OMap.t str) :
  labelled decls (snd acc) ->
  labelled decls (snd (fold_left record_edge ms acc)).
Proof.
  revert acc. induction ms as [|caps ms IH]; simpl; intros acc H; auto.
  apply IH. unfold record_edge.
  destruct caps as [|src [|dst [|? ?]]]; auto. simpl.
  now apply labelled_ensure, labelled_ensure.
Qed.


Lemma quoted_line_closed (acc : list (str * str) * list str) (line : str) :
  closed_set (fst acc) (snd acc) ->
  closed_set (fst (quoted_line acc line)) (snd (quoted_line acc line)).
Proof.
  intros H. unfold quoted_line.
  destruct (search quotedRegex None line) as [[|a [|b [|? ?]]]|]; auto.
  simpl. unfold closed_set in *. apply Forall_app. split.
  - rewrite Forall_forall in *. intros e He. destruct (H e He).
    rewrite !In_add. auto.
  - constructor; [|constructor]. simpl. rewrite !In_add. auto.
Qed.

Lemma fold_quoted_line_closed (ls : list str) (acc : list (str * str) * list str) :
  closed_set (fst acc) (snd acc) ->
  closed_set (fst (fold_left quoted_line ls acc)) (snd (fold_left quoted_line ls acc)).
Proof.
  revert acc. induction ls as [|l ls IH]; simpl; intros acc H; auto.
  apply IH. now apply quoted_line_closed.
Qed.


(** C5: in the graph model built from any text, by either dialect, both
    ends of every edge are ids of the node set; and a node is either a
    declared one, with its declared label, or a node without declaration,
    whose label is its own id. *)
Theorem graph_of_text_closed (text : str) :
  Forall (fun e => In (fst e) (map fst (nodes (graph_of_text text)))
                   /\ In (snd e) (map fst (nodes (graph_of_text text))))
         (edges (graph_of_text text))
  /\ Forall (fun n => declared_label text (fst n) = Some (snd n)
                      \/ (declared_label text (fst n) = None
                          /\ snd n = fst n))
            (nodes (graph_of_text text)).
Proof.
  unfold graph_of_text, declared_label.
  destruct (quotedMatch text).
  - unfold quoted_graph. simpl. split.
    + pose proof (@fold_quoted_line_closed (split_on newline text) ([], [])
                    (Forall_nil _)) as H.
      unfold closed_set in H. rewrite Forall_forall in *.
      intros e He. destruct (H e He) as [H1 H2].
      rewrite map_map. simpl. rewrite map_id. auto.
    + apply Forall_forall. intros n Hn. apply in_map_iff in Hn.
      destruct Hn as (id & <- & _). right. auto.
  - unfold parseDotToElements. simpl. split.
    + apply (@fold_record_edge_closed _ ([], declarations text)).
      constructor.
    + apply (@fold_record_edge_labelled (declarations text) _
               ([], declarations text)).
      apply labelled_start, declarations_NoDup.
Qed.

End GraphFacts.

(* ================================================================== *)
(** * Secondary-artifact resolution and the overlay *)

Module OverlayFacts.
Import Regex Viewer Spec.


Lemma includes_In (k : str) (s : list str) :
  OMap.includes k s = true <-> In k s.
Proof.
  unfold OMap.includes. rewrite existsb_exists. split.
  - intros (x & Hx & E). apply str_eqb_eq in E. now subst.
  - intros H. exists k. split; auto. apply str_eqb_refl.
Qed.

Lemma includes_app (k : str) (a b : list str) :
  OMap.includes k (a ++ b) = OMap.includes k a || OMap.includes k b.
Proof. apply existsb_app. Qed.

Lemma filter_filter (A : Type) (f g : A -> bool) (l : list A) :
  filter f (filter g l) = filter (fun x => g x && f x) l.
Proof.
  induction l as [|a l IH]; simpl; auto.
  destruct (g a); simpl; [destruct (f a)|]; now rewrite IH.
Qed.

Lemma fresh_dedup (cands tried : list str) :
  fresh tried cands
  = filter (fun y => negb (OMap.includes y tried)) (dedup cands).
Proof.
  revert tried. induction cands as [|x l IH]; intros tried; simpl; auto.
  destruct (OMap.includes x tried) eqn:E; simpl.
  - rewrite IH, filter_filter. apply filter_ext. intros y.
    destruct (str_eqb x y) eqn:Exy; simpl; auto.
    apply str_eqb_eq in Exy. subst. now rewrite E.
  - f_equal. rewrite IH, filter_filter. apply filter_ext. intros y.
    rewrite includes_app. unfold OMap.includes at 2. simpl.
    rewrite (str_eqb_sym y x).
    destruct (str_eqb x y); simpl; rewrite ?orb_false_r, ?orb_true_r; auto.
Qed.

Lemma fresh_nil_dedup (cands : list str) : fresh [] cands = dedup cands.
Proof.
  rewrite fresh_dedup. induction (dedup cands) as [|y l IH]; simpl; auto.
  unfold OMap.includes in *. simpl in *. congruence.
Qed.

Lemma In_fresh (tried cands : list str) (u : str) :
  In u cands -> In u tried \/ In u (fresh tried cands).
Proof.
  revert tried. induction cands as [|x l IH]; simpl; intros tried []; subst.
  - destruct (OMap.includes u tried) eqn:E.
    + left. now apply includes_In.
    + right. now left.
  - destruct (OMap.includes x tried) eqn:E; auto.
    destruct (IH (tried ++ [x]) H) as [Hin|Hin].
    + apply in_app_or in Hin. destruct Hin as [|[<-|[]]]; simpl; auto.
    + simpl; auto.
Qed.

(** Every request fails: all fresh candidates are asked for, in order. *)
Lemma try_candidates_all_fail (fetch : str -> response) (nodeId : str)
  (cands tried : list str) :
  (forall u, In u (fresh tried cands) -> fails fetch u) ->
  try_candidates fetch nodeId cands tried
  = (tried ++ fresh tried cands,
     NoDotFile (not_found_message nodeId (tried ++ fresh tried cands))).
Proof.
  revert tried. induction cands as [|x l IH]; intros tried Hf; simpl.
  - now rewrite app_nil_r.
  - simpl in Hf. destruct (OMap.includes x tried) eqn:E; auto.
    assert (Hx : fails fetch x) by (apply Hf; now left).
    rewrite IH by (intros u Hu; apply Hf; now right).
    rewrite <- app_assoc. simpl.
    destruct (fetch x) eqn:Ex; auto. exfalso. exact (Hx _ Ex).
Qed.

(** The first request that succeeds ends the loop. *)
Lemma try_candidates_first_success (fetch : str -> response) (nodeId : str)
  (cands tried before after : list str) (url text : str) :
  fresh tried cands = before ++ url :: after ->
  (forall u, In u before -> fails fetch u) ->
  fetch url = OkText text ->
  try_candidates fetch nodeId cands tried
  = (tried ++ before ++ [url], Found url text).
Proof.
  revert tried before. induction cands as [|x l IH]; intros tried before Hfr Hb Hok.
  - simpl in Hfr. now destruct before.
  - simpl in *. destruct (OMap.includes x tried) eqn:E; auto.
    destruct before as [|b before]; simpl in Hfr; injection Hfr as -> Hfr.
    + now rewrite Hok.
    + assert (Hx : fails fetch b) by (apply Hb; now left).
      rewrite (IH (tried ++ [b]) before) by (auto; intros; apply Hb; now right).
      rewrite <- app_assoc. simpl.
      destruct (fetch b) eqn:Ex; auto. exfalso. exact (Hx _ Ex).
Qed.

(** C8: for a node id that [encodeURIComponent] accepts, the requests go
    to the candidates in order, each distinct string once.  The first
    retrieval that succeeds ends the attempts and is the result; when none
    succeeds the function fails with the message that lists exactly the
    candidates asked for, in order. *)
Theorem fetchDotForNode_ordered_fallback (fetch : str -> response)
  (nodeId enc : str) :
  Uri.encodeURIComponent nodeId = Some enc ->
  (forall before url after text,
      dedup (candidates enc) = before ++ url :: after ->
      (forall u, In u before -> fails fetch u) ->
      fetch url = OkText text ->
      fetchDotForNode fetch nodeId = (before ++ [url], Found url text))
  /\ ((forall u, In u (candidates enc) -> fails fetch u) ->
      fetchDotForNode fetch nodeId
      = (dedup (candidates enc),
         NoDotFile (not_found_message nodeId (dedup (candidates enc))))).
Proof.
  intros Henc. unfold fetchDotForNode. rewrite Henc. split.
  - intros before url after text Hd Hb Hok.
    rewrite <- fresh_nil_dedup in Hd.
    now rewrite (@try_candidates_first_success fetch nodeId _ [] _ _ _ _ Hd Hb Hok).
  - intros Hall. rewrite try_candidates_all_fail.
    + cbn [app]. now rewrite fresh_nil_dedup.
    + intros u Hu. apply Hall. rewrite fresh_nil_dedup in Hu.
      clear - Hu. induction (candidates enc) as [|x l IH]; simpl in *; auto.
      destruct Hu as [|Hu]; auto. apply filter_In in Hu. tauto.
Qed.

End OverlayFacts.

Module OverlayExamples.
Import Regex Viewer Spec OverlayFacts.


(** The scenario of the specification: no artifact is served for
    [util/helpers.py]; and a second one where the second candidate is. *)
Lemma fetchDotForNode_helpers :
  fetchDotForNode nothing_served helpers
  = ([lit "/dot/util%2Fhelpers.py.tree.dot";
      lit "/dot/util%2Fhelpers.py.dot";
      lit "/dot/util%2Fhelpers.py.tree.dot.txt";
      lit "/util%2Fhelpers.py.tree.dot";
      lit "/util%2Fhelpers.py.dot";
      lit "/dot/util__helpers.py.tree.dot"],
     NoDotFile
       (litq "No DOT file found for 'util/helpers.py'. Tried: "
        ++ lit "/dot/util%2Fhelpers.py.tree.dot, /dot/util%2Fhelpers.py.dot, "
        ++ lit "/dot/util%2Fhelpers.py.tree.dot.txt, "
        ++ lit "/util%2Fhelpers.py.tree.dot, /util%2Fhelpers.py.dot, "
        ++ lit "/dot/util__helpers.py.tree.dot"
        ++ lit ". Put the file in public/dot/ or ensure your server exposes /dot/ path."))
  /\ fetchDotForNode only_plain_dot helpers
     = ([lit "/dot/util%2Fhelpers.py.tree.dot"; lit "/dot/util%2Fhelpers.py.dot"],
        Found (lit "/dot/util%2Fhelpers.py.dot") (lit "digraph G {}")).
Proof.
  split.
  - refine (eq_trans
              (proj2 (@fetchDotForNode_ordered_fallback nothing_served helpers
                        helpers_enc _) _) _).
    + vm_compute. reflexivity.
    + intros u _ text H. discriminate H.
    + vm_compute. reflexivity.
  - refine (proj1 (@fetchDotForNode_ordered_fallback only_plain_dot helpers
                     helpers_enc _)
              [lit "/dot/util%2Fhelpers.py.tree.dot"]
              (lit "/dot/util%2Fhelpers.py.dot")
              _ (lit "digraph G {}") _ _ _).
    + vm_compute. reflexivity.
    + vm_compute. reflexivity.
    + intros u [<-|[]] text H. vm_compute in H. discriminate H.
    + vm_compute. reflexivity.
Defined.

End OverlayExamples.

Module PopupFacts.
Import Viewer.


(** The content shown before a tap is still in the state while the new
    request runs. *)
Lemma tap_begin_keeps_content :
  popupDot (tap_begin displaying (lit "b.py")) = Some (lit "digraph G {}")
  /\ popupDot (tap_begin displaying (lit "b.py")) <> None.
Proof. split; [reflexivity | discriminate]. Qed.

(** C9, as the handler does it: whatever the overlay state, a tap clears
    the error and records the id of the node as the title before the
    request is sent, and leaves the content as it was; the content changes
    when the request settles: it is replaced when a text was retrieved, and
    cleared, with the error recorded, otherwise. *)
Theorem tap_transition (uriErrorText : str) (fetch : str -> response)
  (p : popup) (nodeId : str) :
  popupError (tap_begin p nodeId) = None
  /\ popupTitle (tap_begin p nodeId) = Some nodeId
  /\ popupDot (tap_begin p nodeId) = popupDot p
  /\ popupTitle (tap uriErrorText fetch p nodeId) = Some nodeId
  /\ match snd (fetchDotForNode fetch nodeId) with
     | Found _ text =>
         popupDot (tap uriErrorText fetch p nodeId) = Some text
         /\ popupError (tap uriErrorText fetch p nodeId) = None
     | failure =>
         popupDot (tap uriErrorText fetch p nodeId) = None
         /\ popupError (tap uriErrorText fetch p nodeId)
            = Some (error_text uriErrorText failure)
     end.
Proof.
  unfold tap. repeat split; try reflexivity;
    destruct (snd (fetchDotForNode fetch nodeId)); simpl; auto.
Qed.

End PopupFacts.

(* ================================================================== *)
(** * [convertDotIds] returns normally *)

Module ConvertFacts.
Import Regex Converter.

Lemma log_ok (e : log_entry) (w : world) :
  log e w = (Ok tt, {| files := files w; console := console w ++ [e] |}).
Proof. reflexivity. Qed.

(** A handler that only logs turns every outcome of the body into a
    normal one. *)
Lemma try_catch_log (body : M unit) (h : exn -> log_entry) (w : world) :
  exists w', try_catch body (fun err => log (h err)) w = (Ok tt, w').
Proof.
  unfold try_catch. destruct (body w) as [[[]|e] w1]; eauto.
  rewrite log_ok. eauto.
Qed.

(** C10: whatever the path, the files and the runtime, the call returns
    normally.  When the primary file cannot be read, nothing is written
    and the failure is the last line of the console.  When the side file
    is absent or cannot be parsed, the converted text is written, and the
    failure is the last line of the console. *)
Theorem convertDotIds_returns (rt : runtime) (dotPath : str) (w : world) :
  (exists w', convertDotIds rt dotPath w = (Ok tt, w'))
  /\ (files w dotPath = None ->
      convertDotIds rt dotPath w
      = (Ok tt, {| files := files w;
                   console := console w
                              ++ [LogDotPath dotPath; ErrorDot (FsError dotPath)] |}))
  /\ (forall raw e,
        files w dotPath = Some raw ->
        can_write rt (converted_path rt dotPath ".converted.dot") = true ->
        (files_with (files w) (converted_path rt dotPath ".converted.dot")
           (convertDotText raw) (converted_path rt dotPath ".json") = None
         /\ e = FsError (converted_path rt dotPath ".json")
         \/ exists rawJson,
             files_with (files w) (converted_path rt dotPath ".converted.dot")
               (convertDotText raw) (converted_path rt dotPath ".json")
             = Some rawJson
             /\ JSON_parse rt rawJson = Throw e) ->
        convertDotIds rt dotPath w
        = (Ok tt,
           {| files := files_with (files w)
                         (converted_path rt dotPath ".converted.dot")
                         (convertDotText raw);
              console := console w ++ dot_log rt dotPath raw ++ [WarnJson e] |})).
Proof.
  split; [|split].
  - unfold convertDotIds, bind at 1. rewrite log_ok.
    apply try_catch_log.
  - intros Hno. unfold convertDotIds, bind, try_catch, readFile, log. simpl.
    rewrite Hno. simpl. now rewrite <- app_assoc.
  - intros raw e Hraw Hw Hside.
    unfold convertDotIds, bind, try_catch, readFile, writeFile, log, lift.
    cbn [files console]. rewrite Hraw.
    fold (converted_path rt dotPath ".converted.dot").
    fold (converted_path rt dotPath ".json").
    rewrite Hw. cbn [files console].
    fold (files_with (files w) (converted_path rt dotPath ".converted.dot")
            (rewriteDot (idToLabel_of (replaceAll_crlf raw))
               (replaceAll_crlf raw))).
    fold (convertDotText raw).
    destruct Hside as [[Hnone ->]|(rawJson & Hsome & Hparse)].
    + unfold files_with in Hnone at 1. rewrite Hnone.
      cbn [files console]. unfold dot_log.
      now repeat (rewrite <- app_assoc; cbn [app]).
    + unfold files_with in Hsome at 1. rewrite Hsome, Hparse.
      cbn [files console]. unfold dot_log.
      now repeat (rewrite <- app_assoc; cbn [app]).
Qed.

End ConvertFacts.

(* ================================================================== *)
(** * The side file *)

Module SideFileFacts.
Import Converter.


Lemma omapM_basename (vs : list str) :
  omapM basename_of (map JStr vs) = Ok (map Path.basename vs).
Proof. induction vs as [|v vs IH]; simpl; auto. now rewrite IH. Qed.

Lemma convert_cell_typed (ap : list str -> json -> option json)
  (names : list str) (c : Z * Z * json) :
  convert_cell ap names (cell_json c) = Ok (converted_cell names c).
Proof. destruct c as [[src dest] values]. reflexivity. Qed.

Lemma omapM_convert_cell (ap : list str -> json -> option json)
  (names : list str) (cs : list (Z * Z * json)) :
  omapM (convert_cell ap names) (map cell_json cs)
  = Ok (map (converted_cell names) cs).
Proof.
  induction cs as [|c cs IH]; auto.
  cbn [map omapM]. rewrite convert_cell_typed, IH. reflexivity.
Qed.

(** The cells of the sample are not copied: [src] and [dest] are names in
    the output, where the input has the indices 0 and 1. *)
Lemma sample_cells_are_renamed :
  convertJson no_array_prop sample = Ok sample_converted
  /\ cells_of sample
     = Some (JArr [JObj [(lit "src", JNum 0); (lit "dest", JNum 1);
                         (lit "values", sample_values)]])
  /\ cells_of sample_converted
     = Some (JArr [JObj [(lit "src", JStr (lit "x.py"));
                         (lit "dest", JStr (lit "y.py"));
                         (lit "values", sample_values)]])
  /\ cells_of sample_converted <> cells_of sample.
Proof.
  repeat split; try reflexivity. intros H. vm_compute in H. discriminate H.
Qed.

Lemma keys_set_present (V : Type) (k : str) (v : V) (m : OMap.t V) :
  OMap.get k m <> None -> map fst (OMap.set k v m) = map fst m.
Proof.
  induction m as [|[k' v'] m IH]; simpl; [congruence|].
  destruct (str_eqb k k') eqn:E; simpl.
  - apply str_eqb_eq in E. now subst.
  - intros H. now rewrite IH.
Qed.

(** C1, as the code does it: for every record set, whatever its other
    fields, the variables of the output are the basenames of the input
    paths, in order; every cell keeps its values untouched, and its src
    and dest are the basenamed variables found at the input indices; the
    other fields and the order of the fields are those of the input. *)
Theorem convertJson_record_set (ap : list str -> json -> option json)
  (fields : list (str * json)) (vs : list str) (cs : list (Z * Z * json)) :
  OMap.get (lit "variables") fields = Some (JArr (map JStr vs)) ->
  OMap.get (lit "cells") fields = Some (JArr (map cell_json cs)) ->
  exists out,
    convertJson ap (JObj fields) = Ok (JObj out)
    /\ OMap.get (lit "variables") out
       = Some (JArr (map JStr (map Path.basename vs)))
    /\ OMap.get (lit "cells") out
       = Some (JArr (map (converted_cell (map Path.basename vs)) cs))
    /\ (forall k, k <> lit "variables" -> k <> lit "cells" ->
                  OMap.get k out = OMap.get k fields)
    /\ map fst out = map fst fields.
Proof.
  intros Hv Hc.
  exists (OMap.set (lit "cells")
            (JArr (map (converted_cell (map Path.basename vs)) cs))
            (OMap.set (lit "variables")
               (JArr (map JStr (map Path.basename vs))) fields)).
  repeat split.
  - unfold convertJson. cbn [get_prop obind].
    rewrite Hv. cbn [as_array obind]. rewrite omapM_basename. cbn [obind].
    rewrite Hc. cbn [as_array obind]. rewrite omapM_convert_cell. reflexivity.
  - rewrite get_set_other by discriminate. apply get_set_same.
  - apply get_set_same.
  - intros k H1 H2. now rewrite !get_set_other.
  - rewrite !keys_set_present; auto.
    + rewrite Hv. discriminate.
    + rewrite get_set_other by discriminate. rewrite Hc. discriminate.
Qed.

Lemma convertJson_record_set_sample :
  exists out,
    convertJson no_array_prop sample = Ok (JObj out)
    /\ OMap.get (lit "variables") out
       = Some (JArr [JStr (lit "x.py"); JStr (lit "y.py")])
    /\ OMap.get (lit "cells") out
       = Some (JArr [JObj [(lit "src", JStr (lit "x.py"));
                           (lit "dest", JStr (lit "y.py"));
                           (lit "values", sample_values)]]).
Proof.
  destruct (@convertJson_record_set no_array_prop
              [(lit "schemaVersion", JStr (lit "1.0"));
               (lit "variables",
                JArr [JStr (lit "/a/b/x.py"); JStr (lit "/a/c/y.py")]);
               (lit "cells", JArr [cell_json (0%Z, 1%Z, sample_values)])]
              [lit "/a/b/x.py"; lit "/a/c/y.py"]
              [(0%Z, 1%Z, sample_values)] eq_refl eq_refl)
    as (out & H1 & H2 & H3 & _).
  exists out. repeat split; assumption.
Defined.

End SideFileFacts.

(* ================================================================== *)
(** * Radial placement *)

Module LayoutFacts.
Import Regex Viewer Spec.

Lemma nth_error_mapi_from (A B : Type) (f : A -> nat -> B) (l : list A)
  (k i : nat) (a : A) :
  nth_error l i = Some a -> nth_error (mapi_from f k l) i = Some (f a (k + i)).
Proof.
  revert k i. induction l as [|x l IH]; intros k [|i] H; simpl in *;
    try discriminate.
  - injection H as ->. now rewrite Nat.add_0_r.
  - rewrite (IH (S k) i H). f_equal. f_equal. lia.
Qed.

Lemma nth_error_mapi_app (A B : Type) (f : A -> nat -> B) (l : list A)
  (rest : list B) (i : nat) (a : A) :
  nth_error l i = Some a -> nth_error (mapi f l ++ rest) i = Some (f a i).
Proof.
  intros H. rewrite nth_error_app1.
  - unfold mapi. now rewrite (nth_error_mapi_from f l 0 i H).
  - apply nth_error_Some. unfold mapi.
    rewrite (nth_error_mapi_from f l 0 i H). discriminate.
Qed.

Lemma place_first (radius angleStep : R) :
  place radius angleStep 0 = ((centerX + radius)%R, centerY).
Proof.
  unfold place. simpl INR. rewrite Rmult_0_l, cos_0, sin_0.
  f_equal; ring.
Qed.

Lemma radius_of_clamp (len : nat) :
  radius_of (count_or_one len) = clamp (40 * Z.of_nat len) 120 300.
Proof.
  unfold radius_of, clamp, count_or_one.
  destruct len as [|len]; [reflexivity|].
  destruct (Z.ltb_spec (40 * Z.of_nat (S len)) 120);
    destruct (Z.ltb_spec 300 (40 * Z.of_nat (S len))); lia.
Qed.

Lemma count_or_one_max (len : nat) : count_or_one len = Nat.max 1 len.
Proof. destruct len as [|[|len]]; reflexivity. Qed.


(** In the quoted dialect the radius is 200 whatever the node count: with
    two nodes the clamp would give 120. *)
Lemma quoted_radius_is_not_clamped :
  quotedMatch two_quoted = true
  /\ length (nodes (graph_of_text two_quoted)) = 2
  /\ radius_used two_quoted = 200%Z
  /\ radius_used two_quoted
     <> clamp (40 * Z.of_nat (length (nodes (graph_of_text two_quoted)))) 120 300.
Proof. vm_compute. repeat split; congruence. Qed.

(** C6, as the code does it: the radius is clamp(40 * nodeCount, 120, 300)
    when the graph comes from the labeled-node dialect (120 for one node,
    300 for a hundred) and the constant 200 when it comes from the quoted
    dialect; in both, the angle step is 2 pi / max(1, nodeCount), node i
    is placed at center + radius (cos, sin)(i * angleStep), and node 0 at
    center + (radius, 0). *)
Theorem radial_placement (text : str) :
  radius_used text
  = (if quotedMatch text then 200%Z
     else clamp (40 * Z.of_nat (length (nodes (graph_of_text text)))) 120 300)
  /\ clamp (40 * 1) 120 300 = 120%Z
  /\ clamp (40 * 100) 120 300 = 300%Z
  /\ (forall i node,
         nth_error (nodes (graph_of_text text)) i = Some node ->
         nth_error (elementsData text) i
         = Some (NodeElement (fst node) (snd node)
                   (Some (place (IZR (radius_used text))
                            (2 * PI
                             / INR (Nat.max 1 (length (nodes (graph_of_text text)))))
                            i))))
  /\ (forall node,
         nth_error (nodes (graph_of_text text)) 0 = Some node ->
         nth_error (elementsData text) 0
         = Some (NodeElement (fst node) (snd node)
                   (Some ((centerX + IZR (radius_used text))%R, centerY)))).
Proof.
  assert (Hpos : forall i node,
             nth_error (nodes (graph_of_text text)) i = Some node ->
             nth_error (elementsData text) i
             = Some (NodeElement (fst node) (snd node)
                       (Some (place (IZR (radius_used text))
                                (2 * PI
                                 / INR (Nat.max 1 (length (nodes (graph_of_text text)))))
                                i)))).
  { unfold radius_used, elementsData, graph_of_text.
    destruct (quotedMatch text); intros i node H.
    - unfold quoted_elements.
      rewrite (nth_error_mapi_app _ _ _ _ H).
      unfold quoted_graph in H. simpl in H.
      apply nth_error_In, in_map_iff in H. destruct H as (id & <- & _).
      reflexivity.
    - unfold buildCytoscapeElements.
      rewrite (nth_error_mapi_app _ _ _ _ H).
      now rewrite count_or_one_max. }
  repeat split; auto.
  - unfold radius_used, graph_of_text. destruct (quotedMatch text); auto.
    apply radius_of_clamp.
  - intros node H. rewrite (Hpos 0 node H), place_first. reflexivity.
Qed.

Lemma radial_placement_two_quoted :
  nth_error (elementsData two_quoted) 0
  = Some (NodeElement (lit "a.py") (lit "a.py")
            (Some ((centerX + IZR (radius_used two_quoted))%R, centerY))).
Proof.
  refine (proj2 (proj2 (proj2 (proj2 (radial_placement two_quoted))))
            (lit "a.py", lit "a.py") _).
  vm_compute. reflexivity.
Defined.

End LayoutFacts.

(* ================================================================== *)
(** * The matcher and the words a regular expression denotes *)

Module RegexFacts.
Import Regex.


Section Repeat.
Variable R : Type.
Variable p : char -> bool.

Lemma greedy_sound (s : str) :
  forall (k : str -> str -> option R) (x : R),
    greedy p k s = Some x ->
    exists w rest, s = w ++ rest /\ all p w /\ k w rest = Some x.
Proof.
  induction s as [|c s IH]; intros k x H; simpl in H.
  - exists [], []. repeat split; auto. constructor.
  - destruct (p c) eqn:Hc.
    + destruct (greedy p (fun w r => k (c :: w) r) s) as [y|] eqn:Hg.
      * injection H as ->. destruct (IH _ _ Hg) as (w & rest & -> & Hw & Hk).
        exists (c :: w), rest. repeat split; auto. now constructor.
      * exists [], (c :: s). repeat split; auto. constructor.
    + exists [], (c :: s). repeat split; auto. constructor.
Qed.

Lemma greedy_complete (w : str) :
  forall (k : str -> str -> option R) (rest : str) (x : R),
    all p w -> k w rest = Some x ->
    exists y, greedy p k (w ++ rest) = Some y.
Proof.
  induction w as [|c w IH]; intros k rest x Hw Hk; simpl.
  - destruct rest as [|c r]; simpl; eauto.
    destruct (p c); eauto.
    destruct (greedy p (fun w r0 => k (c :: w) r0) r); eauto.
  - inversion Hw as [|? ? Hc Hw']; subst. rewrite Hc.
    destruct (IH (fun w r => k (c :: w) r) rest x Hw' Hk) as (y & ->). eauto.
Qed.

(** The longest repetition is tried first. *)
Lemma greedy_max (w : str) :
  forall (k : str -> str -> option R) (rest : str) (x : R),
    all p w -> stops p rest -> k w rest = Some x ->
    greedy p k (w ++ rest) = Some x.
Proof.
  induction w as [|c w IH]; intros k rest x Hw Hs Hk; simpl.
  - destruct rest as [|c r]; simpl in *; auto. now rewrite Hs.
  - inversion Hw as [|? ? Hc Hw']; subst. rewrite Hc.
    now rewrite (IH (fun w r => k (c :: w) r) rest x Hw' Hs Hk).
Qed.

(** Giving back: when the continuation refuses every repetition that
    keeps at least one character of [b], the one that keeps none is
    tried. *)
Lemma greedy_back (b : str) :
  forall (k : str -> str -> option R) (rest : str),
    all p b -> stops p rest ->
    (forall b1 b2, b = b1 ++ b2 -> b1 <> [] -> k b1 (b2 ++ rest) = None) ->
    greedy p k (b ++ rest) = k [] (b ++ rest).
Proof.
  induction b as [|c b IH]; intros k rest Hb Hs Hk; simpl.
  - destruct rest as [|c r]; simpl in *; auto. now rewrite Hs.
  - inversion Hb as [|? ? Hc Hb']; subst. rewrite Hc.
    rewrite (IH (fun w r => k (c :: w) r) rest Hb' Hs).
    + rewrite (Hk [c] b); auto. discriminate.
    + intros b1 b2 -> Hne. apply (Hk (c :: b1) b2); auto. discriminate.
Qed.

Lemma greedy_longest (a : str) :
  forall (k : str -> str -> option R) (b rest : str) (x : R),
    all p a -> all p b -> stops p rest ->
    (forall b1 b2, b = b1 ++ b2 -> b1 <> [] -> k (a ++ b1) (b2 ++ rest) = None) ->
    k a (b ++ rest) = Some x ->
    greedy p k (a ++ b ++ rest) = Some x.
Proof.
  induction a as [|c a IH]; intros k b rest x Ha Hb Hs Hk Hx; simpl.
  - now rewrite greedy_back.
  - inversion Ha as [|? ? Hc Ha']; subst. rewrite Hc.
    now rewrite (IH (fun w r => k (c :: w) r) b rest x Ha' Hb Hs Hk Hx).
Qed.

(** When the continuation refuses every repetition, so does the
    quantifier. *)
Lemma greedy_none (s : str) :
  forall (k : str -> str -> option R),
    (forall w rest, s = w ++ rest -> all p w -> k w rest = None) ->
    greedy p k s = None.
Proof.
  intros k Hk. destruct (greedy p k s) as [x|] eqn:E; auto.
  destruct (greedy_sound _ _ E) as (w & rest & -> & Hw & Hx).
  now rewrite (Hk w rest eq_refl Hw) in Hx.
Qed.

Lemma lazy_unfold (k : str -> str -> option R) (s : str) :
  lazy p k s
  = match k [] s with
    | Some x => Some x
    | None =>
        match s with
        | c :: s' => if p c then lazy p (fun w r => k (c :: w) r) s' else None
        | [] => None
        end
    end.
Proof. destruct s; reflexivity. Qed.

Lemma lazy_sound (s : str) :
  forall (k : str -> str -> option R) (x : R),
    lazy p k s = Some x ->
    exists w rest, s = w ++ rest /\ all p w /\ k w rest = Some x.
Proof.
  induction s as [|c s IH]; intros k x H; rewrite lazy_unfold in H.
  - destruct (k [] []) eqn:E; [|discriminate].
    exists [], []. repeat split; auto; [constructor | congruence].
  - destruct (k [] (c :: s)) eqn:E.
    + exists [], (c :: s). repeat split; auto; [constructor | congruence].
    + destruct (p c) eqn:Hc; [|discriminate].
      destruct (IH _ _ H) as (w & rest & -> & Hw & Hk).
      exists (c :: w), rest. repeat split; auto. now constructor.
Qed.

Lemma lazy_complete (w : str) :
  forall (k : str -> str -> option R) (rest : str) (x : R),
    all p w -> k w rest = Some x ->
    exists y, lazy p k (w ++ rest) = Some y.
Proof.
  induction w as [|c w IH]; intros k rest x Hw Hk; rewrite lazy_unfold.
  - simpl. rewrite Hk. eauto.
  - simpl. destruct (k [] (c :: w ++ rest)); eauto.
    inversion Hw as [|? ? Hc Hw']; subst. rewrite Hc.
    apply (IH (fun w r => k (c :: w) r) rest x Hw' Hk).
Qed.

(** The shortest repetition the continuation accepts is the one taken. *)
Lemma lazy_min (w : str) :
  forall (k : str -> str -> option R) (rest : str) (x : R),
    all p w ->
    (forall w1 w2, w = w1 ++ w2 -> w2 <> [] -> k w1 (w2 ++ rest) = None) ->
    k w rest = Some x ->
    lazy p k (w ++ rest) = Some x.
Proof.
  induction w as [|c w IH]; intros k rest x Hw Hk Hx; rewrite lazy_unfold.
  - simpl. now rewrite Hx.
  - assert (H0 : k [] ((c :: w) ++ rest) = None)
      by (apply Hk; [reflexivity | discriminate]).
    simpl in *. rewrite H0.
    inversion Hw as [|? ? Hc Hw']; subst. rewrite Hc.
    apply (IH (fun w r => k (c :: w) r) rest x Hw'); auto.
    intros w1 w2 -> Hne. apply (Hk (c :: w1) w2); auto.
Qed.

Lemma rep_sound (q : quant) (k : str -> str -> option R) (s : str) (x : R) :
  rep p q k s = Some x ->
  exists w rest,
    s = w ++ rest /\ all p w /\ length_ok q (length w) /\ k w rest = Some x.
Proof.
  destruct q; simpl; intros H.
  - destruct s as [|c s]; [discriminate|].
    destruct (p c) eqn:Hc; [|discriminate].
    exists [c], s. repeat split; auto. repeat (constructor; auto).
  - destruct s as [|c s].
    + exists [], []. repeat split; auto. constructor.
    + destruct (p c) eqn:Hc.
      * destruct (k [c] s) eqn:E.
        -- exists [c], s. repeat split; auto; try congruence.
           repeat (constructor; auto).
        -- exists [], (c :: s). repeat split; auto. constructor.
      * exists [], (c :: s). repeat split; auto. constructor.
  - destruct (greedy_sound _ _ H) as (w & rest & -> & Hw & Hk).
    exists w, rest. repeat split; auto.
  - destruct s as [|c s]; [discriminate|].
    destruct (p c) eqn:Hc; [|discriminate].
    destruct (greedy_sound _ _ H) as (w & rest & -> & Hw & Hk).
    exists (c :: w), rest. repeat split; auto.
    + now constructor.
    + simpl. lia.
  - destruct (lazy_sound _ _ H) as (w & rest & -> & Hw & Hk).
    exists w, rest. repeat split; auto.
Qed.

Lemma rep_complete (q : quant) (k : str -> str -> option R) (w rest : str)
  (x : R) :
  all p w -> length_ok q (length w) -> k w rest = Some x ->
  exists y, rep p q k (w ++ rest) = Some y.
Proof.
  intros Hw Hq Hk. destruct q; simpl in *.
  - destruct w as [|c [|d w]]; try discriminate.
    inversion Hw as [|? ? Hc _]; subst. simpl. rewrite Hc. eauto.
  - destruct w as [|c [|d w]]; simpl in *; try lia.
    + destruct rest as [|c r]; eauto.
      destruct (p c); eauto. destruct (k [c] r); eauto.
    + inversion Hw as [|? ? Hc _]; subst. rewrite Hc, Hk. eauto.
  - now apply greedy_complete with (x := x).
  - destruct w as [|c w]; simpl in *; [lia|].
    inversion Hw as [|? ? Hc Hw']; subst. rewrite Hc.
    now apply greedy_complete with (x := x).
  - now apply lazy_complete with (x := x).
Qed.

End Repeat.

Lemma prev_after_nil (prev : option char) : prev_after [] prev = prev.
Proof. reflexivity. Qed.

Lemma prev_after_cons (c : char) (w : str) (prev : option char) :
  prev_after (c :: w) prev = prev_after w (Some c).
Proof.
  unfold prev_after. simpl. destruct (rev w) as [|x l]; reflexivity.
Qed.

Lemma prev_after_app (a b : str) (prev : option char) :
  prev_after (a ++ b) prev = prev_after b (prev_after a prev).
Proof.
  revert prev. induction a as [|c a IH]; intros prev; auto.
  simpl. now rewrite !prev_after_cons, IH.
Qed.

Lemma prev_after_last (w : str) (c : char) (prev : option char) :
  prev_after (w ++ [c]) prev = Some c.
Proof. now rewrite prev_after_app, prev_after_cons. Qed.

(** ** The matcher finds only words of the expression, and finds one
    whenever there is one *)

Theorem run_sound (r : regex) :
  forall prev s caps rest,
    run r prev s = Some (caps, rest) ->
    exists w, s = w ++ rest /\ Matches r prev w rest caps.
Proof.
  induction r as [|[| |p q cap] r IH]; intros prev s caps rest H; simpl in H.
  - injection H as <- <-. exists []. split; auto. constructor.
  - destruct (at_bol prev) eqn:E; [|discriminate].
    destruct (IH _ _ _ _ H) as (w & -> & Hm). exists w. split; auto.
    now constructor.
  - destruct (at_eol s) eqn:E; [|discriminate].
    destruct (IH _ _ _ _ H) as (w & -> & Hm). exists w. split; auto.
    now constructor.
  - destruct (rep_sound _ _ _ _ H) as (w1 & s1 & -> & Hw & Hq & Hk).
    destruct (run r (prev_after w1 prev) s1) as [[caps' out]|] eqn:E;
      [|discriminate].
    injection Hk as <- <-.
    destruct (IH _ _ _ _ E) as (w2 & -> & Hm).
    exists (w1 ++ w2). split; [now rewrite app_assoc|]. now constructor.
Qed.

Theorem run_complete (r : regex) (prev : option char) (w rest : str)
  (caps : list str) :
  Matches r prev w rest caps ->
  exists caps' rest', run r prev (w ++ rest) = Some (caps', rest').
Proof.
  induction 1 as [prev rest|r prev w rest caps Hb _ IH|r prev w rest caps He _ IH
                 |p q cap r prev w1 w2 rest caps Hw Hq _ IH]; simpl.
  - eauto.
  - rewrite Hb. exact IH.
  - rewrite He. exact IH.
  - destruct IH as (caps' & rest' & E).
    rewrite <- app_assoc.
    destruct (@rep_complete _ p q
                (fun w rest0 =>
                   match run r (prev_after w prev) rest0 with
                   | Some (caps0, out) =>
                       Some (if cap then w :: caps0 else caps0, out)
                   | None => None
                   end) w1 (w2 ++ rest)
                (if cap then w1 :: caps' else caps', rest') Hw Hq)
      as ([c o] & ->); eauto.
    now rewrite E.
Qed.

Lemma run_none (r : regex) (prev : option char) (s : str) :
  (forall w rest caps, s = w ++ rest -> ~ Matches r prev w rest caps) ->
  run r prev s = None.
Proof.
  intros H. destruct (run r prev s) as [[caps rest]|] eqn:E; auto.
  destruct (run_sound _ _ _ E) as (w & -> & Hm). now destruct (H w rest caps).
Qed.

(** ** Searching *)


Lemma search_sound (r : regex) (s : str) :
  forall prev caps,
    search r prev s = Some caps ->
    exists pre w rest,
      s = pre ++ w ++ rest /\ Matches r (prev_after pre prev) w rest caps.
Proof.
  induction s as [|c s IH]; intros prev caps H; simpl in H.
  - destruct (run r prev []) as [[caps' rest]|] eqn:E; [|discriminate].
    injection H as ->. destruct (run_sound _ _ _ E) as (w & Hs & Hm).
    exists [], w, rest. auto.
  - destruct (run r prev (c :: s)) as [[caps' rest]|] eqn:E.
    + injection H as ->. destruct (run_sound _ _ _ E) as (w & Hs & Hm).
      exists [], w, rest. auto.
    + destruct (IH _ _ H) as (pre & w & rest & -> & Hm).
      exists (c :: pre), w, rest. split; auto. now rewrite prev_after_cons.
Qed.

Lemma search_unfold (r : regex) (prev : option char) (s : str) :
  search r prev s
  = match run r prev s with
    | Some (caps, _) => Some caps
    | None =>
        match s with
        | c :: s' => search r (Some c) s'
        | [] => None
        end
    end.
Proof. destruct s; reflexivity. Qed.

Lemma search_complete (r : regex) (pre : str) :
  forall prev w rest caps,
    Matches r (prev_after pre prev) w rest caps ->
    exists caps', search r prev (pre ++ w ++ rest) = Some caps'.
Proof.
  induction pre as [|c pre IH]; intros prev w rest caps Hm.
  - destruct (run_complete Hm) as (caps' & rest' & E).
    change (prev_after [] prev) with prev in E.
    rewrite search_unfold. simpl. rewrite E. eauto.
  - rewrite prev_after_cons in Hm. destruct (IH _ _ _ _ Hm) as (caps' & E).
    simpl. destruct (run r prev (c :: pre ++ w ++ rest)) as [[? ?]|]; eauto.
Qed.

Lemma test_true_iff (r : regex) (s : str) :
  test r s = true <-> occurs r None s.
Proof.
  unfold test, occurs. split.
  - destruct (search r None s) as [caps|] eqn:E; [|discriminate].
    intros _. destruct (search_sound _ _ _ E) as (pre & w & rest & Hs & Hm).
    exists pre, w, rest, caps. auto.
  - intros (pre & w & rest & caps & -> & Hm).
    now destruct (search_complete _ _ Hm) as (caps' & ->).
Qed.

Lemma exec_all_nil_iff (r : regex) (s : str) :
  forall prev, exec_all r prev 0 s = [] <-> search r prev s = None.
Proof.
  induction s as [|c s IH]; intros prev; simpl.
  - destruct (run r prev []) as [[caps rest]|]; split; congruence.
  - destruct (run r prev (c :: s)) as [[caps rest]|]; [split; congruence|].
    apply IH.
Qed.

Lemma matches_nil_iff (r : regex) (s : str) :
  matches r s = [] <-> ~ occurs r None s.
Proof.
  unfold matches. rewrite exec_all_nil_iff, <- test_true_iff. unfold test.
  destruct (search r None s); split; congruence.
Qed.

(** ** Reading a match of a given expression *)

Lemma Matches_nil_inv (prev : option char) (w rest : str) (caps : list str) :
  Matches [] prev w rest caps -> w = [] /\ caps = [].
Proof. inversion 1; auto. Qed.

Lemma Matches_cls_inv (p : char -> bool) (q : quant) (cap : bool) (r : regex)
  (prev : option char) (w rest : str) (caps : list str) :
  Matches (Cls p q cap :: r) prev w rest caps ->
  exists w1 w2 caps',
    w = w1 ++ w2 /\ all p w1 /\ length_ok q (length w1)
    /\ caps = (if cap then w1 :: caps' else caps')
    /\ Matches r (prev_after w1 prev) w2 rest caps'.
Proof.
  inversion 1; subst. eexists _, _, _. repeat split; eauto.
Qed.

Lemma Matches_chr_inv (c : char) (r : regex) (prev : option char)
  (w rest : str) (caps : list str) :
  Matches (Chr c :: r) prev w rest caps ->
  exists w', w = c :: w' /\ Matches r (Some c) w' rest caps.
Proof.
  intros H. apply Matches_cls_inv in H.
  destruct H as (w1 & w2 & caps' & -> & Hw & Hq & -> & Hm).
  destruct w1 as [|d [|e w1]]; try discriminate.
  inversion Hw as [|? ? Hd _]; subst. apply N.eqb_eq in Hd. subst d.
  exists w2. split; auto.
Qed.

Lemma Matches_bol_inv (r : regex) (prev : option char) (w rest : str)
  (caps : list str) :
  Matches (Bol :: r) prev w rest caps ->
  at_bol prev = true /\ Matches r prev w rest caps.
Proof. inversion 1; auto. Qed.

Lemma Matches_eol_inv (r : regex) (prev : option char) (w rest : str)
  (caps : list str) :
  Matches (Eol :: r) prev w rest caps ->
  at_eol (w ++ rest) = true /\ Matches r prev w rest caps.
Proof. inversion 1; auto. Qed.

Lemma Matches_chr (c : char) (r : regex) (prev : option char) (w rest : str)
  (caps : list str) :
  Matches r (Some c) w rest caps -> Matches (Chr c :: r) prev (c :: w) rest caps.
Proof.
  intros H. apply (@M_cls (N.eqb c) One false r prev [c] w rest caps); auto.
  - constructor; [apply N.eqb_refl | constructor].
  - reflexivity.
Qed.

End RegexFacts.

(* ================================================================== *)
(** * The dialects of the viewer *)


Module DialectFacts.
Import Regex RegexFacts Viewer.
Local Open Scope N_scope.

Ltac inv_matches H :=
  repeat
    lazymatch type of H with
    | Matches (Chr _ :: _) _ _ _ _ =>
        apply Matches_chr_inv in H; destruct H as (? & -> & H)
    | Matches (Cls _ _ _ :: _) _ _ _ _ =>
        apply Matches_cls_inv in H;
        destruct H as (? & ? & ? & -> & ? & ? & -> & H)
    | Matches (Bol :: _) _ _ _ _ =>
        apply Matches_bol_inv in H; destruct H as (? & H)
    | Matches (Eol :: _) _ _ _ _ =>
        apply Matches_eol_inv in H; destruct H as (? & H)
    | Matches [] _ _ _ _ =>
        apply Matches_nil_inv in H; destruct H as [-> ->]
    end.

Lemma Matches_cap (p : char -> bool) (q : quant) (r : regex)
  (prev : option char) (w1 w2 rest : str) (caps : list str) :
  all p w1 -> length_ok q (length w1) ->
  Matches r (prev_after w1 prev) w2 rest caps ->
  Matches (Cls p q true :: r) prev (w1 ++ w2) rest (w1 :: caps).
Proof. intros. now apply (@M_cls p q true). Qed.

Lemma Matches_nocap (p : char -> bool) (q : quant) (r : regex)
  (prev : option char) (w1 w2 rest : str) (caps : list str) :
  all p w1 -> length_ok q (length w1) ->
  Matches r (prev_after w1 prev) w2 rest caps ->
  Matches (Cls p q false :: r) prev (w1 ++ w2) rest caps.
Proof. intros. now apply (@M_cls p q false). Qed.

Lemma nonempty_length (A : Type) (l : list A) : l <> [] <-> (1 <= length l)%nat.
Proof. destruct l; simpl; split; intros; try congruence; lia. Qed.

Lemma quotedRegex_eq :
  quotedRegex
  = [Chr dquote; Cls is_not_dquote Plus true; Chr dquote;
     Cls is_space Star false; Chr 45; Chr 62; Cls is_space Star false;
     Chr dquote; Cls is_not_dquote Plus true; Chr dquote].
Proof. reflexivity. Qed.

Lemma Matches_quoted (prev : option char) (w rest : str) (caps : list str) :
  Matches quotedRegex prev w rest caps -> quoted_edge_text w.
Proof.
  rewrite quotedRegex_eq. intros H. inv_matches H.
  eexists _, _, _, _. split; [reflexivity|].
  repeat split; auto; now apply nonempty_length.
Qed.

Lemma quoted_Matches (prev : option char) (w rest : str) :
  quoted_edge_text w -> exists caps, Matches quotedRegex prev w rest caps.
Proof.
  intros (x & ws1 & ws2 & y & -> & Hx & Hy & Ax & Ay & A1 & A2).
  rewrite quotedRegex_eq. eexists.
  apply Matches_chr, Matches_cap; auto; [now apply nonempty_length|].
  apply Matches_chr, Matches_nocap; simpl; auto.
  apply Matches_chr, Matches_chr, Matches_nocap; simpl; auto.
  apply Matches_chr, Matches_cap; auto; [now apply nonempty_length|].
  apply Matches_chr. constructor.
Qed.

Lemma quotedMatch_iff (text : str) :
  quotedMatch text = true <-> contains quoted_edge_text text.
Proof.
  unfold quotedMatch. rewrite test_true_iff. split.
  - intros (pre & w & rest & caps & -> & Hm).
    exists pre, w, rest. split; auto. eapply Matches_quoted; eauto.
  - intros (pre & w & post & -> & Hq).
    destruct (quoted_Matches (prev_after pre None) post Hq) as (caps & Hm).
    exists pre, w, post, caps. auto.
Qed.

Lemma edgeRegex_eq :
  edgeRegex
  = [Cls is_word Plus true; Cls is_space Star false; Chr 45; Chr 62;
     Cls is_space Star false; Cls is_word Plus true;
     Cls is_space Star false; Cls (N.eqb 59) Opt false].
Proof. reflexivity. Qed.

Lemma Matches_edge (prev : option char) (w rest : str) (caps : list str) :
  Matches edgeRegex prev w rest caps ->
  exists e tail, w = e ++ tail /\ plain_edge_text e.
Proof.
  rewrite edgeRegex_eq. intros H. inv_matches H.
  match goal with
  | |- exists e tail, ?a ++ ?s1 ++ 45 :: 62 :: ?s2 ++ ?b ++ ?t = _ /\ _ =>
      exists (a ++ s1 ++ 45 :: 62 :: s2 ++ b), t
  end.
  split; [now rewrite <- !app_assoc; simpl; rewrite <- !app_assoc|].
  eexists _, _, _, _. split; [reflexivity|].
  repeat split; auto; now apply nonempty_length.
Qed.

Lemma nodeRegex_eq :
  nodeRegex
  = [Cls is_word Plus true; Cls is_space Star false;
     Chr 91; Chr 108; Chr 97; Chr 98; Chr 101; Chr 108;
     Cls is_space Star false; Chr 61; Cls is_space Star false;
     Chr dquote; Cls is_dot StarLazy true; Chr dquote; Chr 93;
     Cls is_space Star false; Cls (N.eqb 59) Opt false].
Proof. reflexivity. Qed.

Lemma Matches_node (prev : option char) (w rest : str) (caps : list str) :
  Matches nodeRegex prev w rest caps ->
  exists d tail, w = d ++ tail /\ node_decl_text d.
Proof.
  rewrite nodeRegex_eq. intros H. inv_matches H.
  match goal with
  | |- exists d tail,
      ?a ++ ?s1 ++ 91 :: 108 :: 97 :: 98 :: 101 :: 108 :: ?s2 ++ 61 :: ?s3
        ++ dquote :: ?l ++ dquote :: 93 :: ?t = _ /\ _ =>
      exists (a ++ s1 ++ 91 :: 108 :: 97 :: 98 :: 101 :: 108 :: s2 ++ 61 :: s3
              ++ dquote :: l ++ dquote :: [93]), t
  end.
  split; [now repeat (rewrite <- !app_assoc; simpl)|].
  eexists _, _, _, _, _. split; [reflexivity|].
  repeat split; auto; now apply nonempty_length.
Qed.

Lemma contains_prefix (P : str -> Prop) (pre w rest e tail : str) :
  w = e ++ tail -> P e -> contains P (pre ++ w ++ rest).
Proof.
  intros -> H. exists pre, e, (tail ++ rest). split; auto.
  now rewrite <- app_assoc.
Qed.

Lemma no_edge_no_match (text : str) :
  ~ contains plain_edge_text text -> matches edgeRegex text = [].
Proof.
  intros H. apply matches_nil_iff.
  intros (pre & w & rest & caps & -> & Hm). apply H.
  destruct (Matches_edge Hm) as (e & tail & He & Hp).
  eapply contains_prefix; eauto.
Qed.

Lemma no_decl_no_match (text : str) :
  ~ contains node_decl_text text -> matches nodeRegex text = [].
Proof.
  intros H. apply matches_nil_iff.
  intros (pre & w & rest & caps & -> & Hm). apply H.
  destruct (Matches_node Hm) as (e & tail & He & Hp).
  eapply contains_prefix; eauto.
Qed.

(** C4: the probe decides alone.  A text with a quoted edge somewhere is
    read by the quoted extraction, whatever else it contains; a text with
    no quoted edge, no edge between ids and no node declaration gives the
    empty model and the empty element list. *)
Theorem dialect_selection (text : str) :
  (contains quoted_edge_text text ->
   graph_of_text text = quoted_graph text
   /\ elementsData text = quoted_elements text)
  /\ (~ contains quoted_edge_text text ->
      graph_of_text text = parseDotToElements text
      /\ elementsData text = buildCytoscapeElements (parseDotToElements text))
  /\ (~ contains quoted_edge_text text ->
      ~ contains plain_edge_text text ->
      ~ contains node_decl_text text ->
      graph_of_text text = {| nodes := []; edges := [] |}
      /\ elementsData text = []).
Proof.
  unfold graph_of_text, elementsData.
  split; [|split].
  - intros H. apply quotedMatch_iff in H. now rewrite H.
  - intros H. rewrite <- quotedMatch_iff in H.
    destruct (quotedMatch text); [congruence | auto].
  - intros Hq He Hn. rewrite <- quotedMatch_iff in Hq.
    destruct (quotedMatch text); [congruence|].
    unfold parseDotToElements, declarations.
    rewrite (no_edge_no_match He), (no_decl_no_match Hn). auto.
Qed.

End DialectFacts.

(* ================================================================== *)
(** * Quantifiers that never give back

    When what follows a greedy quantifier cannot start with a character of
    its class, the quantifier takes the longest run of the class and the
    match is decided there. *)


Module RegexEval.
Import Regex RegexFacts.

Lemma take_drop (p : char -> bool) (s : str) :
  takeWhile p s ++ dropWhile p s = s.
Proof. induction s as [|c s IH]; simpl; auto. destruct (p c); simpl; congruence. Qed.

Lemma takeWhile_all (p : char -> bool) (s : str) : all p (takeWhile p s).
Proof.
  induction s as [|c s IH]; simpl; [constructor|].
  destruct (p c) eqn:E; constructor; auto.
Qed.

Lemma dropWhile_stops (p : char -> bool) (s : str) : stops p (dropWhile p s).
Proof.
  induction s as [|c s IH]; simpl; auto. destruct (p c) eqn:E; simpl; auto.
Qed.

Lemma takeWhile_app (p : char -> bool) (w rest : str) :
  all p w -> stops p rest -> takeWhile p (w ++ rest) = w.
Proof.
  induction 1 as [|c w Hc _ IH]; intros Hs; simpl.
  - destruct rest as [|c r]; simpl in *; auto. now rewrite Hs.
  - rewrite Hc, IH; auto.
Qed.

Lemma dropWhile_app (p : char -> bool) (w rest : str) :
  all p w -> stops p rest -> dropWhile p (w ++ rest) = rest.
Proof.
  induction 1 as [|c w Hc _ IH]; intros Hs; simpl.
  - destruct rest as [|c r]; simpl in *; auto. now rewrite Hs.
  - rewrite Hc, IH; auto.
Qed.

Section Det.
Variable R : Type.
Variable p : char -> bool.


Lemma greedy_det (s : str) :
  forall k : str -> str -> option R,
    disjoint_k R p k -> greedy p k s = k (takeWhile p s) (dropWhile p s).
Proof.
  induction s as [|c s IH]; intros k Hk; simpl; auto.
  destruct (p c) eqn:Hc; auto.
  rewrite (IH (fun w r => k (c :: w) r)).
  - destruct (k (c :: takeWhile p s) (dropWhile p s)) eqn:E; auto.
  - intros w d r Hd. now apply Hk.
Qed.

Lemma greedy_total (s : str) :
  forall k : str -> str -> option R,
    (forall w r, k w r <> None) ->
    greedy p k s = k (takeWhile p s) (dropWhile p s).
Proof.
  induction s as [|c s IH]; intros k Hk; simpl; auto.
  destruct (p c) eqn:Hc; auto.
  rewrite (IH (fun w r => k (c :: w) r)); [|intros; apply Hk].
  destruct (k (c :: takeWhile p s) (dropWhile p s)) eqn:E; auto.
  now apply Hk in E.
Qed.

End Det.


Lemma refuses_one (p p' : char -> bool) (cap : bool) (r : regex) :
  (forall c, p c = true -> p' c = false) -> refuses p (Cls p' One cap :: r).
Proof. intros H prev c s Hc. simpl. now rewrite (H c Hc). Qed.

Lemma refuses_plus (p p' : char -> bool) (cap : bool) (r : regex) :
  (forall c, p c = true -> p' c = false) -> refuses p (Cls p' Plus cap :: r).
Proof. intros H prev c s Hc. simpl. now rewrite (H c Hc). Qed.

Lemma refuses_chr (p : char -> bool) (c : char) (r : regex) :
  p c = false -> refuses p (Chr c :: r).
Proof.
  intros H. apply refuses_one. intros d Hd.
  destruct (N.eqb_spec c d); congruence.
Qed.

Lemma refuses_eol (p : char -> bool) (r : regex) :
  (forall c, p c = true -> is_line_terminator c = false) ->
  refuses p (Eol :: r).
Proof. intros H prev c s Hc. simpl. now rewrite (H c Hc). Qed.


Lemma run_cls (p : char -> bool) (q : quant) (cap : bool) (r : regex)
  (prev : option char) (s : str) :
  run (Cls p q cap :: r) prev s
  = rep p q (fun w rest => with_group cap w (run r (prev_after w prev) rest)) s.
Proof. reflexivity. Qed.

Lemma run_star_det (p : char -> bool) (cap : bool) (r : regex)
  (prev : option char) (s : str) :
  refuses p r ->
  run (Cls p Star cap :: r) prev s
  = with_group cap (takeWhile p s)
      (run r (prev_after (takeWhile p s) prev) (dropWhile p s)).
Proof.
  intros H. rewrite run_cls. cbn [rep]. apply greedy_det.
  intros w c r0 Hc. now rewrite (H _ c r0 Hc).
Qed.

Lemma run_plus_det (p : char -> bool) (cap : bool) (r : regex)
  (prev : option char) (s : str) :
  refuses p r ->
  run (Cls p Plus cap :: r) prev s
  = match takeWhile p s with
    | [] => None
    | w => with_group cap w (run r (prev_after w prev) (dropWhile p s))
    end.
Proof.
  intros H. rewrite run_cls. cbn [rep].
  destruct s as [|c s]; simpl; auto.
  destruct (p c) eqn:Hc; auto.
  rewrite greedy_det; auto.
  intros w d r0 Hd. now rewrite (H _ d r0 Hd).
Qed.

Lemma run_star_last (p : char -> bool) (cap : bool) (prev : option char)
  (s : str) :
  run [Cls p Star cap] prev s
  = Some (if cap then [takeWhile p s] else [], dropWhile p s).
Proof.
  rewrite run_cls. cbn [rep]. rewrite greedy_total; [reflexivity|].
  intros w r. simpl. discriminate.
Qed.

Lemma run_chr (c : char) (r : regex) (prev : option char) (s : str) :
  run (Chr c :: r) prev s
  = match s with
    | d :: s' => if N.eqb c d then run r (Some d) s' else None
    | [] => None
    end.
Proof.
  unfold Chr. rewrite run_cls. cbn [rep].
  destruct s as [|d s]; auto. destruct (N.eqb c d); auto.
  change (prev_after [d] prev) with (Some d).
  now destruct (run r (Some d) s) as [[? ?]|].
Qed.

Lemma run_bol (r : regex) (prev : option char) (s : str) :
  run (Bol :: r) prev s = if at_bol prev then run r prev s else None.
Proof. reflexivity. Qed.

(** ** Character classes *)

Local Open Scope N_scope.

Ltac class_facts :=
  unfold is_word, is_space, is_digit, is_dot, is_not_dquote, is_cr_or_lf,
    is_line_terminator, dquote, newline in *;
  repeat match goal with
         | H : _ = true |- _ =>
             rewrite ?orb_true_iff, ?andb_true_iff, ?negb_true_iff,
               ?N.eqb_eq, ?N.leb_le, ?N.eqb_neq in H
         | H : _ = false |- _ =>
             rewrite ?orb_false_iff, ?andb_false_iff, ?negb_false_iff,
               ?N.eqb_eq, ?N.leb_gt, ?N.eqb_neq in H
         end;
  rewrite ?orb_true_iff, ?andb_true_iff, ?negb_true_iff, ?orb_false_iff,
    ?andb_false_iff, ?negb_false_iff, ?N.eqb_eq, ?N.leb_le, ?N.leb_gt,
    ?N.eqb_neq;
  try lia.

Lemma space_not_digit (c : char) : is_space c = true -> is_digit c = false.
Proof. intros H. class_facts. Qed.

Lemma digit_not_space (c : char) : is_digit c = true -> is_space c = false.
Proof. intros H. class_facts. Qed.

Lemma terminator_is_space (c : char) :
  is_line_terminator c = true -> is_space c = true.
Proof. intros H. class_facts. Qed.

Lemma cr_or_lf_is_terminator (c : char) :
  is_cr_or_lf c = true -> is_line_terminator c = true.
Proof. intros H. class_facts. Qed.

Lemma dot_not_terminator (c : char) :
  is_dot c = true -> is_line_terminator c = false.
Proof. unfold is_dot. now rewrite negb_true_iff. Qed.

Lemma newline_is_space : is_space newline = true.
Proof. reflexivity. Qed.

Lemma digit_is_dot (c : char) : is_digit c = true -> is_dot c = true.
Proof. intros H. class_facts. Qed.

Lemma digit_is_word (c : char) : is_digit c = true -> is_word c = true.
Proof. intros H. unfold is_word. rewrite H. now rewrite orb_true_r. Qed.

Lemma word_not_space (c : char) : is_word c = true -> is_space c = false.
Proof. intros H. class_facts. Qed.

End RegexEval.

(* ================================================================== *)
(** * The comment pattern *)


Module CommentFacts.
Import Regex RegexFacts RegexEval Converter Spec.
Local Open Scope N_scope.

Lemma commentRegex_eq :
  commentRegex
  = [Chr 47; Chr 47; Cls is_space Star false; Cls is_digit Plus true;
     Chr 58; Cls is_dot Star true].
Proof. reflexivity. Qed.

Lemma run_comment (prev : option char) (s : str) :
  run commentRegex prev s = comment_parse s.
Proof.
  rewrite commentRegex_eq. unfold comment_parse.
  rewrite run_chr. destruct s as [|a [|b s1]]; auto.
  - now destruct (47 =? a).
  - destruct (47 =? a); auto. rewrite run_chr.
    destruct (47 =? b); auto. cbn [andb].
    rewrite run_star_det
      by (apply refuses_plus; exact space_not_digit).
    rewrite run_plus_det
      by (apply refuses_chr; reflexivity).
    cbn [with_group].
    destruct (takeWhile is_digit (dropWhile is_space s1)) as [|c id]; auto.
    rewrite run_chr.
    destruct (dropWhile is_digit (dropWhile is_space s1)) as [|d s4]; auto.
    destruct (58 =? d); auto.
    now rewrite run_star_last.
Qed.

Lemma stops_app_head (p : char -> bool) (w rest : str) (q : char -> bool) :
  w <> [] -> all q w -> (forall c, q c = true -> p c = false) ->
  stops p (w ++ rest).
Proof.
  intros Hne Hw Hd. destruct w as [|c w]; [congruence|].
  inversion Hw; subst. simpl. auto.
Qed.

(** At a label comment the pattern matches it up to the end of the line. *)
Lemma comment_parse_label (ws id path post : str) :
  all is_space ws -> id <> [] -> all is_digit id -> all is_dot path ->
  stops is_dot post ->
  comment_parse (label_comment ws id path ++ post) = Some ([id; path], post).
Proof.
  intros Hws Hne Hid Hpath Hpost.
  unfold label_comment. cbn [lit app]. repeat rewrite <- app_assoc.
  cbn [app]. unfold comment_parse.
  change (47 =? N_of_ascii "/") with true. cbn [andb].
  assert (Hs1 : stops is_space (id ++ N_of_ascii ":" :: path ++ post))
    by (eapply stops_app_head; eauto using digit_not_space).
  assert (Hs2 : stops is_digit (N_of_ascii ":" :: path ++ post))
    by reflexivity.
  rewrite (@dropWhile_app _ _ _ Hws Hs1).
  rewrite (@takeWhile_app _ _ _ Hid Hs2), (@dropWhile_app _ _ _ Hid Hs2).
  destruct id as [|c id]; [congruence|].
  change (58 =? N_of_ascii ":") with true. cbv iota.
  now rewrite (@takeWhile_app _ _ _ Hpath Hpost), (@dropWhile_app _ _ _ Hpath Hpost).
Qed.

Lemma takeWhile_app_cases (p : char -> bool) (a b : str) :
  takeWhile p (a ++ b)
  = if forallb p a then a ++ takeWhile p b else takeWhile p a.
Proof.
  induction a as [|c a IH]; simpl; auto.
  destruct (p c); simpl; auto. rewrite IH. now destruct (forallb p a).
Qed.

Lemma dropWhile_app_cases (p : char -> bool) (a b : str) :
  dropWhile p (a ++ b)
  = if forallb p a then dropWhile p b else dropWhile p a ++ b.
Proof.
  induction a as [|c a IH]; simpl; auto.
  destruct (p c); simpl; auto.
Qed.

Lemma dropWhile_nonempty (p : char -> bool) (a : str) :
  forallb p a = false -> dropWhile p a <> [].
Proof.
  induction a as [|c a IH]; simpl; [discriminate|].
  destruct (p c); simpl; [auto | discriminate].
Qed.

Lemma dropWhile_stop (p : char -> bool) (t : str) :
  stops p t -> dropWhile p t = t.
Proof. destruct t as [|c t]; simpl; auto. now intros ->. Qed.

Lemma takeWhile_stop (p : char -> bool) (t : str) :
  stops p t -> takeWhile p t = [].
Proof. destruct t as [|c t]; simpl; auto. now intros ->. Qed.

Lemma dropWhile_app_length (p : char -> bool) (a t : str) :
  stops p t -> (length t <= length (dropWhile p (a ++ t)))%nat.
Proof.
  intros Hs. induction a as [|c a IH]; simpl.
  - now rewrite dropWhile_stop.
  - destruct (p c); simpl; auto. rewrite length_app. lia.
Qed.

Lemma suffix_of_line_start (pre pre1 suf : str) :
  line_start pre -> pre = pre1 ++ suf -> suf <> [] ->
  exists suf0, suf = suf0 ++ [newline].
Proof.
  intros [->|(pre0 & ->)] H Hne.
  - symmetry in H. apply app_eq_nil in H. tauto.
  - destruct (exists_last Hne) as (suf0 & x & ->).
    rewrite app_assoc in H. apply app_inj_tail in H. destruct H as [_ <-].
    now exists suf0.
Qed.

(** A match of the comment pattern that starts before a line that begins
    with a slash ends before it. *)
Lemma comment_parse_before_line (suf0 s' : str) (caps : list str) (rest : str) :
  comment_parse ((suf0 ++ [newline]) ++ 47 :: s') = Some (caps, rest) ->
  (length (47%N :: s') <= length rest)%nat.
Proof.
  rewrite <- app_assoc. cbn [app].
  set (t := newline :: 47 :: s').
  assert (Ht : (length (47%N :: s') <= length t)%nat) by (simpl; lia).
  assert (Hdot : stops is_dot t) by reflexivity.
  destruct suf0 as [|a [|b suf1]]; cbn [app]; unfold comment_parse.
  - subst t. simpl. discriminate.
  - subst t. destruct (47 =? a); simpl; discriminate.
  - destruct ((47 =? a) && (47 =? b)); [|discriminate].
    rewrite dropWhile_app_cases.
    destruct (forallb is_space suf1) eqn:E1.
    + subst t. simpl. discriminate.
    + rewrite takeWhile_app_cases, dropWhile_app_cases.
      destruct (forallb is_digit (dropWhile is_space suf1)) eqn:E2.
      * subst t. cbn [takeWhile dropWhile].
        change (is_digit newline) with false. cbv iota.
        rewrite app_nil_r.
        destruct (dropWhile is_space suf1); discriminate.
      * pose proof (dropWhile_nonempty _ _ E2) as Hne.
        destruct (takeWhile is_digit (dropWhile is_space suf1));
          [discriminate|].
        destruct (dropWhile is_digit (dropWhile is_space suf1)) as [|x e'];
          [congruence|].
        cbn [app]. destruct (58 =? x); [|discriminate].
        intros [= _ <-].
        pose proof (dropWhile_app_length is_dot e' t Hdot). lia.
Qed.

(** ** The loop over the matches *)

Lemma run_suffix (r : regex) (prev : option char) (s : str)
  (caps : list str) (rest : str) :
  run r prev s = Some (caps, rest) -> (length rest <= length s)%nat.
Proof.
  intros H. destruct (run_sound _ _ _ H) as (w & -> & _).
  rewrite length_app. lia.
Qed.


Lemma closed_before_tail (r : regex) (prev : option char) (c : char)
  (pre s : str) :
  closed_before r prev (c :: pre) s -> closed_before r (Some c) pre s.
Proof.
  intros H pre1 suf caps rest -> Hne Hrun.
  apply (H (c :: pre1) suf caps rest); auto. now rewrite prev_after_cons.
Qed.

Lemma exec_all_boundary (r : regex) (pre s : str) :
  forall prev skip,
    closed_before r prev pre s -> (skip <= length pre)%nat ->
    exists front,
      exec_all r prev skip (pre ++ s)
      = front ++ exec_all r (prev_after pre prev) 0 s.
Proof.
  induction pre as [|c pre IH]; intros prev skip Hc Hs.
  - simpl in Hs. assert (skip = 0%nat) by lia. subst. exists []. reflexivity.
  - pose proof (closed_before_tail Hc) as Hc'.
    rewrite prev_after_cons. simpl app.
    destruct skip as [|n].
    + cbn [exec_all].
      destruct (run r prev (c :: pre ++ s)) as [[caps rest]|] eqn:E.
      * assert (Hl : (length s <= length rest)%nat).
        { apply (Hc [] (c :: pre) caps rest); auto. discriminate. }
        pose proof (run_suffix _ _ _ E) as Hl'.
        destruct (IH (Some c) (matched_len (c :: pre ++ s) rest - 1)%nat Hc')
          as (front & ->).
        { assert (length (c :: pre ++ s) = S (length pre + length s))
            by (simpl; rewrite length_app; lia).
          unfold matched_len. lia. }
        exists (caps :: front). reflexivity.
      * apply IH; auto. lia.
    + cbn [exec_all]. apply IH; auto. simpl in Hs. lia.
Qed.

Lemma exec_all_head (r : regex) (prev : option char) (s : str)
  (caps : list str) (rest : str) :
  run r prev s = Some (caps, rest) -> In caps (exec_all r prev 0 s).
Proof. intros H. destruct s; simpl; rewrite H; now left. Qed.

Lemma comment_closed_before (prev : option char) (pre s' : str) :
  line_start pre -> closed_before commentRegex prev pre (47 :: s').
Proof.
  intros Hl pre1 suf caps rest Hpre Hne Hrun.
  destruct (@suffix_of_line_start pre pre1 suf Hl Hpre Hne) as (suf0 & ->).
  rewrite run_comment in Hrun.
  now apply comment_parse_before_line in Hrun.
Qed.

(** A label comment at the start of a line is among the matches. *)
Lemma label_comment_found (pre ws id path post : str) :
  line_start pre ->
  all is_space ws -> id <> [] -> all is_digit id -> all is_dot path ->
  stops is_dot post ->
  In (id, path) (comment_entries (pre ++ label_comment ws id path ++ post)).
Proof.
  intros Hl Hws Hne Hid Hpath Hpost.
  unfold comment_entries, matches.
  destruct (@exec_all_boundary commentRegex pre
              (label_comment ws id path ++ post) None 0%nat)
    as (front & ->).
  - unfold label_comment. cbn [lit app].
    change (N_of_ascii "/") with 47. now apply comment_closed_before.
  - lia.
  - apply in_flat_map. exists [id; path]. split; [|now left].
    apply in_or_app. right.
    apply exec_all_head with (rest := post).
    rewrite run_comment. now apply comment_parse_label.
Qed.

Lemma exec_all_sound (r : regex) (s : str) :
  forall prev skip,
    Forall (fun caps =>
              exists pre w rest,
                s = pre ++ w ++ rest
                /\ Matches r (prev_after pre prev) w rest caps)
           (exec_all r prev skip s).
Proof.
  induction s as [|c s IH]; intros prev skip.
  - destruct skip; simpl; [|constructor].
    destruct (run r prev []) as [[caps rest]|] eqn:E; constructor; auto.
    destruct (run_sound _ _ _ E) as (w & Hs & Hm).
    exists [], w, rest. auto.
  - assert (Htail : forall n,
               Forall (fun caps =>
                         exists pre w rest,
                           c :: s = pre ++ w ++ rest
                           /\ Matches r (prev_after pre prev) w rest caps)
                      (exec_all r (Some c) n s)).
    { intros n. eapply Forall_impl; [|apply (IH (Some c) n)].
      intros caps (pre & w & rest & -> & Hm).
      exists (c :: pre), w, rest. split; auto. now rewrite prev_after_cons. }
    destruct skip; simpl; auto.
    destruct (run r prev (c :: s)) as [[caps rest]|] eqn:E; auto.
    constructor; auto.
    destruct (run_sound _ _ _ E) as (w & Hs & Hm).
    exists [], w, rest. auto.
Qed.

Lemma Matches_comment (prev : option char) (w rest : str) (caps : list str) :
  Matches commentRegex prev w rest caps ->
  exists ws id path,
    caps = [id; path] /\ w = label_comment ws id path
    /\ label_parts ws id path.
Proof.
  rewrite commentRegex_eq. intros H. DialectFacts.inv_matches H.
  eexists _, _, _. split; [reflexivity|]. split.
  - unfold label_comment. cbn [lit app]. rewrite app_nil_r. reflexivity.
  - repeat split; auto. now apply DialectFacts.nonempty_length.
Qed.

Lemma comment_entries_sound (text : str) :
  Forall (fun e => contains (comment_of e) text) (comment_entries text).
Proof.
  unfold comment_entries, matches.
  pose proof (exec_all_sound commentRegex text None 0) as H.
  induction H as [|caps ms (pre & w & rest & Ht & Hm) _ IH]; simpl;
    [constructor|].
  apply Forall_app. split; auto.
  destruct (Matches_comment Hm) as (ws & id & path & -> & -> & Hp).
  constructor; [|constructor].
  exists pre, (label_comment ws id path), rest. split; auto.
  exists ws. auto.
Qed.

Lemma no_comment_no_match (text : str) :
  ~ contains label_comment_text text -> matches commentRegex text = [].
Proof.
  intros H. apply matches_nil_iff.
  intros (pre & w & rest & caps & -> & Hm). apply H.
  destruct (Matches_comment Hm) as (ws & id & path & _ & -> & Hp).
  exists pre, (label_comment ws id path), rest. split; auto.
  exists ws, id, path. auto.
Qed.

(** Later matches overwrite earlier ones. *)
Lemma fold_record_label (ms : list (list str)) :
  forall (m0 : OMap.t (list N)) (id : str),
    OMap.get id (fold_left record_label ms m0)
    = match last_with id (flat_map entry_of ms) with
      | Some fullPath => Some (Path.basename fullPath)
      | None => OMap.get id m0
      end.
Proof.
  induction ms as [|caps ms IH]; intros m0 id; simpl; auto.
  rewrite IH.
  destruct caps as [|k [|v [|? ?]]]; simpl; auto.
  destruct (last_with id (flat_map entry_of ms)); auto.
  destruct (str_eqb id k) eqn:E.
  - apply str_eqb_eq in E. subst. apply get_set_same.
  - apply str_eqb_neq in E. now apply get_set_other.
Qed.

(** C7: the code on a text without any label comment.  No line of this
    text is a label comment, or holds one, so that the map should be
    empty; the white space of the pattern runs over the line break all the
    same and the map has an entry for 7, read from the line after the
    bare comment, a line that the rewriting steps take for no comment and
    leave in the output. *)
Lemma comment_across_lines :
  split_on newline cut_comment = [lit "//"; lit "7:/a/x.py"; []]
  /\ forallb (fun l => negb (test commentRegex l))
             (split_on newline cut_comment) = true
  /\ idToLabel_of cut_comment = [(lit "7", lit "x.py")]
  /\ convertDotText cut_comment = lit "7:/a/x.py" ++ [newline].
Proof. vm_compute. repeat split. Qed.

(** The map as the code builds it: for every text, the entry of an id in
    the map is the basename of the path of the last comment matched with
    that id,
    and there is none when no comment was matched with it; every label
    comment that starts a line (two slashes, white space, digits, a colon,
    the path up to the end of the line) is matched; every match is such a
    comment somewhere in the text, its white space being free to hold line
    breaks; a text without any yields the empty map. *)
Theorem idToLabel_of_comments (text : str) :
  (forall id,
      OMap.get id (idToLabel_of text)
      = option_map Path.basename (last_with id (comment_entries text)))
  /\ (forall pre ws id path post,
         text = pre ++ label_comment ws id path ++ post ->
         line_start pre -> label_parts ws id path -> stops is_dot post ->
         In (id, path) (comment_entries text))
  /\ Forall (fun e => contains (comment_of e) text)
            (comment_entries text)
  /\ (~ contains label_comment_text text -> idToLabel_of text = []).
Proof.
  repeat split.
  - intros id. unfold idToLabel_of, comment_entries.
    rewrite fold_record_label.
    now destruct (last_with id (flat_map entry_of (matches commentRegex text))).
  - intros pre ws id path post -> Hl (Hws & Hne & Hid & Hpath) Hpost.
    now apply label_comment_found.
  - apply comment_entries_sound.
  - intros H. unfold idToLabel_of. now rewrite (no_comment_no_match H).
Qed.

(** The same id on two comment lines: the second one wins. *)
Lemma idToLabel_of_twice :
  OMap.get (lit "7")
    (idToLabel_of
       (lit "// 7:/a/b/main.py" ++ [newline] ++ lit "// 7:/c/other.py"
        ++ [newline] ++ lit "7 -> 9;" ++ [newline]))
  = Some (lit "other.py").
Proof.
  rewrite (proj1 (idToLabel_of_comments _)). vm_compute. reflexivity.
Defined.

End CommentFacts.

(* ================================================================== *)
(** * [replace] with the g flag, step by step *)

Unset Implicit Arguments.

Module ReplaceFacts.
Import Regex RegexFacts RegexEval.

Section Replace.
Variable r : regex.
Variable f : list str -> str.

Lemma replace_skip (w s : str) :
  forall prev,
    replace r f prev (length w) (w ++ s) = replace r f (prev_after w prev) 0 s.
Proof.
  induction w as [|c w IH]; intros prev; auto.
  rewrite prev_after_cons. simpl. apply IH.
Qed.

(** A match is replaced and the scan resumes behind it. *)
Lemma replace_hit (prev : option char) (w rest : str) (caps : list str) :
  w <> [] -> run r prev (w ++ rest) = Some (caps, rest) ->
  replace r f prev 0 (w ++ rest)
  = f caps ++ replace r f (prev_after w prev) 0 rest.
Proof.
  intros Hne Hrun. destruct w as [|c w]; [congruence|].
  cbn [app replace]. cbn [app] in Hrun. rewrite Hrun.
  assert (Hl : matched_len (c :: w ++ rest) rest = S (length w)).
  { unfold matched_len.
    change (length (c :: w ++ rest)) with (S (length (w ++ rest))).
    rewrite length_app. lia. }
  rewrite Hl, prev_after_cons. f_equal. apply replace_skip.
Qed.

(** Where nothing matches the character is copied. *)
Lemma replace_miss (prev : option char) (c : char) (s : str) :
  run r prev (c :: s) = None ->
  replace r f prev 0 (c :: s) = c :: replace r f (Some c) 0 s.
Proof. intros H. simpl. now rewrite H. Qed.

Lemma replace_end (prev : option char) :
  run r prev [] = None -> replace r f prev 0 [] = [].
Proof. intros H. simpl. now rewrite H. Qed.

End Replace.

(** ** Expressions anchored at the start of a line *)


Lemma at_bol_dot (c : char) : is_dot c = true -> at_bol (Some c) = false.
Proof. apply dot_not_terminator. Qed.

Section Anchored.
Variable r : regex.
Variable f : list str -> str.
Hypothesis Hr : anchored r.

(** Inside a line nothing matches: the line is copied up to its end. *)
Lemma replace_inline (w s : str) :
  forall prev,
    all is_dot w -> at_bol prev = false ->
    replace r f prev 0 (w ++ s) = w ++ replace r f (prev_after w prev) 0 s
    /\ at_bol (prev_after w prev) = false.
Proof.
  induction w as [|c w IH]; intros prev Hw Hb; [auto|].
  inversion Hw as [|? ? Hc Hw']; subst.
  rewrite prev_after_cons. cbn [app].
  rewrite replace_miss by now apply Hr.
  destruct (IH (Some c) Hw' (at_bol_dot _ Hc)) as [-> H]. auto.
Qed.

Lemma replace_to_eol (w s : str) (prev : option char) :
  all is_dot w -> at_bol prev = false ->
  replace r f prev 0 (w ++ newline :: s)
  = w ++ newline :: replace r f (Some newline) 0 s.
Proof.
  intros Hw Hb. destruct (replace_inline w (newline :: s) prev Hw Hb) as [-> H].
  f_equal. now rewrite replace_miss by now apply Hr.
Qed.

(** A line at whose start nothing matches is copied. *)
Lemma replace_line_kept (w s : str) (prev : option char) :
  all is_dot w ->
  run r prev (w ++ newline :: s) = None ->
  replace r f prev 0 (w ++ newline :: s)
  = w ++ newline :: replace r f (Some newline) 0 s.
Proof.
  intros Hw Hrun. destruct w as [|c w].
  - cbn [app] in *. now rewrite replace_miss.
  - inversion Hw as [|? ? Hc Hw']; subst. cbn [app] in *.
    rewrite replace_miss by assumption.
    now rewrite replace_to_eol by (auto using at_bol_dot).
Qed.

End Anchored.

End ReplaceFacts.

(* ================================================================== *)
(** * The three patterns of the rewriter, with the longest runs *)


Module RewriteRun.
Import Regex RegexFacts RegexEval Converter.
Local Open Scope N_scope.

Lemma edgeLineRegex_eq :
  edgeLineRegex
  = [Bol; Cls is_space Star true; Cls is_digit Plus true;
     Cls is_space Plus false; Chr 45; Chr 62; Cls is_space Plus false;
     Cls is_digit Plus true; Chr 59].
Proof. reflexivity. Qed.

Lemma run_edge (prev : option char) (s : str) :
  run edgeLineRegex prev s = if at_bol prev then edge_parse s else None.
Proof.
  rewrite edgeLineRegex_eq, run_bol. destruct (at_bol prev); auto.
  unfold edge_parse, edge_tail_parse.
  rewrite run_star_det by (apply refuses_plus; exact space_not_digit).
  generalize (prev_after (takeWhile is_space s) prev).
  generalize (dropWhile is_space s) as s1. intros s1 prev1.
  f_equal.
  rewrite run_plus_det by (apply refuses_plus; exact digit_not_space).
  destruct (takeWhile is_digit s1) as [|a0 a]; auto. cbv zeta.
  generalize (prev_after (a0 :: a) prev1).
  generalize (dropWhile is_digit s1) as s2. intros s2 prev2.
  rewrite run_plus_det by (apply refuses_chr; reflexivity).
  destruct (takeWhile is_space s2) as [|w0 w]; auto. cbv zeta.
  generalize (prev_after (w0 :: w) prev2).
  generalize (dropWhile is_space s2) as s2'. intros s2' prev3.
  cbn [with_group]. rewrite run_chr.
  destruct s2' as [|x [|y s3]]; auto.
  - now destruct (45 =? x).
  - destruct (45 =? x); auto. rewrite run_chr.
    destruct (62 =? y); auto. cbn [andb].
    rewrite run_plus_det by (apply refuses_plus; exact space_not_digit).
    destruct (takeWhile is_space s3) as [|v0 v]; auto. cbv zeta.
    generalize (prev_after (v0 :: v) (Some y)).
    generalize (dropWhile is_space s3) as s4. intros s4 prev4.
    cbn [with_group].
    rewrite run_plus_det by (apply refuses_chr; reflexivity).
    destruct (takeWhile is_digit s4) as [|b0 b]; auto. cbv zeta.
    rewrite run_chr.
    destruct (dropWhile is_digit s4) as [|z out]; auto.
    destruct (59 =? z); auto.
Qed.

Lemma commentLineRegex_eq :
  commentLineRegex = [Bol; Chr 47; Chr 47; Cls is_dot Star false; Eol].
Proof. reflexivity. Qed.

Lemma at_eol_dropWhile_dot (s : str) : at_eol (dropWhile is_dot s) = true.
Proof.
  pose proof (dropWhile_stops is_dot s) as H.
  destruct (dropWhile is_dot s) as [|c r]; auto. simpl in *.
  unfold is_dot in H. now apply negb_false_iff in H.
Qed.

Lemma run_comment_line (prev : option char) (s : str) :
  run commentLineRegex prev s
  = if at_bol prev then comment_line_parse s else None.
Proof.
  rewrite commentLineRegex_eq, run_bol. destruct (at_bol prev); auto.
  unfold comment_line_parse. rewrite run_chr.
  destruct s as [|a [|b s1]]; auto.
  - now destruct (47 =? a).
  - destruct (47 =? a); auto. rewrite run_chr.
    destruct (47 =? b); auto. cbn [andb].
    rewrite run_star_det by (apply refuses_eol; exact dot_not_terminator).
    cbn [with_group run]. now rewrite at_eol_dropWhile_dot.
Qed.

Lemma blankLineRegex_eq :
  blankLineRegex = [Bol; Cls is_space Star false; Cls is_cr_or_lf One false].
Proof. reflexivity. Qed.

Lemma greedy_ext (R : Type) (p : char -> bool) (s : str) :
  forall k k' : str -> str -> option R,
    (forall w r, k w r = k' w r) -> greedy p k s = greedy p k' s.
Proof.
  induction s as [|c s IH]; intros k k' H; simpl; auto.
  destruct (p c); auto.
  rewrite (IH (fun w r => k (c :: w) r) (fun w r => k' (c :: w) r)), H; auto.
Qed.


Lemma greedy_break (s : str) :
  greedy is_space (fun _ rest => break_here rest) s = blank_parse s.
Proof.
  unfold blank_parse. induction s as [|c s IH]; simpl; auto.
  destruct (is_space c) eqn:Hc; simpl.
  - rewrite IH.
    destruct (last_break (takeWhile is_space s)) as [[a b]|]; auto.
    destruct (is_cr_or_lf c); auto. rewrite take_drop. reflexivity.
  - destruct (is_cr_or_lf c) eqn:Hb; auto.
    apply cr_or_lf_is_terminator, terminator_is_space in Hb. congruence.
Qed.

Lemma run_blank (prev : option char) (s : str) :
  run blankLineRegex prev s = if at_bol prev then blank_parse s else None.
Proof.
  rewrite blankLineRegex_eq, run_bol. destruct (at_bol prev); auto.
  rewrite run_cls. cbn [rep]. rewrite <- greedy_break.
  apply greedy_ext. intros w r. simpl.
  destruct r as [|c r]; auto. unfold break_here.
  now destruct (is_cr_or_lf c).
Qed.

End RewriteRun.

(* ================================================================== *)
(** * Texts made of lines *)


Module RewriteFacts.
Import Regex RegexFacts RegexEval Converter RewriteRun.
Import ReplaceFacts.
Local Open Scope N_scope.

Lemma render_cons (t : str) (ts : list str) :
  render (t :: ts) = t ++ newline :: render ts.
Proof. unfold render. simpl. now rewrite <- app_assoc. Qed.

Lemma takeWhile_app_all (p : char -> bool) (w s : str) :
  all p w -> takeWhile p (w ++ s) = w ++ takeWhile p s.
Proof. induction 1 as [|c w Hc _ IH]; simpl; auto. now rewrite Hc, IH. Qed.

Lemma dropWhile_app_all (p : char -> bool) (w s : str) :
  all p w -> dropWhile p (w ++ s) = dropWhile p s.
Proof. induction 1 as [|c w Hc _ IH]; simpl; auto. now rewrite Hc. Qed.

Lemma all_app (p : char -> bool) (a b : str) :
  all p (a ++ b) <-> all p a /\ all p b.
Proof. apply Forall_app. Qed.

Lemma all_impl (p q : char -> bool) (w : str) :
  (forall c, p c = true -> q c = true) -> all p w -> all q w.
Proof. intros H. apply Forall_impl. exact H. Qed.

Lemma inline_is_space (c : char) : is_inline c = true -> is_space c = true.
Proof. unfold is_inline. now intros [H _]%andb_true_iff. Qed.

Lemma inline_is_dot (c : char) : is_inline c = true -> is_dot c = true.
Proof. unfold is_inline. now intros [_ H]%andb_true_iff. Qed.

Lemma prev_after_dot (w : str) (prev : option char) :
  w <> [] -> all is_dot w -> at_bol (prev_after w prev) = false.
Proof.
  intros Hne Hw. destruct (exists_last Hne) as (w0 & c & ->).
  rewrite prev_after_last. apply at_bol_dot.
  apply all_app in Hw. destruct Hw as [_ Hc]. now inversion Hc.
Qed.

Lemma replace_hit_eq (r : regex) (f : list str -> str) (prev : option char)
  (s w rest : str) (caps : list str) :
  s = w ++ rest -> w <> [] -> run r prev s = Some (caps, rest) ->
  replace r f prev 0 s = f caps ++ replace r f (prev_after w prev) 0 rest.
Proof. intros -> Hne Hrun. now apply replace_hit. Qed.

(** ** The first [replace]: the edges *)

Lemma quoted_edge_split (m : OMap.t str) (sp a b : str) :
  quoted_edge m sp a b = sp ++ quoted_part m a b.
Proof. reflexivity. Qed.

Lemma edge_tail_parse_inv (D : str) (caps : list str) (out : str) :
  edge_tail_parse D = Some (caps, out) ->
  exists a b M, caps = [a; b] /\ D = (M ++ [59]) ++ out.
Proof.
  intros H. unfold edge_tail_parse in H.
  destruct (takeWhile is_digit D) as [|a0 a] eqn:Ea; [discriminate|].
  destruct (takeWhile is_space (dropWhile is_digit D)) as [|w0 w] eqn:Ew;
    [discriminate|].
  destruct (dropWhile is_space (dropWhile is_digit D)) as [|x [|y s3]] eqn:Es3;
    try discriminate.
  destruct ((45 =? x) && (62 =? y)); [|discriminate].
  destruct (takeWhile is_space s3) as [|v0 v] eqn:Ev; [discriminate|].
  destruct (takeWhile is_digit (dropWhile is_space s3)) as [|b0 b] eqn:Eb;
    [discriminate|].
  destruct (dropWhile is_digit (dropWhile is_space s3)) as [|z out'] eqn:Eo;
    [discriminate|].
  destruct (59 =? z) eqn:Ez; [|discriminate].
  injection H as <- <-. apply N.eqb_eq in Ez. subst z.
  exists (a0 :: a), (b0 :: b),
    ((a0 :: a) ++ (w0 :: w) ++ x :: y :: (v0 :: v) ++ (b0 :: b)).
  split; auto.
  rewrite <- (take_drop is_digit D) at 1. rewrite Ea.
  rewrite <- (take_drop is_space (dropWhile is_digit D)), Ew, Es3.
  rewrite <- (take_drop is_space s3), Ev.
  rewrite <- (take_drop is_digit (dropWhile is_space s3)), Eb, Eo.
  repeat (rewrite <- ?app_assoc; cbn [app]). reflexivity.
Qed.

Section Edges.
Variable m : OMap.t str.

Let f := rewrite_edge m.

Lemma edge_hit (prev : option char) (s a b out : str) :
  at_bol prev = true ->
  edge_tail_parse (dropWhile is_space s) = Some ([a; b], out) ->
  replace edgeLineRegex f prev 0 s
  = takeWhile is_space s ++ quoted_part m a b
    ++ replace edgeLineRegex f (Some 59) 0 out.
Proof.
  intros Hb Hp.
  destruct (edge_tail_parse_inv _ _ _ Hp) as (a' & b' & M & _ & HD).
  assert (Hs : s = (takeWhile is_space s ++ M ++ [59]) ++ out).
  { rewrite <- (take_drop is_space s) at 1. rewrite HD.
    now rewrite <- !app_assoc. }
  rewrite (replace_hit_eq _ f prev s _ out [takeWhile is_space s; a; b] Hs).
  - rewrite (app_assoc _ M), prev_after_last.
    unfold f, rewrite_edge. rewrite quoted_edge_split.
    now rewrite <- !app_assoc.
  - intros H. apply app_eq_nil in H. destruct H as [_ H].
    apply app_eq_nil in H. destruct H as [_ H]. discriminate.
  - rewrite run_edge, Hb. unfold edge_parse. now rewrite Hp.
Qed.

Lemma edge_miss (prev : option char) (s : str) :
  edge_tail_parse (dropWhile is_space s) = None ->
  run edgeLineRegex prev s = None.
Proof.
  intros H. rewrite run_edge. destruct (at_bol prev); auto.
  unfold edge_parse. now rewrite H.
Qed.

(** White space in front of something that is not an edge is copied. *)
Lemma edge_miss_space (s : str) :
  edge_tail_parse (dropWhile is_space s) = None ->
  forall w prev,
    all is_space w ->
    replace edgeLineRegex f prev 0 (w ++ s)
    = w ++ replace edgeLineRegex f (prev_after w prev) 0 s.
Proof.
  intros H w. induction w as [|c w IH]; intros prev Hw; auto.
  inversion Hw as [|? ? Hc Hw']; subst.
  rewrite prev_after_cons. cbn [app].
  rewrite replace_miss.
  - now rewrite IH.
  - apply edge_miss. change (c :: w ++ s) with ((c :: w) ++ s).
    now rewrite dropWhile_app_all.
Qed.

(** White space between two line starts can be set aside. *)
Lemma edge_peel_space (w s : str) (prev : option char) :
  all is_space w -> at_bol prev = true ->
  at_bol (prev_after w prev) = true ->
  replace edgeLineRegex f prev 0 (w ++ s)
  = w ++ replace edgeLineRegex f (prev_after w prev) 0 s.
Proof.
  intros Hw Hb Hb'.
  destruct (edge_tail_parse (dropWhile is_space s)) as [[caps out]|] eqn:E.
  - destruct (edge_tail_parse_inv _ _ _ E) as (a & b & M & -> & _).
    rewrite (edge_hit prev (w ++ s) a b out Hb)
      by now rewrite dropWhile_app_all.
    rewrite (edge_hit _ s a b out Hb' E).
    rewrite takeWhile_app_all by assumption.
    now rewrite <- !app_assoc.
  - now apply edge_miss_space.
Qed.

End Edges.

Lemma stops_head (p q : char -> bool) (w rest : str) :
  w <> [] -> all q w -> (forall c, q c = true -> p c = false) ->
  stops p (w ++ rest).
Proof.
  intros Hne Hw Hd. destruct w as [|c w]; [congruence|].
  inversion Hw; subst. simpl. auto.
Qed.

Lemma inline_not_digit (c : char) : is_inline c = true -> is_digit c = false.
Proof. intros H. now apply space_not_digit, inline_is_space. Qed.

(** The edge pattern on an edge line. *)
Lemma edge_tail_parse_edge (from sp1 sp2 to out : str) :
  digits from -> gap sp1 -> gap sp2 -> digits to ->
  edge_tail_parse (from ++ sp1 ++ lit "->" ++ sp2 ++ to ++ lit ";" ++ out)
  = Some ([from; to], out).
Proof.
  intros [Ha Da] [H1 S1] [H2 S2] [Hb Db].
  pose proof (all_impl _ _ _ inline_is_space S1) as S1'.
  pose proof (all_impl _ _ _ inline_is_space S2) as S2'.
  cbn [lit app]. change (N_of_ascii "-") with 45.
  change (N_of_ascii ">") with 62. change (N_of_ascii ";") with 59.
  unfold edge_tail_parse.
  assert (E1 : stops is_digit (sp1 ++ 45 :: 62 :: sp2 ++ to ++ 59 :: out))
    by (apply (stops_head is_digit is_inline); auto using inline_not_digit).
  rewrite (@takeWhile_app _ _ _ Da E1), (@dropWhile_app _ _ _ Da E1).
  destruct from as [|a0 from]; [congruence|].
  assert (E2 : stops is_space (45 :: 62 :: sp2 ++ to ++ 59 :: out))
    by reflexivity.
  rewrite (@takeWhile_app _ _ _ S1' E2), (@dropWhile_app _ _ _ S1' E2).
  destruct sp1 as [|x1 sp1]; [congruence|].
  cbn [N.eqb Pos.eqb andb].
  assert (E3 : stops is_space (to ++ 59 :: out))
    by (apply (stops_head is_space is_digit); auto using digit_not_space).
  rewrite (@takeWhile_app _ _ _ S2' E3), (@dropWhile_app _ _ _ S2' E3).
  destruct sp2 as [|x2 sp2]; [congruence|].
  assert (E4 : stops is_digit (59 :: out)) by reflexivity.
  rewrite (@takeWhile_app _ _ _ Db E4), (@dropWhile_app _ _ _ Db E4).
  destruct to as [|b0 to]; [congruence|]. reflexivity.
Qed.

Ltac all_dot :=
  repeat first
    [ assumption
    | apply Forall_nil
    | apply Forall_cons; [reflexivity|]
    | apply all_app; split
    | eapply all_impl; [exact inline_is_dot | eassumption]
    | eapply all_impl; [exact digit_is_dot | eassumption] ].

(** The text of every line is free of line terminators. *)
Lemma line_text_dot (l : line) : wf_line l -> all is_dot (line_text l).
Proof.
  destruct l as [ws|body|ws from sp1 sp2 to tail|ws c body]; simpl.
  - intros H. all_dot.
  - intros H. all_dot.
  - intros (Hws & [_ Ha] & [_ H1] & [_ H2] & [_ Hb] & Ht). all_dot.
  - intros (Hws & Hc & _ & Hb & _).
    apply all_app. split; [all_dot|].
    constructor; auto. unfold is_dot.
    destruct (is_line_terminator c) eqn:E; auto.
    apply terminator_is_space in E. congruence.
Qed.

(** ** Lines that are no edge *)

Lemma span_before (p : char -> bool) (a s : str) (c : char) :
  p c = false ->
  takeWhile p (a ++ c :: s) = takeWhile p a
  /\ dropWhile p (a ++ c :: s) = dropWhile p a ++ c :: s.
Proof.
  intros Hc. induction a as [|d a [IH1 IH2]]; cbn [app takeWhile dropWhile].
  - now rewrite Hc.
  - destruct (p d); [now rewrite IH1, IH2 | now split].
Qed.

Lemma span_inside (p : char -> bool) (a s : str) (x : char) (r : str) :
  dropWhile p a = x :: r ->
  takeWhile p (a ++ s) = takeWhile p a
  /\ dropWhile p (a ++ s) = x :: r ++ s.
Proof.
  induction a as [|d a IH]; cbn [app takeWhile dropWhile]; [discriminate|].
  destruct (p d).
  - intros H. destruct (IH H) as [-> ->]. now split.
  - intros [= -> ->]. now split.
Qed.

(** Where the scan of a line finds no edge, and no beginning of one at the
    end of the line, the pattern fails whatever follows the line. *)
Lemma edge_scan_miss (t rest : str) :
  edge_scan t = Miss -> edge_tail_parse (t ++ newline :: rest) = None.
Proof.
  unfold edge_scan, edge_tail_parse. intros H.
  destruct (span_before is_digit t rest newline eq_refl) as [-> ->].
  destruct (takeWhile is_digit t) as [|a0 a]; [reflexivity|].
  destruct (dropWhile is_space (dropWhile is_digit t)) as [|x r] eqn:E1;
    [discriminate H|].
  destruct (span_inside is_space _ (newline :: rest) _ _ E1) as [-> ->].
  destruct r as [|y r2]; cbn [app].
  - destruct (takeWhile is_space (dropWhile is_digit t)); [reflexivity|].
    change (62 =? newline) with false. now rewrite andb_false_r.
  - destruct (takeWhile is_space (dropWhile is_digit t)) as [|w0 w];
      [reflexivity|].
    destruct ((45 =? x) && (62 =? y)); [|reflexivity].
    destruct (dropWhile is_space r2) as [|z r3] eqn:E2; [discriminate H|].
    destruct (span_inside is_space _ (newline :: rest) _ _ E2) as [-> ->].
    destruct (takeWhile is_space r2) as [|v0 v]; [reflexivity|].
    change (z :: r3 ++ newline :: rest)
      with ((z :: r3) ++ newline :: rest).
    destruct (span_before is_digit (z :: r3) rest newline eq_refl)
      as [-> ->].
    destruct (takeWhile is_digit (z :: r3)) as [|b0 b]; [reflexivity|].
    destruct (dropWhile is_digit (z :: r3)) as [|z' tail]; cbn [app].
    + reflexivity.
    + destruct (59 =? z'); [discriminate H | reflexivity].
Qed.

(** The parts of an edge that the scan finds. *)
Lemma edge_scan_hit (t from sp1 sp2 to tail : str) :
  edge_scan t = Hit from sp1 sp2 to tail ->
  t = from ++ sp1 ++ lit "->" ++ sp2 ++ to ++ lit ";" ++ tail
  /\ (from <> [] /\ all is_digit from)
  /\ (sp1 <> [] /\ all is_space sp1)
  /\ (sp2 <> [] /\ all is_space sp2)
  /\ (to <> [] /\ all is_digit to).
Proof.
  unfold edge_scan. intros H.
  pose proof (take_drop is_digit t) as T1.
  pose proof (takeWhile_all is_digit t) as A1.
  destruct (takeWhile is_digit t) as [|a0 a]; [discriminate H|].
  pose proof (take_drop is_space (dropWhile is_digit t)) as T2.
  pose proof (takeWhile_all is_space (dropWhile is_digit t)) as A2.
  destruct (dropWhile is_space (dropWhile is_digit t)) as [|x [|y r2]];
    try discriminate H.
  destruct (takeWhile is_space (dropWhile is_digit t)) as [|w0 w];
    [discriminate H|].
  destruct (N.eqb_spec 45 x) as [<-|]; [|discriminate H].
  destruct (N.eqb_spec 62 y) as [<-|]; [|discriminate H].
  cbn [andb] in H.
  pose proof (take_drop is_space r2) as T3.
  pose proof (takeWhile_all is_space r2) as A3.
  destruct (dropWhile is_space r2) as [|z r3]; [discriminate H|].
  destruct (takeWhile is_space r2) as [|v0 v]; [discriminate H|].
  pose proof (take_drop is_digit (z :: r3)) as T4.
  pose proof (takeWhile_all is_digit (z :: r3)) as A4.
  destruct (takeWhile is_digit (z :: r3)) as [|b0 b]; [discriminate H|].
  destruct (dropWhile is_digit (z :: r3)) as [|z' tail']; [discriminate H|].
  destruct (N.eqb_spec 59 z') as [<-|]; [|discriminate H].
  injection H as <- <- <- <- <-.
  repeat split; try discriminate; try assumption.
  rewrite <- T1, <- T2, <- T3, <- T4.
  repeat (rewrite <- app_assoc; cbn [app lit]). reflexivity.
Qed.

Lemma all_inline (w : str) : all is_space w -> all is_dot w -> all is_inline w.
Proof.
  intros Hs. induction Hs as [|c w Hc _ IH]; intros Hd; [constructor|].
  inversion Hd as [|? ? Hc' Hd']; subst. constructor; [|now apply IH].
  unfold is_inline. now rewrite Hc, Hc'.
Qed.

Lemma starts_with_slashes_inv (t : str) :
  starts_with_slashes t = true -> t = lit "//" ++ skipn 2 t.
Proof.
  destruct t as [|a [|b t]]; try discriminate. cbn [starts_with_slashes].
  intros H. apply andb_prop in H. destruct H as [Ha Hb].
  apply N.eqb_eq in Ha, Hb. now subst.
Qed.

(** Every line that does not end inside an edge is of one of the four
    kinds. *)
Lemma classify_spec (t : str) :
  whole t -> wf_line (classify t) /\ line_text (classify t) = t.
Proof.
  intros [Hd Hc]. unfold classify, cut in *.
  destruct (starts_with_slashes t) eqn:Es.
  - cbn [wf_line line_text]. pose proof (starts_with_slashes_inv t Es) as E.
    split; [|now rewrite <- E]. rewrite E in Hd. cbn [lit app] in Hd.
    inversion Hd as [|? ? _ Hd']; subst. now inversion Hd'.
  - pose proof (take_drop is_space t) as T.
    pose proof (takeWhile_all is_space t) as A.
    pose proof (dropWhile_stops is_space t) as S.
    assert (D : all is_dot (takeWhile is_space t)
                /\ all is_dot (dropWhile is_space t))
      by (apply all_app; now rewrite T).
    destruct D as [D1 D2].
    destruct (dropWhile is_space t) as [|c body].
    + cbn [wf_line line_text]. split; [|reflexivity].
      rewrite app_nil_r in T. rewrite T in A. now apply all_inline.
    + cbn [stops] in S.
      destruct (edge_scan (c :: body)) as [| |from sp1 sp2 to tail] eqn:Ee;
        [|discriminate Hc|].
      * cbn [wf_line line_text]. split; [|exact T].
        repeat split; auto using all_inline.
        -- now inversion D2.
        -- now rewrite T.
      * destruct (edge_scan_hit _ _ _ _ _ _ Ee)
          as (E & [Hf Af] & [H1 A1] & [H2 A2] & [Ht At]).
        cbn [wf_line line_text]. rewrite <- E. split; [|exact T].
        rewrite E in D2.
        apply all_app in D2. destruct D2 as [_ D2].
        apply all_app in D2. destruct D2 as [D1' D2].
        apply all_app in D2. destruct D2 as [_ D2].
        apply all_app in D2. destruct D2 as [D2' D2].
        apply all_app in D2. destruct D2 as [_ D2].
        apply all_app in D2. destruct D2 as [_ D2].
        unfold digits, gap. repeat split; auto using all_inline.
Qed.

(** An other line is classified as itself. *)
Lemma classify_other (ws : str) (c : char) (body : str) :
  wf_line (Other ws c body) ->
  whole (ws ++ c :: body)
  /\ classify (ws ++ c :: body) = Other ws c body.
Proof.
  intros Hl. pose proof (line_text_dot _ Hl) as Hd. cbn [line_text] in Hd.
  destruct Hl as (Hws & Hc & He & Hb & Hs).
  pose proof (all_impl _ _ _ inline_is_space Hws) as Hws'.
  assert (St : stops is_space (c :: body)) by exact Hc.
  unfold whole, cut, classify.
  rewrite Hs, (@takeWhile_app _ _ _ Hws' St), (@dropWhile_app _ _ _ Hws' St).
  rewrite He. repeat split; auto.
Qed.

Lemma run_edge_nil (prev : option char) : run edgeLineRegex prev [] = None.
Proof. rewrite run_edge. now destruct (at_bol prev). Qed.

Lemma edge_anchored : anchored edgeLineRegex.
Proof. intros prev s H. now rewrite run_edge, H. Qed.

Lemma comment_line_anchored : anchored commentLineRegex.
Proof. intros prev s H. now rewrite run_comment_line, H. Qed.

Lemma blank_anchored : anchored blankLineRegex.
Proof. intros prev s H. now rewrite run_blank, H. Qed.

Section Pass1.
Variable m : OMap.t str.

(** Edges are rewritten where they stand; every other line is copied. *)
Lemma rewrite_edges_lines (ls : list line) :
  Forall wf_line ls ->
  forall prev,
    at_bol prev = true ->
    replace edgeLineRegex (rewrite_edge m) prev 0 (render (map line_text ls))
    = render (map (text1 m) ls).
Proof.
  induction 1 as [|l ls Hl _ IH]; intros prev Hb.
  - apply replace_end, run_edge_nil.
  - cbn [map]. rewrite !render_cons.
    destruct l as [ws|body|ws from sp1 sp2 to tail|ws c body].
    + (* a blank line *)
      cbn [line_text text1].
      change (ws ++ newline :: render (map line_text ls))
        with (ws ++ [newline] ++ render (map line_text ls)).
      rewrite app_assoc, edge_peel_space; auto.
      * rewrite prev_after_last, IH by reflexivity.
        now rewrite <- app_assoc.
      * apply all_app. split; [|repeat constructor].
        eapply all_impl; [exact inline_is_space | exact Hl].
      * now rewrite prev_after_last.
    + (* a comment *)
      cbn [text1].
      rewrite (replace_line_kept _ _ edge_anchored);
        [now rewrite IH|now apply line_text_dot|].
      apply edge_miss. reflexivity.
    + (* an edge *)
      destruct Hl as (Hws & Ha & H1 & H2 & Hb' & Ht).
      cbn [line_text text1].
      pose proof (all_impl _ _ _ inline_is_space Hws) as Hws'.
      assert (Es : stops is_space
                     (from ++ sp1 ++ lit "->" ++ sp2 ++ to ++ lit ";"
                      ++ tail ++ newline :: render (map line_text ls))).
      { destruct Ha.
        apply (stops_head is_space is_digit); auto using digit_not_space. }
      repeat rewrite <- app_assoc.
      rewrite (edge_hit m prev _ from to
                 (tail ++ newline :: render (map line_text ls)) Hb).
      * rewrite (@takeWhile_app _ _ _ Hws' Es).
        rewrite (replace_to_eol _ _ edge_anchored) by (auto; reflexivity).
        rewrite IH by reflexivity.
        rewrite quoted_edge_split. now rewrite <- !app_assoc.
      * rewrite (@dropWhile_app _ _ _ Hws' Es).
        now apply edge_tail_parse_edge.
    + (* another line *)
      cbn [text1].
      rewrite (replace_line_kept _ _ edge_anchored);
        [now rewrite IH|now apply line_text_dot|].
      destruct Hl as (Hws & Hc & Hd & _ & _).
      apply edge_miss. cbn [line_text]. rewrite <- app_assoc. cbn [app].
      rewrite (@dropWhile_app is_space ws _
                 (all_impl _ _ _ inline_is_space Hws)) by exact Hc.
      change (c :: body ++ newline :: render (map line_text ls))
        with ((c :: body) ++ newline :: render (map line_text ls)).
      now apply edge_scan_miss.
Qed.

End Pass1.

(** ** The second [replace]: the comment lines *)

Lemma run_comment_line_nil (prev : option char) :
  run commentLineRegex prev [] = None.
Proof. rewrite run_comment_line. now destruct (at_bol prev). Qed.

Lemma comment_line_miss (t rest : str) (prev : option char) :
  starts_with_slashes t = false ->
  run commentLineRegex prev (t ++ newline :: rest) = None.
Proof.
  intros H. rewrite run_comment_line. destruct (at_bol prev); auto.
  unfold comment_line_parse.
  destruct t as [|a [|b t]]; cbn [app].
  - now destruct rest.
  - now rewrite andb_false_r.
  - cbn [starts_with_slashes] in H. now rewrite H.
Qed.

(** Every line that begins with two slashes is emptied, every other line
    is copied. *)
Lemma strip_comments_lines (ts : list str) :
  Forall (all is_dot) ts ->
  forall prev,
    at_bol prev = true ->
    replace commentLineRegex erase prev 0 (render ts) = render (map strip ts).
Proof.
  induction 1 as [|t ts Ht _ IH]; intros prev Hb.
  - apply replace_end, run_comment_line_nil.
  - cbn [map]. rewrite !render_cons. unfold strip at 1.
    destruct (starts_with_slashes t) eqn:E.
    + destruct t as [|a [|b body]]; try discriminate.
      inversion Ht as [|? ? _ Ht']; subst. inversion Ht' as [|? ? _ Hbody]; subst.
      assert (Hs : stops is_dot (newline :: render ts)) by reflexivity.
      rewrite (replace_hit commentLineRegex erase prev (a :: b :: body)
                 (newline :: render ts) []).
      * rewrite replace_miss
          by (apply comment_line_anchored, prev_after_dot;
              [discriminate | assumption]).
        now rewrite IH.
      * discriminate.
      * rewrite run_comment_line, Hb. cbn [app]. unfold comment_line_parse.
        cbn [starts_with_slashes] in E. rewrite E.
        now rewrite (@dropWhile_app _ _ _ Hbody Hs).
    + rewrite (replace_line_kept _ _ comment_line_anchored); auto.
      * now rewrite IH.
      * now apply comment_line_miss.
Qed.

(** ** The third [replace]: the blank lines *)

Lemma last_break_app (x y : str) :
  last_break (x ++ y)
  = match last_break y with
    | Some (a, b) => Some (x ++ a, b)
    | None =>
        match last_break x with
        | Some (a, b) => Some (a, b ++ y)
        | None => None
        end
    end.
Proof.
  induction x as [|c x IH]; simpl.
  - now destruct (last_break y) as [[a b]|].
  - rewrite IH. destruct (last_break y) as [[a b]|]; auto.
    destruct (last_break x) as [[a b]|]; auto.
    now destruct (is_cr_or_lf c).
Qed.

Lemma last_break_split (w a b : str) :
  last_break w = Some (a, b) -> w = a ++ b /\ a <> [].
Proof.
  revert a b. induction w as [|c w IH]; intros a b H; simpl in H;
    [discriminate|].
  destruct (last_break w) as [[a' b']|].
  - injection H as <- <-. destruct (IH _ _ eq_refl) as [-> _].
    split; [reflexivity | discriminate].
  - destruct (is_cr_or_lf c); [|discriminate].
    injection H as <- <-. split; [reflexivity | discriminate].
Qed.

Lemma last_break_none (w : str) :
  all is_dot w -> last_break w = None.
Proof.
  induction 1 as [|c w Hc _ IH]; simpl; auto. rewrite IH.
  destruct (is_cr_or_lf c) eqn:E; auto.
  apply cr_or_lf_is_terminator in E.
  apply dot_not_terminator in Hc. congruence.
Qed.

Lemma takeWhile_sub (p q : char -> bool) (w : str) :
  all q w -> all q (takeWhile p w).
Proof.
  induction 1 as [|c w Hc _ IH]; simpl; [constructor|].
  destruct (p c); constructor; auto.
Qed.

Lemma run_blank_nil (prev : option char) : run blankLineRegex prev [] = None.
Proof. rewrite run_blank. now destruct (at_bol prev). Qed.

(** A blank line at the start of a line is taken out, with the blank
    lines behind it. *)
Lemma blank_peel (t s : str) (prev : option char) :
  all is_space t -> at_bol prev = true ->
  replace blankLineRegex erase prev 0 ((t ++ [newline]) ++ s)
  = replace blankLineRegex erase (Some newline) 0 s.
Proof.
  intros Ht Hb.
  assert (Hw : all is_space (t ++ [newline]))
    by (apply all_app; split; [assumption | repeat constructor]).
  assert (Hlb : last_break (t ++ [newline]) = Some (t ++ [newline], [])).
  { rewrite last_break_app. reflexivity. }
  assert (Hne : t ++ [newline] <> []) by (destruct t; discriminate).
  destruct (last_break (takeWhile is_space s)) as [[a b]|] eqn:E.
  - destruct (last_break_split _ _ _ E) as [Hab Ha].
    assert (Hs : s = a ++ b ++ dropWhile is_space s).
    { rewrite <- (take_drop is_space s) at 1. now rewrite Hab, <- app_assoc. }
    rewrite (replace_hit_eq blankLineRegex erase prev _
               ((t ++ [newline]) ++ a) (b ++ dropWhile is_space s) []).
    + rewrite (replace_hit_eq blankLineRegex erase (Some newline) s
                 a (b ++ dropWhile is_space s) [] Hs Ha).
      * now rewrite prev_after_app, prev_after_last.
      * rewrite run_blank. cbn [at_bol]. change (is_line_terminator newline) with true.
        unfold blank_parse. now rewrite E.
    + rewrite Hs at 1. now rewrite <- !app_assoc.
    + intros H. apply app_eq_nil in H. tauto.
    + rewrite run_blank, Hb. unfold blank_parse.
      rewrite takeWhile_app_all, dropWhile_app_all by assumption.
      now rewrite last_break_app, E.
  - rewrite (replace_hit blankLineRegex erase prev (t ++ [newline]) s []);
      auto.
    + now rewrite prev_after_last.
    + rewrite run_blank, Hb. unfold blank_parse.
      rewrite takeWhile_app_all, dropWhile_app_all by assumption.
      rewrite last_break_app, E, Hlb. cbn [app]. now rewrite take_drop.
Qed.

Lemma forallb_all (p : char -> bool) (w : str) :
  forallb p w = true <-> all p w.
Proof. unfold all. now rewrite forallb_forall, Forall_forall. Qed.

(** The blank lines disappear, every other line is copied. *)
Lemma strip_blank_lines (ts : list str) :
  Forall (all is_dot) ts ->
  forall prev,
    at_bol prev = true ->
    replace blankLineRegex erase prev 0 (render ts)
    = render (filter nonblank ts).
Proof.
  induction 1 as [|t ts Ht _ IH]; intros prev Hb.
  - apply replace_end, run_blank_nil.
  - rewrite render_cons. cbn [filter]. unfold nonblank at 1.
    destruct (forallb is_space t) eqn:E; cbn [negb].
    + change (t ++ newline :: render ts) with (t ++ [newline] ++ render ts).
      rewrite app_assoc, blank_peel; auto. now apply forallb_all.
    + rewrite render_cons.
      rewrite (replace_line_kept _ _ blank_anchored); auto.
      * now rewrite IH.
      * rewrite run_blank, Hb. unfold blank_parse.
        rewrite CommentFacts.takeWhile_app_cases, E.
        now rewrite last_break_none by now apply takeWhile_sub.
Qed.

(** ** The three steps together *)

Lemma label_or_id_dot (m : OMap.t str) (x : str) :
  inline_labels m -> all is_dot x -> all is_dot (label_or_id m x).
Proof.
  intros Hm Hx. unfold label_or_id.
  destruct (OMap.get x m) as [[|c l]|] eqn:E; auto.
  apply get_In in E. unfold inline_labels in Hm.
  rewrite Forall_forall in Hm. exact (Hm _ E).
Qed.

Lemma text1_dot (m : OMap.t str) (l : line) :
  inline_labels m -> wf_line l -> all is_dot (text1 m l).
Proof.
  intros Hm Hl.
  destruct l as [ws|body|ws from sp1 sp2 to tail|ws c body];
    try exact (line_text_dot _ Hl).
  destruct Hl as (Hws & [_ Ha] & _ & _ & [_ Hb] & Ht).
  cbn [text1]. unfold quoted_edge.
  pose proof (label_or_id_dot m from Hm (all_impl _ _ _ digit_is_dot Ha)).
  pose proof (label_or_id_dot m to Hm (all_impl _ _ _ digit_is_dot Hb)).
  cbn [litq app]. all_dot.
Qed.

Lemma strip_dot (t : str) : all is_dot t -> all is_dot (strip t).
Proof. unfold strip. destruct (starts_with_slashes t); auto. constructor. Qed.

Lemma inline_not_slash (a : char) : is_inline a = true -> (47 =? a) = false.
Proof.
  intros H. destruct (N.eqb_spec 47 a) as [<-|]; auto.
Qed.

Lemma space_run_no_slashes (ws rest : str) (c : char) :
  all is_inline ws -> (47 =? c) = false ->
  starts_with_slashes (ws ++ c :: rest) = false.
Proof.
  intros Hws Hc. destruct ws as [|a [|b ws]]; cbn [app starts_with_slashes].
  - destruct rest; [reflexivity|]. now rewrite Hc.
  - now rewrite Hc, andb_false_r.
  - inversion Hws; subst. now rewrite inline_not_slash.
Qed.

Lemma blank_no_slashes (ws : str) :
  all is_inline ws -> starts_with_slashes ws = false.
Proof.
  intros Hws. destruct ws as [|a [|b ws]]; auto.
  inversion Hws; subst. cbn [starts_with_slashes].
  now rewrite inline_not_slash.
Qed.

Lemma nonblank_app (ws rest : str) (c : char) :
  is_space c = false -> nonblank (ws ++ c :: rest) = true.
Proof.
  intros Hc. unfold nonblank. rewrite forallb_app. cbn [forallb].
  now rewrite Hc, andb_false_r.
Qed.

(** What the last two steps leave of a line after the first. *)
Lemma line_final (m : OMap.t str) (l : line) :
  wf_line l ->
  filter nonblank [strip (text1 m l)] = rewritten m l.
Proof.
  intros Hl. destruct l as [ws|body|ws from sp1 sp2 to tail|ws c body];
    cbn [text1 line_text rewritten].
  - unfold strip. rewrite blank_no_slashes by exact Hl.
    cbn [filter]. unfold nonblank.
    assert (H : forallb is_space ws = true).
    { apply forallb_all. eapply all_impl; [exact inline_is_space | exact Hl]. }
    now rewrite H.
  - reflexivity.
  - destruct Hl as (Hws & _).
    unfold quoted_edge. repeat rewrite <- app_assoc. cbn [app].
    unfold strip. rewrite space_run_no_slashes by (auto; reflexivity).
    cbn [filter]. now rewrite nonblank_app by reflexivity.
  - destruct Hl as (Hws & Hc & _ & _ & Hs).
    unfold strip. rewrite Hs. cbn [filter]. now rewrite nonblank_app.
Qed.

Lemma lines_final (m : OMap.t str) (ls : list line) :
  Forall wf_line ls ->
  filter nonblank (map strip (map (text1 m) ls)) = flat_map (rewritten m) ls.
Proof.
  induction 1 as [|l ls Hl _ IH]; auto.
  cbn [map flat_map]. rewrite <- IH, <- (line_final m l Hl).
  cbn [filter]. now destruct (nonblank (strip (text1 m l))).
Qed.

(** ** From the text read to the text written *)

Lemma replaceAll_crlf_id (s : str) :
  Forall (fun c => c <> 13) s -> replaceAll_crlf s = s.
Proof.
  induction 1 as [|c s Hc _ IH]; auto.
  cbn [replaceAll_crlf]. destruct s as [|d s]; auto.
  apply N.eqb_neq in Hc. rewrite Hc. cbn [andb]. now rewrite IH.
Qed.

Lemma dot_not_cr (c : char) : is_dot c = true -> c <> 13.
Proof. intros H ->. discriminate H. Qed.

Lemma render_no_cr (ts : list str) :
  Forall (all is_dot) ts -> Forall (fun c => c <> 13) (render ts).
Proof.
  induction 1 as [|t ts Ht _ IH]; [constructor|].
  rewrite render_cons. apply Forall_app. split.
  - eapply Forall_impl; [|exact Ht]. exact dot_not_cr.
  - constructor; [discriminate | exact IH].
Qed.

Lemma all_rev (p : char -> bool) (w : str) : all p w -> all p (rev w).
Proof. apply Forall_rev. Qed.

Lemma drop_slashes_all (p : char -> bool) (w : str) :
  all p w -> all p (Path.drop_slashes w).
Proof.
  induction 1 as [|c w Hc Hw IH]; simpl; [constructor|].
  destruct (c =? Path.slash); auto. now constructor.
Qed.

Lemma take_segment_all (p : char -> bool) (w : str) :
  all p w -> all p (Path.take_segment w).
Proof.
  induction 1 as [|c w Hc Hw IH]; simpl; [constructor|].
  destruct (c =? Path.slash); constructor; auto.
Qed.

Lemma basename_dot (path : str) :
  all is_dot path -> all is_dot (Path.basename path).
Proof.
  intros H. unfold Path.basename.
  now apply all_rev, take_segment_all, drop_slashes_all, all_rev.
Qed.

Lemma inline_labels_set (m : OMap.t str) (k v : str) :
  inline_labels m -> all is_dot v -> inline_labels (OMap.set k v m).
Proof.
  unfold inline_labels. intros Hm Hv.
  induction Hm as [|[k' v'] m Hk Hm IH]; simpl.
  - constructor; auto.
  - destruct (str_eqb k k'); constructor; auto.
Qed.

(** The labels found in comments are free of line terminators. *)
Lemma idToLabel_of_inline (dot : str) : inline_labels (idToLabel_of dot).
Proof.
  unfold idToLabel_of, matches.
  pose proof (CommentFacts.exec_all_sound commentRegex dot None 0) as H.
  assert (H0 : inline_labels []) by constructor.
  revert H0. generalize (@nil (str * str)).
  induction H as [|caps ms (pre & w & rest & _ & Hm) _ IH]; intros m0 H0; auto.
  cbn [fold_left]. apply IH.
  destruct (@CommentFacts.Matches_comment _ _ _ _ Hm)
    as (ws & id & path & -> & _ & _ & _ & _ & Hp).
  cbn [record_label]. apply inline_labels_set; auto.
  now apply basename_dot.
Qed.

(** The three [replace] calls on a text given by its lines. *)
Lemma rewriteDot_on_lines (m : OMap.t str) (ls : list line) :
  inline_labels m -> Forall wf_line ls ->
  rewriteDot m (render (map line_text ls)) = output m ls.
Proof.
  intros Hm Hls.
  assert (H1 : Forall (all is_dot) (map (text1 m) ls)).
  { apply Forall_map. eapply Forall_impl; [|exact Hls].
    intros l. now apply text1_dot. }
  assert (H2 : Forall (all is_dot) (map strip (map (text1 m) ls))).
  { apply Forall_map. eapply Forall_impl; [|exact H1]. exact strip_dot. }
  unfold rewriteDot, strip_blank, strip_comments, rewrite_edges, replace_g.
  rewrite (rewrite_edges_lines m ls Hls None eq_refl).
  rewrite (strip_comments_lines _ H1 None eq_refl).
  rewrite (strip_blank_lines _ H2 None eq_refl).
  unfold output. now rewrite lines_final.
Qed.

(** Steps 1 to 4 on a text given by its lines. *)
Lemma convertDotText_on_lines (ls : list line) :
  Forall wf_line ls ->
  convertDotText (render (map line_text ls))
  = output (idToLabel_of (render (map line_text ls))) ls.
Proof.
  intros Hls. unfold convertDotText. rewrite replaceAll_crlf_id.
  - apply rewriteDot_on_lines; [apply idToLabel_of_inline | exact Hls].
  - apply render_no_cr, Forall_map.
    eapply Forall_impl; [|exact Hls]. exact line_text_dot.
Qed.

(** The lines of a text whose lines do not end inside an edge. *)
Lemma classify_lines (ts : list str) :
  Forall whole ts ->
  Forall wf_line (map classify ts) /\ map line_text (map classify ts) = ts.
Proof.
  induction 1 as [|t ts Ht _ [IH1 IH2]]; [now split|].
  destruct (classify_spec t Ht) as [Hw Ht']. cbn [map]. split.
  - now constructor.
  - now rewrite Ht', IH2.
Qed.

(** C3, as the code does it, on every text made of lines, each ended by a
    line feed, that hold no other line terminator and do not end inside an
    edge (a number alone, or a number and the arrow alone, white space
    apart).  Every line of such a text is of one of four kinds, and:
    each edge line (white space, digits, the arrow between white space,
    digits, a semicolon, then anything) is rewritten to the two quoted
    labels behind its own leading white space, where the label of an id is
    what the map holds for it, or the id itself when the map holds nothing
    or the empty string; each line that begins with two slashes and each
    blank line is deleted; every other line is copied, a comment behind
    white space included.  This holds of the rewriting steps for every
    map whose labels are free of line terminators, and so of steps 1 to 4
    of [convertDotIds] with the map read from the text. *)
Theorem rewriteDot_lines (m : OMap.t str) (ts : list str) :
  inline_labels m -> Forall whole ts ->
  (Forall wf_line (map classify ts) /\ map line_text (map classify ts) = ts)
  /\ rewriteDot m (render ts) = output m (map classify ts)
  /\ convertDotText (render ts)
     = output (idToLabel_of (render ts)) (map classify ts).
Proof.
  intros Hm Hts. destruct (classify_lines ts Hts) as [Hls Hts'].
  split; [now split|].
  pose proof (rewriteDot_on_lines m _ Hm Hls) as H1.
  pose proof (convertDotText_on_lines _ Hls) as H2.
  rewrite Hts' in H1, H2. now split.
Qed.

End RewriteFacts.

Module RewriteExamples.
Import Regex Converter RewriteFacts.
Local Open Scope N_scope.


(** The example of the specification: a comment for 7, none for 9. *)
Lemma rewriteDot_main :
  idToLabel_of main_text = [(lit "7", lit "main.py")]
  /\ rewriteDot (idToLabel_of main_text) main_text = main_converted.
Proof.
  split; [vm_compute; reflexivity|].
  refine (eq_trans
            (proj1 (proj2 (rewriteDot_lines (idToLabel_of main_text)
                             (map line_text main_lines) _ _)))
            _).
  - vm_compute. repeat constructor.
  - unfold main_lines, whole. cbn [map line_text lit app].
    repeat (apply Forall_cons || apply Forall_nil);
      (split; [repeat constructor | reflexivity]).
  - vm_compute. reflexivity.
Defined.

(** An empty label is not written, and a comment behind white space is
    not deleted. *)
Lemma empty_label_falls_back :
  idToLabel_of (lit "// 7:" ++ [newline]) = empty_label
  /\ OMap.get (lit "7") empty_label = Some []
  /\ rewriteDot empty_label
       (lit "7 -> 9;" ++ [newline] ++ lit " // x" ++ [newline])
     = litq "'7' -> '9';" ++ [newline] ++ lit " // x" ++ [newline]
  /\ rewriteDot empty_label
       (lit "7 -> 9;" ++ [newline] ++ lit " // x" ++ [newline])
     <> litq "'' -> '9';" ++ [newline].
Proof. vm_compute. repeat split; congruence. Qed.

(** A line that ends inside an edge: the pattern goes on over the line
    break, and the two lines become one edge. *)
Lemma edge_across_lines :
  cut (lit "3") = true
  /\ rewriteDot [] (lit "3" ++ [newline] ++ lit " -> 4;" ++ [newline])
     = litq "'3' -> '4';" ++ [newline].
Proof. vm_compute. split; reflexivity. Qed.

(** A line separator inside a line starts a line for the patterns: the
    comment behind it is deleted, and the line feed of the line with it. *)
Lemma separator_inside_line :
  rewriteDot [] (lit "x" ++ [8232] ++ lit "// c" ++ [newline])
  = lit "x" ++ [8232].
Proof. vm_compute. reflexivity. Qed.

End RewriteExamples.

(* ================================================================== *)
(** * The serializer and the node pattern *)


Module SerializerFacts.
Import Regex RegexFacts RegexEval Serializer Viewer.
Local Open Scope N_scope.

Lemma tree_induction (P : tree -> Prop) :
  (forall type children, Forall P children -> P (Node type children)) ->
  forall t, P t.
Proof.
  intros H. fix IH 1. intros [type children]. apply H.
  induction children as [|c cs IHcs]; constructor; auto.
Qed.


Lemma link_pair (nodeId childId : str) (k : nat) (ls : list str) :
  link nodeId (childId, (k, ls)) = (k, ls ++ [edge_line nodeId childId]).
Proof. reflexivity. Qed.

Lemma addNode_children (nodeId : str) (cs : list tree) :
  Forall addNode_ok cs ->
  forall k ls,
  exists L,
    fold_left (fun s child => link nodeId (addNode child s)) cs (k, ls)
    = ((k + length (flat_map preorder cs))%nat, ls ++ L)
    /\ forall i type,
         nth_error (flat_map preorder cs) i = Some type ->
         In (node_line (lit "n" ++ decimal (k + i)) type) L.
Proof.
  induction 1 as [|c cs Hc _ IH]; intros k ls.
  - exists []. simpl. rewrite Nat.add_0_r, app_nil_r. split; auto.
    intros [|i] type H; discriminate.
  - destruct (Hc k ls) as (Lc & Ec & Hin).
    cbn [fold_left flat_map]. rewrite Ec, link_pair.
    destruct (IH (k + size c)%nat
                ((ls ++ Lc) ++ [edge_line nodeId (lit "n" ++ decimal k)]))
      as (L' & -> & Hin').
    exists (Lc ++ [edge_line nodeId (lit "n" ++ decimal k)] ++ L').
    split.
    + rewrite length_app. unfold size.
      f_equal; [lia | now rewrite <- !app_assoc].
    + intros i type H.
      destruct (Nat.lt_ge_cases i (size c)) as [Hlt|Hge].
      * rewrite nth_error_app1 in H by exact Hlt.
        apply in_or_app. left. now apply Hin.
      * rewrite nth_error_app2 in H by exact Hge.
        apply in_or_app. right. apply in_or_app. right.
        replace (k + i)%nat with (k + size c + (i - size c))%nat by lia.
        now apply Hin'.
Qed.

Lemma addNode_spec (t : tree) : addNode_ok t.
Proof.
  induction t as [type children IH] using tree_induction.
  intros k ls. cbn [addNode fst snd].
  destruct (addNode_children (lit "n" ++ decimal k) children IH (S k)
              (ls ++ [node_line (lit "n" ++ decimal k) type]))
    as (L & -> & Hin).
  exists (node_line (lit "n" ++ decimal k) type :: L). split.
  - unfold size. cbn [preorder length]. f_equal. f_equal; [lia|].
    now rewrite <- app_assoc.
  - intros [|i] ty H; cbn [preorder nth_error] in H.
    + injection H as <-. rewrite Nat.add_0_r. now left.
    + right. replace (k + S i)%nat with (S k + i)%nat by lia. now apply Hin.
Qed.

(** Every node has its line in the output of [treeToDot]. *)
Lemma treeLines_nodes (root : tree) (i : nat) (type : str) :
  nth_error (preorder root) i = Some type ->
  In (node_line (lit "n" ++ decimal i) type) (treeLines root).
Proof.
  intros H. unfold treeLines.
  destruct (addNode_spec root 0%nat [lit "digraph G {"]) as (L & -> & Hin).
  cbn [snd]. apply in_or_app. left. apply in_or_app. right.
  now apply (Hin i type).
Qed.


Lemma nodeToDot_children (myId : Z) (cs : list tree) :
  Forall nodeToDot_ok cs ->
  forall k ls,
  exists L,
    fold_left (fun s child => nodeToDot child myId s) cs (k, ls)
    = ((k + length (flat_map preorder cs))%nat, ls ++ L)
    /\ forall i type,
         nth_error (flat_map preorder cs) i = Some type ->
         In (lit "  " ++ node_line (decimal (k + i)) type) L.
Proof.
  induction 1 as [|c cs Hc _ IH]; intros k ls.
  - exists []. simpl. rewrite Nat.add_0_r, app_nil_r. split; auto.
    intros [|i] type H; discriminate.
  - destruct (Hc myId k ls) as (Lc & Ec & Hin).
    cbn [fold_left flat_map]. rewrite Ec.
    destruct (IH (k + size c)%nat (ls ++ Lc)) as (L' & -> & Hin').
    exists (Lc ++ L'). split.
    + rewrite length_app. unfold size.
      f_equal; [lia | now rewrite <- !app_assoc].
    + intros i type H.
      destruct (Nat.lt_ge_cases i (size c)) as [Hlt|Hge].
      * rewrite nth_error_app1 in H by exact Hlt.
        apply in_or_app. left. now apply Hin.
      * rewrite nth_error_app2 in H by exact Hge.
        apply in_or_app. right.
        replace (k + i)%nat with (k + size c + (i - size c))%nat by lia.
        now apply Hin'.
Qed.

Lemma nodeToDot_spec (t : tree) : nodeToDot_ok t.
Proof.
  induction t as [type children IH] using tree_induction.
  intros parentId k ls. cbn [nodeToDot fst snd].
  set (line := lit "  " ++ node_line (decimal k) type).
  set (lines2 := if (parentId =? -1)%Z then ls ++ [line]
                 else (ls ++ [line])
                      ++ [lit "  " ++ edge_line (decimalZ parentId) (decimal k)]).
  assert (H2 : exists E, lines2 = ls ++ line :: E).
  { subst lines2. destruct (parentId =? -1)%Z.
    - exists []. reflexivity.
    - eexists. now rewrite <- app_assoc. }
  destruct H2 as (E & ->).
  destruct (nodeToDot_children (Z.of_nat k) children IH (S k) (ls ++ line :: E))
    as (L & -> & Hin).
  exists (line :: E ++ L). split.
  - unfold size. cbn [preorder length]. f_equal; [lia|].
    now rewrite <- app_assoc.
  - intros [|i] ty H; cbn [preorder nth_error] in H.
    + injection H as <-. rewrite Nat.add_0_r. now left.
    + right. apply in_or_app. right.
      replace (k + S i)%nat with (S k + i)%nat by lia. now apply Hin.
Qed.

Lemma astLines_nodes (root : tree) (i : nat) (type : str) :
  nth_error (preorder root) i = Some type ->
  In (lit "  " ++ node_line (decimal i) type) (astLines root).
Proof.
  intros H. unfold astLines.
  destruct (nodeToDot_spec root (-1)%Z 0%nat [lit "digraph AST {"])
    as (L & -> & Hin).
  cbn [snd]. apply in_or_app. left. apply in_or_app. right.
  now apply (Hin i type).
Qed.

(** ** The node pattern on a node line *)

Lemma run_star_total (p : char -> bool) (cap : bool) (r : regex)
  (prev : option char) (s : str) :
  (forall prev' s', run r prev' s' <> None) ->
  run (Cls p Star cap :: r) prev s
  = with_group cap (takeWhile p s)
      (run r (prev_after (takeWhile p s) prev) (dropWhile p s)).
Proof.
  intros H. rewrite run_cls. cbn [rep]. apply greedy_total.
  intros w r0 E. unfold with_group in E.
  destruct (run r (prev_after w prev) r0) as [[? ?]|] eqn:E'; [discriminate|].
  now apply H in E'.
Qed.

Lemma refuses_star_chr (p q : char -> bool) (x : char) (cap : bool)
  (r : regex) :
  (forall c, p c = true -> q c = false) -> p x = false -> q x = false ->
  refuses p (Cls q Star cap :: Chr x :: r).
Proof.
  intros Hq Hx Hqx prev c s Hc.
  rewrite run_star_det by now apply refuses_chr.
  cbn [takeWhile dropWhile]. rewrite (Hq c Hc). rewrite run_chr.
  destruct (N.eqb_spec x c) as [->|]; [congruence | reflexivity].
Qed.


Lemma run_optional_last (prev : option char) (s : str) :
  run [Cls (N.eqb 59) Opt false] prev s <> None.
Proof.
  rewrite run_cls. cbn [rep]. destruct s as [|c s]; [discriminate|].
  destruct (59 =? c); discriminate.
Qed.

Lemma label_end_closes (prev : option char) (rest : str) :
  run label_end prev (dquote :: 93 :: 59 :: rest) = Some ([], rest).
Proof.
  unfold label_end. rewrite !run_chr. cbn [N.eqb Pos.eqb dquote].
  rewrite run_star_total by exact run_optional_last. reflexivity.
Qed.

Lemma label_end_inside (prev : option char) (w2 rest : str) :
  w2 <> [] ->
  (forall b, w2 <> dquote :: 93 :: b) ->
  run label_end prev (w2 ++ dquote :: 93 :: 59 :: rest) = None.
Proof.
  intros Hne Hw. unfold label_end. rewrite run_chr.
  destruct w2 as [|c w2]; [congruence|]. cbn [app].
  destruct (N.eqb_spec dquote c) as [<-|]; auto.
  rewrite run_chr. destruct w2 as [|d w2]; cbn [app]; [reflexivity|].
  destruct (N.eqb_spec 93 d) as [<-|]; auto.
  now destruct (Hw w2).
Qed.

Lemma node_line_app (id type rest : str) :
  node_line id type ++ rest
  = id ++ 32 :: 91 :: 108 :: 97 :: 98 :: 101 :: 108 :: 61 :: 34
       :: type ++ 34 :: 93 :: 59 :: rest.
Proof. unfold node_line. rewrite <- !app_assoc. reflexivity. Qed.

(** The node pattern reads a node line back: the id, and the type as the
    label, when no double quote of the type is followed by a closing
    bracket and the type holds no line terminator. *)
Lemma run_node_line (prev : option char) (id type rest : str) :
  id <> [] -> all is_word id -> all is_dot type -> no_quote_bracket type ->
  run nodeRegex prev (node_line id type ++ rest) = Some ([id; type], rest).
Proof.
  intros Hne Hid Hty Hnq.
  rewrite node_line_app, DialectFacts.nodeRegex_eq.
  rewrite run_plus_det
    by (apply refuses_star_chr;
        [exact word_not_space | reflexivity | reflexivity]).
  assert (Hs : stops is_word
                 (32 :: 91 :: 108 :: 97 :: 98 :: 101 :: 108 :: 61 :: 34
                  :: type ++ 34 :: 93 :: 59 :: rest)) by reflexivity.
  rewrite (@takeWhile_app _ _ _ Hid Hs), (@dropWhile_app _ _ _ Hid Hs).
  destruct id as [|i0 id]; [congruence|]. cbv zeta.
  generalize (prev_after (i0 :: id) prev) as prev1. intros prev1.
  rewrite run_star_det by (apply refuses_chr; reflexivity).
  cbn [takeWhile dropWhile].
  change (is_space 32) with true. change (is_space 91) with false.
  cbv iota. rewrite !run_chr. cbn [N.eqb Pos.eqb].
  rewrite run_star_det by (apply refuses_chr; reflexivity).
  cbn [takeWhile dropWhile]. change (is_space 61) with false. cbv iota.
  rewrite run_chr. cbn [N.eqb Pos.eqb].
  rewrite run_star_det by (apply refuses_chr; reflexivity).
  cbn [takeWhile dropWhile]. change (is_space 34) with false. cbv iota.
  unfold dquote. rewrite run_chr. cbn [N.eqb Pos.eqb].
  rewrite run_cls. cbn [rep with_group].
  rewrite (@lazy_min _ is_dot type _ _ ([type], rest) Hty); [reflexivity | |].
  - intros w1 w2 -> Hw2.
    change (run [Chr 34; Chr 93; Cls is_space Star false;
                 Cls (N.eqb 59) Opt false])
      with (run label_end).
    rewrite label_end_inside; auto.
    intros b ->. apply (Hnq w1 b). reflexivity.
  - change (run [Chr 34; Chr 93; Cls is_space Star false;
                 Cls (N.eqb 59) Opt false])
      with (run label_end).
    now rewrite label_end_closes.
Qed.

(** The ids the serializers print. *)
Lemma digits_of_uint_digits (d : Decimal.uint) : all is_digit (digits_of_uint d).
Proof. induction d; simpl; constructor; auto. Qed.

Lemma digits_of_uint_nil (d : Decimal.uint) :
  digits_of_uint d = [] -> d = Decimal.Nil.
Proof. destruct d; simpl; auto; discriminate. Qed.

Lemma revapp_not_nil (d acc : Decimal.uint) :
  acc <> Decimal.Nil -> Decimal.revapp d acc <> Decimal.Nil.
Proof.
  revert acc. induction d; intros acc H; simpl; auto; apply IHd; discriminate.
Qed.

Lemma succ_not_nil (d : Decimal.uint) : Decimal.Little.succ d <> Decimal.Nil.
Proof. destruct d; simpl; discriminate. Qed.

Lemma to_little_uint_not_nil (n : nat) (acc : Decimal.uint) :
  acc <> Decimal.Nil -> Nat.to_little_uint n acc <> Decimal.Nil.
Proof.
  revert acc. induction n as [|n IH]; intros acc H; simpl; auto.
  apply IH, succ_not_nil.
Qed.

Lemma decimal_not_nil (n : nat) : decimal n <> [].
Proof.
  unfold decimal, Nat.to_uint, Decimal.rev. intros H.
  apply digits_of_uint_nil in H. revert H.
  generalize (to_little_uint_not_nil n Decimal.zero ltac:(discriminate)).
  destruct (Nat.to_little_uint n Decimal.zero); intros Hne; try congruence;
    simpl; apply revapp_not_nil; discriminate.
Qed.

Lemma decimal_word (n : nat) : all is_word (decimal n).
Proof.
  eapply Forall_impl; [|apply digits_of_uint_digits]. exact digit_is_word.
Qed.

Lemma search_indented (prev : option char) (id type rest : str) :
  id <> [] -> all is_word id -> all is_dot type -> no_quote_bracket type ->
  search nodeRegex prev (lit "  " ++ node_line id type ++ rest)
  = Some [id; type].
Proof.
  intros Hne Hid Hty Hnq. cbn [lit app].
  assert (Hmiss : forall prev' s, run nodeRegex prev' (32 :: s) = None).
  { intros prev' s. rewrite DialectFacts.nodeRegex_eq, run_cls. reflexivity. }
  change (N_of_ascii " ") with 32.
  rewrite search_unfold, Hmiss, search_unfold, Hmiss, search_unfold.
  now rewrite run_node_line.
Qed.


(** The type is written as it is, without any escape character; here the
    line read back declares the label a, which is not the type. *)
Lemma treeToDot_does_not_escape :
  treeLines bracket_tree
  = [lit "digraph G {"; node_line (lit "n0") bracket_type; lit "}"]
  /\ node_line (lit "n0") bracket_type
     <> node_line (lit "n0") (escaped bracket_type)
  /\ nodes (parseDotToElements (treeToDot bracket_tree)) = [(lit "n0", lit "a")]
  /\ lit "a" <> bracket_type.
Proof. vm_compute. repeat split; congruence. Qed.

(** C2, as the code does it: both serializers give every node one line
    made of the next id and of the type of the node copied between the
    quotes of the label as it is; that line is read back by the node
    pattern of the parser, with the type as the label, whenever the type
    holds no line terminator and no double quote followed by a closing
    bracket. *)
Theorem serializer_copies_type (root : tree) :
  (forall i type,
      nth_error (preorder root) i = Some type ->
      In (node_line (lit "n" ++ decimal i) type) (treeLines root)
      /\ In (lit "  " ++ node_line (decimal i) type) (astLines root))
  /\ (forall i type rest prev,
         all is_dot type -> no_quote_bracket type ->
         run nodeRegex prev (node_line (lit "n" ++ decimal i) type ++ rest)
         = Some ([lit "n" ++ decimal i; type], rest)
         /\ search nodeRegex prev
              (lit "  " ++ node_line (decimal i) type ++ rest)
            = Some [decimal i; type]).
Proof.
  split.
  - intros i type H. split.
    + now apply treeLines_nodes.
    + now apply astLines_nodes.
  - intros i type rest prev Hty Hnq. split.
    + apply run_node_line; auto; [discriminate|].
      constructor; [reflexivity | apply decimal_word].
    + apply search_indented; auto using decimal_not_nil, decimal_word.
Qed.


(** A tree with a type that is a double quote. *)
Lemma serializer_sample :
  In (node_line (lit "n2") (litq "'")) (treeLines sample_tree)
  /\ run nodeRegex None (node_line (lit "n2") (litq "'") ++ [newline])
     = Some ([lit "n2"; litq "'"], [newline]).
Proof.
  split.
  - refine (proj1 (proj1 (serializer_copies_type sample_tree) 2%nat
                     (litq "'") _)).
    reflexivity.
  - refine (proj1 (proj2 (serializer_copies_type sample_tree) 2%nat
                     (litq "'") [newline] None _ _)).
    + repeat constructor.
    + intros [|x [|y a]] b H; discriminate H.
Defined.

End SerializerFacts.

(* ================================================================== *)
(** * Further properties of the program *)

Import ElementSpec LabelSpec SideFileShape RequestSpec ScanSpec TreeGraph TreeNumbering ConvertedLines PipelineSpec CopySpec Renaming CliSpec.

Module DecimalFacts.

Lemma digits_of_uint_inj (a : Decimal.uint) :
  forall b, digits_of_uint a = digits_of_uint b -> a = b.
Proof.
  induction a; intros b H; destruct b; simpl in H;
    try discriminate H; try reflexivity;
    injection H as H; f_equal; auto.
Qed.

Lemma decimal_inj (i j : nat) : decimal i = decimal j -> i = j.
Proof.
  unfold decimal. intros H. apply digits_of_uint_inj in H.
  rewrite <- (DecimalNat.Unsigned.of_to i), <- (DecimalNat.Unsigned.of_to j). now rewrite H.
Qed.

End DecimalFacts.

Module ElementFacts.
Import Regex Viewer Spec.

Lemma node_ids_app (a b : list element) :
  node_ids (a ++ b) = node_ids a ++ node_ids b.
Proof. apply flat_map_app. Qed.

Lemma edge_ids_app (a b : list element) :
  edge_ids (a ++ b) = edge_ids a ++ edge_ids b.
Proof. apply flat_map_app. Qed.

Lemma node_ids_nodes (A : Type) (f : A -> nat -> element) (id : A -> str)
  (l : list A) :
  (forall a i, exists name pos, f a i = NodeElement (id a) name pos) ->
  forall k, node_ids (mapi_from f k l) = map id l
            /\ edge_ids (mapi_from f k l) = [].
Proof.
  intros Hf. induction l as [|a l IH]; intros k; [split; reflexivity|].
  destruct (Hf a k) as (name & pos & E). destruct (IH (S k)) as [IH1 IH2].
  cbn [mapi_from node_ids edge_ids flat_map map]. rewrite E.
  fold (node_ids (mapi_from f (S k) l)). fold (edge_ids (mapi_from f (S k) l)).
  now rewrite IH1, IH2.
Qed.

Lemma ids_edges (es : list (str * str)) :
  forall k, node_ids (mapi_from edge_element k es) = []
            /\ edge_ids (mapi_from edge_element k es)
               = map (fun i => lit "e" ++ decimal i) (seq k (length es)).
Proof.
  induction es as [|e es IH]; intros k; [split; reflexivity|].
  destruct (IH (S k)) as [IH1 IH2].
  cbn [mapi_from node_ids edge_ids flat_map map length seq edge_element app].
  fold (node_ids (mapi_from edge_element (S k) es)).
  fold (edge_ids (mapi_from edge_element (S k) es)).
  now rewrite IH1, IH2.
Qed.

Lemma In_edge_elements (es : list (str * str)) (id s t : str) :
  forall k, In (EdgeElement id s t) (mapi_from edge_element k es) ->
            In (s, t) es.
Proof.
  induction es as [|[a b] es IH]; intros k H; [contradiction|].
  destruct H as [H|H].
  - left. unfold edge_element in H. cbn [fst snd] in H. congruence.
  - right. eapply IH, H.
Qed.

Lemma not_In_node_elements (A : Type) (f : A -> nat -> element) (l : list A)
  (id s t : str) :
  (forall a i, exists x name pos, f a i = NodeElement x name pos) ->
  forall k, ~ In (EdgeElement id s t) (mapi_from f k l).
Proof.
  intros Hf. induction l as [|a l IH]; intros k H; [contradiction|].
  destruct H as [H|H]; [|eapply IH, H].
  destruct (Hf a k) as (x & name & pos & E). congruence.
Qed.

(** The elements of a text: the nodes of its model, then its edges. *)
Lemma elementsData_ids (text : str) :
  node_ids (elementsData text) = map fst (nodes (graph_of_text text))
  /\ edge_ids (elementsData text)
     = map (fun i => lit "e" ++ decimal i)
         (seq 0 (length (edges (graph_of_text text))))
  /\ forall id s t, In (EdgeElement id s t) (elementsData text) ->
                    In (s, t) (edges (graph_of_text text)).
Proof.
  unfold elementsData, graph_of_text, quoted_elements, buildCytoscapeElements.
  destruct (quotedMatch text).
  - set (f := fun (node : str * str) (i : nat) =>
                NodeElement (fst node) (fst node)
                  (Some (place (IZR quoted_radius)
                           (angleStep_of
                              (Nat.max 1 (length (nodes (quoted_graph text)))))
                           i))).
    assert (Hf : forall a i, exists name pos,
                 f a i = NodeElement (fst a) name pos)
      by (intros; unfold f; eauto).
    destruct (node_ids_nodes _ f fst (nodes (quoted_graph text)) Hf 0) as [N1 N2].
    destruct (ids_edges (edges (quoted_graph text)) 0) as [E1 E2].
    unfold mapi. rewrite node_ids_app, edge_ids_app, N1, N2, E1, E2, app_nil_r.
    repeat split; auto.
    intros id s t H. apply in_app_or in H. destruct H as [H|H].
    + exfalso. eapply not_In_node_elements; [|exact H].
      intros a i. destruct (Hf a i) as (n & p & E). eauto.
    + eapply In_edge_elements, H.
  - set (g := parseDotToElements text).
    set (f := fun (node : str * str) (i : nat) =>
                NodeElement (fst node) (snd node)
                  (Some (place (IZR (radius_of (count_or_one (length (nodes g)))))
                           (angleStep_of (count_or_one (length (nodes g))))
                           i))).
    assert (Hf : forall a i, exists name pos,
                 f a i = NodeElement (fst a) name pos)
      by (intros; unfold f; eauto).
    destruct (node_ids_nodes _ f fst (nodes g) Hf 0) as [N1 N2].
    destruct (ids_edges (edges g) 0) as [E1 E2].
    unfold mapi. rewrite node_ids_app, edge_ids_app, N1, N2, E1, E2, app_nil_r.
    repeat split; auto.
    intros id s t H. apply in_app_or in H. destruct H as [H|H].
    + exfalso. eapply not_In_node_elements; [|exact H].
      intros a i. destruct (Hf a i) as (n & p & E). eauto.
    + eapply In_edge_elements, H.
Qed.

Lemma NoDup_map_inj (A B : Type) (f : A -> B) (l : list A) :
  (forall x y, f x = f y -> x = y) -> NoDup l -> NoDup (map f l).
Proof.
  intros Hf. induction 1 as [|a l Ha _ IH]; simpl; constructor; auto.
  intros Hin. apply in_map_iff in Hin. destruct Hin as (y & E & Hy).
  apply Hf in E. now subst.
Qed.

Lemma fold_quoted_line_NoDup (ls : list str) :
  forall acc, NoDup (snd acc) -> NoDup (snd (fold_left quoted_line ls acc)).
Proof.
  induction ls as [|l ls IH]; intros acc H; auto.
  cbn [fold_left]. apply IH. unfold quoted_line.
  destruct (search quotedRegex None l) as [[|a [|b [|c caps]]]|]; auto.
  cbn [snd]. now apply NoDup_add, NoDup_add.
Qed.

Lemma graph_nodes_NoDup (text : str) :
  NoDup (map fst (nodes (graph_of_text text))).
Proof.
  unfold graph_of_text. destruct (quotedMatch text).
  - unfold quoted_graph. cbn [nodes]. rewrite map_map. cbn [fst].
    rewrite map_id. apply fold_quoted_line_NoDup. constructor.
  - unfold parseDotToElements. cbn [nodes].
    refine (proj1 (@GraphFacts.fold_record_edge_labelled (declarations text)
                     (matches edgeRegex text) ([], declarations text) _)).
    apply GraphFacts.labelled_start, GraphFacts.declarations_NoDup.
Qed.

Lemma graph_edges_closed (text : str) (s t : str) :
  In (s, t) (edges (graph_of_text text)) ->
  In s (map fst (nodes (graph_of_text text)))
  /\ In t (map fst (nodes (graph_of_text text))).
Proof.
  intros H. unfold graph_of_text in *. destruct (quotedMatch text).
  - unfold quoted_graph in *. cbn [nodes edges] in *.
    rewrite map_map. cbn [fst]. rewrite map_id.
    pose proof (@GraphFacts.fold_quoted_line_closed
                  (split_on newline text) ([], []) (Forall_nil _)) as Hc.
    unfold closed_set in Hc. rewrite Forall_forall in Hc.
    apply (Hc (s, t) H).
  - unfold parseDotToElements in *. cbn [nodes edges] in *.
    assert (H0 : closed (fst (([] : list (str * str)), declarations text))
                   (snd (([] : list (str * str)), declarations text)))
      by constructor.
    pose proof (@GraphFacts.fold_record_edge_closed
                  (matches edgeRegex text) ([], declarations text) H0) as Hc.
    unfold closed in Hc. rewrite Forall_forall in Hc.
    apply (Hc (s, t) H).
Qed.

(** X2: in the element list built from any text, by either dialect, no two
    node elements have the same id, no two edge elements have the same id
    (they are e0, e1, ... in order), and the source and the target of every
    edge element are ids of node elements of the list. *)
Theorem elementsData_well_formed (text : str) :
  NoDup (node_ids (elementsData text))
  /\ NoDup (edge_ids (elementsData text))
  /\ edge_ids (elementsData text)
     = map (fun i => lit "e" ++ decimal i)
         (seq 0 (length (edge_ids (elementsData text))))
  /\ forall id s t,
       In (EdgeElement id s t) (elementsData text) ->
       In s (node_ids (elementsData text))
       /\ In t (node_ids (elementsData text)).
Proof.
  destruct (elementsData_ids text) as (Hn & He & Hin).
  rewrite Hn. repeat split.
  - apply graph_nodes_NoDup.
  - rewrite He. apply NoDup_map_inj; [|apply seq_NoDup].
    intros i j H. apply app_inv_head in H. now apply DecimalFacts.decimal_inj.
  - rewrite He at 1. now rewrite He, length_map, length_seq.
  - apply (graph_edges_closed text s t), (Hin id), H.
  - apply (graph_edges_closed text s t), (Hin id), H.
Qed.

End ElementFacts.

Module LabelFacts.
Import Regex RegexFacts Converter.

Lemma take_segment_no_slash (r : str) : ~ In Path.slash (Path.take_segment r).
Proof.
  induction r as [|c r IH]; simpl; auto.
  destruct (N.eqb c Path.slash) eqn:E; simpl; auto.
  intros [H|H]; auto. subst. now rewrite N.eqb_refl in E.
Qed.

Lemma basename_no_slash (path : str) : ~ In Path.slash (Path.basename path).
Proof.
  unfold Path.basename. rewrite <- in_rev. apply take_segment_no_slash.
Qed.

Lemma Forall_set (V : Type) (P : str * V -> Prop) (k : str) (v : V)
  (m : OMap.t V) :
  P (k, v) -> Forall P m -> Forall P (OMap.set k v m).
Proof.
  intros Hk. induction 1 as [|[k' v'] m Hx Hm IH]; simpl.
  - now constructor.
  - destruct (str_eqb k k'); constructor; auto.
Qed.

Lemma fold_record_label_clean (text : str) (ms : list (list str)) :
  Forall (fun caps =>
            exists pre w rest,
              text = pre ++ w ++ rest
              /\ Matches commentRegex (prev_after pre None) w rest caps) ms ->
  forall m0,
    NoDup (map fst m0) /\ Forall clean_entry m0 ->
    NoDup (map fst (fold_left record_label ms m0))
    /\ Forall clean_entry (fold_left record_label ms m0).
Proof.
  induction 1 as [|caps ms (pre & w & rest & _ & Hm) _ IH]; intros m0 H0; auto.
  cbn [fold_left]. apply IH. destruct H0 as [Hnd Hcl].
  destruct (CommentFacts.Matches_comment Hm)
    as (ws & id & path & -> & _ & _ & Hne & Hid & Hp).
  cbn [record_label]. split.
  - now apply NoDup_keys_set.
  - apply Forall_set; auto. repeat split; cbn [fst snd]; auto.
    + apply basename_no_slash.
    + now apply RewriteFacts.basename_dot.
Qed.

(** X3: in the id to label map read from any text, every id is a
    non-empty run of digits and appears once, and no label holds a slash or
    a line terminator. *)
Theorem idToLabel_of_clean (text : str) :
  NoDup (map fst (idToLabel_of text))
  /\ Forall clean_entry (idToLabel_of text).
Proof.
  unfold idToLabel_of, matches.
  apply (fold_record_label_clean text).
  - apply CommentFacts.exec_all_sound.
  - split; constructor.
Qed.

End LabelFacts.

Module SideFileErrors.
Import Converter.

Lemma omapM_basename_cases (vs : list json) :
  match omapM basename_of vs with
  | Ok names => forallb is_string vs = true /\ length names = length vs
  | Throw e => forallb is_string vs = false /\ e = TypeError
  end.
Proof.
  induction vs as [|v vs IH]; [now split|].
  cbn [omapM forallb]. destruct v; cbn [basename_of obind is_string andb]; auto.
  destruct (omapM basename_of vs); cbn [obind]; auto.
  destruct IH as [IH1 IH2]. split; auto. cbn [length]. now rewrite IH2.
Qed.

Lemma convert_cell_cases (ap : list str -> json -> option json)
  (names : list str) (cell : json) :
  match convert_cell ap names cell with
  | Ok _ => good_cell cell = true
  | Throw e => good_cell cell = false /\ e = TypeError
  end.
Proof.
  unfold convert_cell, good_cell.
  destruct cell as [| | | | |fields];
    cbn [get_prop obind index_variables not_null cell_key key_fails andb
         negb];
    auto.
  destruct (OMap.get (lit "src") fields) as [[| | | |l|fs]|];
    destruct (OMap.get (lit "dest") fields) as [[| | | |l'|fs']|];
    cbn [index_variables key_fails obind negb andb]; auto;
    repeat
      match goal with
      | |- context [key_throws ?v] =>
          destruct (key_throws v); cbn [obind negb andb]; auto
      end.
Qed.

Lemma omapM_convert_cell_cases (ap : list str -> json -> option json)
  (names : list str) (cs : list json) :
  match omapM (convert_cell ap names) cs with
  | Ok cells => forallb good_cell cs = true /\ length cells = length cs
  | Throw e => forallb good_cell cs = false /\ e = TypeError
  end.
Proof.
  induction cs as [|c cs IH]; [now split|].
  cbn [omapM forallb]. pose proof (convert_cell_cases ap names c) as Hc.
  destruct (convert_cell ap names c); cbn [obind].
  - rewrite Hc. cbn [andb].
    destruct (omapM (convert_cell ap names) cs); cbn [obind]; auto.
    destruct IH as [IH1 IH2]. split; auto. cbn [length]. now rewrite IH2.
  - destruct Hc as [-> ->]. now split.
Qed.

Lemma convert_cell_object (ap : list str -> json -> option json)
  (names : list str) (cell out : json) :
  convert_cell ap names cell = Ok out -> not_null out = true.
Proof.
  unfold convert_cell. intros H.
  repeat
    match type of H with
    | obind ?x _ = _ => destruct x; cbn [obind] in H; [|discriminate H]
    end.
  injection H as <-. reflexivity.
Qed.

Lemma omapM_convert_cell_objects (ap : list str -> json -> option json)
  (names : list str) (cs : list json) :
  forall cells,
    omapM (convert_cell ap names) cs = Ok cells ->
    forallb not_null cells = true.
Proof.
  induction cs as [|c cs IH]; intros cells H.
  - injection H as <-. reflexivity.
  - cbn [omapM] in H.
    destruct (convert_cell ap names c) as [o|] eqn:E; [|discriminate H].
    destruct (omapM (convert_cell ap names) cs) as [os|];
      [|discriminate H].
    cbn [obind] in H. injection H as <-. cbn [forallb].
    now rewrite (convert_cell_object _ _ _ _ E), (IH os).
Qed.

Lemma forallb_is_string (names : list str) :
  forallb is_string (map JStr names) = true.
Proof. induction names; simpl; auto. Qed.

(** X4: the conversion of the side file succeeds exactly on the documents
    that are an object whose [variables] is an array of strings and whose
    [cells] is an array of cells none of which is [null] or has, as
    [src] or [dest], a key that cannot be made a string (an object with a
    property [toString] of its own, or an array that holds one); on
    every other document it fails with a TypeError.  What it returns is
    an object whose [variables] is an array of strings and whose [cells]
    is an array without [null]. *)
Theorem convertJson_accepts (ap : list str -> json -> option json)
  (parsed : json) :
  (convertible parsed = true ->
   exists fields, convertJson ap parsed = Ok (JObj fields))
  /\ (convertible parsed = false -> convertJson ap parsed = Throw TypeError)
  /\ (forall out, convertJson ap parsed = Ok out ->
                  record_set not_null out = true).
Proof.
  unfold convertJson, convertible, record_set.
  destruct parsed as [| | | | |fields]; cbn [get_prop obind as_array];
    try (repeat split; intros; discriminate).
  destruct (OMap.get (lit "variables") fields) as [[| | | |vs|]|];
    cbn [as_array obind]; try (repeat split; intros; discriminate).
  pose proof (omapM_basename_cases vs) as Hv.
  destruct (omapM basename_of vs) as [names|e]; cbn [obind].
  2: { destruct Hv as [-> ->].
       destruct (OMap.get (lit "cells") fields) as [[| | | | |]|];
         repeat split; intros; discriminate. }
  destruct Hv as [Hv _]. rewrite Hv. cbn [andb].
  destruct (OMap.get (lit "cells") fields) as [[| | | |cs|]|] eqn:Ec;
    cbn [as_array obind]; try (repeat split; intros; discriminate).
  pose proof (omapM_convert_cell_cases ap names cs) as Hc.
  pose proof (omapM_convert_cell_objects ap names cs) as Ho.
  destruct (omapM (convert_cell ap names) cs) as [cells|e]; cbn [obind].
  - destruct Hc as [Hc _]. rewrite Hc. repeat split.
    + eauto.
    + discriminate.
    + intros out H. injection H as <-.
      rewrite get_set_same, get_set_other by discriminate.
      rewrite get_set_same, forallb_is_string. now apply Ho.
  - destruct Hc as [-> ->]. repeat split; intros; discriminate.
Qed.

End SideFileErrors.

Module ConvertRun.
Import Regex Converter.

Ltac run_step :=
  unfold bind, try_catch, readFile, writeFile, log, lift; cbn [files console].

Ltac side_file rawJson :=
  match goal with
  | |- context [if str_eqb ?a ?b then Some ?x else ?f ?a] =>
      destruct (if str_eqb a b then Some x else f a) as [rawJson|]
  end.

(** X5: whatever the runtime and the files, a call of [convertDotIds]
    changes no file but the two converted files, and only adds lines to the
    console.  When the graph file can be read, the side file parses and
    converts, and both converted files can be written, the converted text
    and the converted record set are written and the console receives five
    lines, the last of which reports the converted record set. *)
Theorem convertDotIds_writes (rt : runtime) (dotPath : str) (w : world) :
  (forall p,
      p <> converted_path rt dotPath ".converted.dot" ->
      p <> converted_path rt dotPath ".converted.json" ->
      files (snd (convertDotIds rt dotPath w)) p = files w p)
  /\ (exists lines,
         console (snd (convertDotIds rt dotPath w))
         = console w ++ LogDotPath dotPath :: lines)
  /\ (forall raw rawJson parsed newJson,
         files w dotPath = Some raw ->
         can_write rt (converted_path rt dotPath ".converted.dot") = true ->
         files_with (files w) (converted_path rt dotPath ".converted.dot")
           (convertDotText raw) (converted_path rt dotPath ".json")
         = Some rawJson ->
         JSON_parse rt rawJson = Ok parsed ->
         convertJson (rt_array_prop rt) parsed = Ok newJson ->
         can_write rt (converted_path rt dotPath ".converted.json") = true ->
         convertDotIds rt dotPath w
         = (Ok tt,
            {| files :=
                 files_with
                   (files_with (files w)
                      (converted_path rt dotPath ".converted.dot")
                      (convertDotText raw))
                   (converted_path rt dotPath ".converted.json")
                   (JSON_stringify rt newJson);
               console :=
                 console w ++ dot_log rt dotPath raw
                 ++ [LogJsonConverted
                       (converted_path rt dotPath ".converted.json")] |})).
Proof.
  unfold convertDotIds. run_step.
  fold (converted_path rt dotPath ".converted.dot").
  fold (converted_path rt dotPath ".json").
  fold (converted_path rt dotPath ".converted.json").
  split; [|split].
  - intros p Hdot Hjson.
    apply str_eqb_neq in Hdot. apply str_eqb_neq in Hjson.
    destruct (files w dotPath) as [raw|]; cbn [snd files console]; auto.
    destruct (can_write rt (converted_path rt dotPath ".converted.dot"));
      cbn [snd files console]; auto.
    side_file rawJson; cbn [snd files console]; [|now rewrite Hdot].
    destruct (JSON_parse rt rawJson) as [parsed|];
      cbn [snd files console]; [|now rewrite Hdot].
    destruct (convertJson (rt_array_prop rt) parsed) as [newJson|];
      cbn [snd files console]; [|now rewrite Hdot].
    destruct (can_write rt (converted_path rt dotPath ".converted.json"));
      cbn [snd files console]; now rewrite ?Hjson, Hdot.
  - destruct (files w dotPath) as [raw|]; cbn [snd files console].
    2: { eexists. now rewrite <- app_assoc. }
    destruct (can_write rt (converted_path rt dotPath ".converted.dot"));
      cbn [snd files console].
    2: { eexists. now repeat (rewrite <- app_assoc; cbn [app]). }
    side_file rawJson; cbn [snd files console].
    2: { eexists. now repeat (rewrite <- app_assoc; cbn [app]). }
    destruct (JSON_parse rt rawJson) as [parsed|]; cbn [snd files console].
    2: { eexists. now repeat (rewrite <- app_assoc; cbn [app]). }
    destruct (convertJson (rt_array_prop rt) parsed) as [newJson|];
      cbn [snd files console].
    2: { eexists. now repeat (rewrite <- app_assoc; cbn [app]). }
    destruct (can_write rt (converted_path rt dotPath ".converted.json"));
      cbn [snd files console];
      eexists; now repeat (rewrite <- app_assoc; cbn [app]).
  - intros raw rawJson parsed newJson Hraw Hw Hside Hparse Hconv Hw2.
    rewrite Hraw, Hw. cbn [files console].
    unfold files_with, convertDotText in Hside. cbv zeta in Hside.
    rewrite Hside, Hparse, Hconv, Hw2.
    cbn [files console]. unfold dot_log, files_with, convertDotText.
    now repeat (rewrite <- app_assoc; cbn [app]).
Qed.

End ConvertRun.

Module UriFacts.
Import Regex RegexFacts RegexEval.
Local Open Scope N_scope.

Lemma hex_digit_not_percent (n : N) : Uri.hex_digit n <> 37.
Proof. unfold Uri.hex_digit. destruct (n <? 10) eqn:E; lia. Qed.

Lemma hex_digit_not_slash (n : N) : Uri.hex_digit n <> 47.
Proof. unfold Uri.hex_digit. destruct (n <? 10) eqn:E; lia. Qed.

Lemma hex_digits_slash (b : N) :
  Uri.hex_digit (b / 16) = 50 -> Uri.hex_digit (b mod 16) = 70 -> b = 47.
Proof.
  unfold Uri.hex_digit. intros H1 H2.
  destruct (b / 16 <? 10) eqn:E1; [|apply N.ltb_ge in E1; lia].
  destruct (b mod 16 <? 10) eqn:E2; [apply N.ltb_lt in E2; lia|].
  rewrite (N.div_mod b 16) by lia. lia.
Qed.

Lemma unreserved_not_percent (c : char) : Uri.is_unreserved c = true -> c <> 37.
Proof. intros H ->. discriminate H. Qed.

Lemma unreserved_not_slash (c : char) : Uri.is_unreserved c = true -> c <> 47.
Proof. intros H ->. discriminate H. Qed.

Lemma above_slash (a b : N) : 128 <= a -> a + b <> 47.
Proof. lia. Qed.

(** The bytes of the UTF-8 form of a code point that is not the slash. *)
Lemma utf8_not_slash (cp : N) : cp <> 47 -> Forall (fun b => b <> 47) (Uri.utf8 cp).
Proof.
  intros H. unfold Uri.utf8.
  destruct (cp <? 128); [|destruct (cp <? 2048); [|destruct (cp <? 65536)]];
    repeat (apply Forall_cons || apply Forall_nil); cbv beta; auto;
    apply above_slash; lia.
Qed.

Lemma escape_no_slash (cp : N) : ~ In 47 (Uri.escape cp).
Proof.
  unfold Uri.escape. intros H. apply in_concat in H.
  destruct H as (t & Ht & Hin). apply in_map_iff in Ht.
  destruct Ht as (b & <- & _). unfold Uri.percent in Hin.
  destruct Hin as [H|[H|[H|[]]]]; try discriminate H;
    now apply hex_digit_not_slash in H.
Qed.

(** An encoded component holds no slash. *)
Lemma encodeURIComponent_no_slash (n : nat) :
  forall s enc,
    (length s <= n)%nat -> Uri.encodeURIComponent s = Some enc -> ~ In 47 enc.
Proof.
  induction n as [|n IH]; intros s enc Hn H.
  - destruct s; [|simpl in Hn; lia]. injection H as <-. auto.
  - destruct s as [|c s]; [injection H as <-; auto|].
    cbn [Uri.encodeURIComponent] in H. cbn [length] in Hn.
    destruct (Uri.is_unreserved c) eqn:Eu.
    { destruct (Uri.encodeURIComponent s) as [e|] eqn:E; [|discriminate H].
      injection H as <-. intros [Hc|Hin].
      - now apply unreserved_not_slash in Eu.
      - apply (IH s e); auto; lia. }
    destruct (Uri.is_low_surrogate c); [discriminate H|].
    destruct (Uri.is_high_surrogate c).
    { destruct s as [|d s]; [discriminate H|].
      destruct (Uri.is_low_surrogate d); [|discriminate H].
      destruct (Uri.encodeURIComponent s) as [e|] eqn:E; [|discriminate H].
      injection H as <-. intros Hin. apply in_app_or in Hin.
      destruct Hin as [Hin|Hin]; [now apply escape_no_slash in Hin|].
      apply (IH s e); auto. cbn [length] in Hn. lia. }
    destruct (65536 <=? c); [discriminate H|].
    destruct (Uri.encodeURIComponent s) as [e|] eqn:E; [|discriminate H].
    injection H as <-. intros Hin. apply in_app_or in Hin.
    destruct Hin as [Hin|Hin]; [now apply escape_no_slash in Hin|].
    apply (IH s e); auto; lia.
Qed.

End UriFacts.

Module RequestFacts.
Import Regex RegexFacts RegexEval Viewer Spec.
Local Open Scope N_scope.

Section Escapes.
Variable f : list str -> str.

Lemma slashEscapeRegex_eq : slashEscapeRegex = [Chr 37; Chr 50; Chr 70].
Proof. reflexivity. Qed.

Lemma pass_plain (c : char) (rest : str) (prev : option char) :
  c <> 37 ->
  replace slashEscapeRegex f prev 0 (c :: rest)
  = c :: replace slashEscapeRegex f (Some c) 0 rest.
Proof.
  intros H. apply ReplaceFacts.replace_miss.
  rewrite slashEscapeRegex_eq, run_chr.
  destruct (N.eqb_spec 37 c); congruence.
Qed.

Lemma pass_percent (b : N) (rest : str) (prev : option char) :
  b <> 47 ->
  exists prev',
    replace slashEscapeRegex f prev 0 (Uri.percent b ++ rest)
    = Uri.percent b ++ replace slashEscapeRegex f prev' 0 rest.
Proof.
  intros H. unfold Uri.percent. cbn [app]. eexists.
  rewrite ReplaceFacts.replace_miss.
  - rewrite !pass_plain by apply UriFacts.hex_digit_not_percent. reflexivity.
  - rewrite slashEscapeRegex_eq, run_chr. cbv iota. rewrite N.eqb_refl.
    rewrite run_chr. cbv iota.
    destruct (N.eqb_spec 50 (Uri.hex_digit (b / 16))) as [E1|]; auto.
    rewrite run_chr. cbv iota.
    destruct (N.eqb_spec 70 (Uri.hex_digit (b mod 16))) as [E2|]; auto.
    exfalso. apply H. now apply UriFacts.hex_digits_slash.
Qed.

Lemma pass_bytes (bs : list N) (rest : str) :
  Forall (fun b => b <> 47) bs ->
  forall prev, exists prev',
    replace slashEscapeRegex f prev 0 (concat (map Uri.percent bs) ++ rest)
    = concat (map Uri.percent bs) ++ replace slashEscapeRegex f prev' 0 rest.
Proof.
  induction 1 as [|b bs Hb _ IH]; intros prev; [now exists prev|].
  cbn [map concat]. rewrite <- app_assoc.
  destruct (pass_percent b (concat (map Uri.percent bs) ++ rest) prev Hb)
    as (p1 & ->).
  destruct (IH p1) as (p2 & ->). exists p2. now rewrite <- app_assoc.
Qed.

(** The last candidate of an id without slash: nothing is replaced. *)
Lemma pass_encoded (n : nat) :
  forall s enc rest prev,
    (length s <= n)%nat -> ~ In 47 s -> Uri.encodeURIComponent s = Some enc ->
    exists prev',
      replace slashEscapeRegex f prev 0 (enc ++ rest)
      = enc ++ replace slashEscapeRegex f prev' 0 rest.
Proof.
  induction n as [|n IH]; intros s enc rest prev Hn Hs H.
  - destruct s; [|simpl in Hn; lia]. injection H as <-. now exists prev.
  - destruct s as [|c s]; [injection H as <-; now exists prev|].
    cbn [Uri.encodeURIComponent] in H. cbn [length] in Hn.
    assert (Hc : c <> 47) by (intros ->; apply Hs; now left).
    assert (Hs' : ~ In 47 s) by (intros Hin; apply Hs; now right).
    destruct (Uri.is_unreserved c) eqn:Eu.
    { destruct (Uri.encodeURIComponent s) as [e|] eqn:E; [|discriminate H].
      injection H as <-. cbn [app].
      rewrite pass_plain by now apply UriFacts.unreserved_not_percent.
      destruct (IH s e rest (Some c)) as (p & ->); auto; [lia|].
      now exists p. }
    destruct (Uri.is_low_surrogate c); [discriminate H|].
    destruct (Uri.is_high_surrogate c).
    { destruct s as [|d s]; [discriminate H|].
      destruct (Uri.is_low_surrogate d); [|discriminate H].
      destruct (Uri.encodeURIComponent s) as [e|] eqn:E; [|discriminate H].
      injection H as <-. rewrite <- app_assoc. unfold Uri.escape.
      destruct (pass_bytes
                  (Uri.utf8 ((c - 55296) * 1024 + (d - 56320) + 65536))
                  (e ++ rest)) with (prev := prev) as (p1 & ->).
      { apply UriFacts.utf8_not_slash. lia. }
      destruct (IH s e rest p1) as (p & ->); auto.
      - cbn [length] in Hn. lia.
      - intros Hin. apply Hs'. now right.
      - exists p. now rewrite <- app_assoc. }
    destruct (65536 <=? c); [discriminate H|].
    destruct (Uri.encodeURIComponent s) as [e|] eqn:E; [|discriminate H].
    injection H as <-. rewrite <- app_assoc. unfold Uri.escape.
    destruct (pass_bytes (Uri.utf8 c) (e ++ rest)) with (prev := prev)
      as (p1 & ->).
    { now apply UriFacts.utf8_not_slash. }
    destruct (IH s e rest p1) as (p & ->); auto; [lia|].
    exists p. now rewrite <- app_assoc.
Qed.

End Escapes.

Lemma last_candidate_same (nodeId enc : str) :
  ~ In 47 nodeId -> Uri.encodeURIComponent nodeId = Some enc ->
  replace_g slashEscapeRegex (fun _ => lit "__")
    (lit "/dot/" ++ enc ++ lit ".tree.dot")
  = lit "/dot/" ++ enc ++ lit ".tree.dot".
Proof.
  intros Hs He. unfold replace_g. cbn [lit app].
  rewrite !pass_plain by discriminate.
  match goal with
  | |- context [replace _ ?f ?p 0 (enc ++ ?r)] =>
      destruct (pass_encoded f (length nodeId) nodeId enc r p (le_n _) Hs He)
        as (p' & ->)
  end.
  rewrite !pass_plain by discriminate. reflexivity.
Qed.

End RequestFacts.

Module RequestCount.
Import Regex Viewer Spec.
Local Open Scope N_scope.

Lemma try_candidates_prefix (fetch : str -> response) (nodeId : str)
  (cands : list str) :
  forall tried,
  exists k,
    fst (try_candidates fetch nodeId cands tried)
    = tried ++ firstn k (fresh tried cands).
Proof.
  induction cands as [|url rest IH]; intros tried.
  - exists 0%nat. cbn. now rewrite app_nil_r.
  - cbn [try_candidates fresh].
    destruct (OMap.includes url tried); [apply IH|].
    destruct (IH (tried ++ [url])) as (k & Hk).
    destruct (fetch url);
      try (exists (S k); rewrite Hk, <- app_assoc; reflexivity).
    exists 1%nat. reflexivity.
Qed.

Lemma dedup_NoDup (l : list str) : NoDup (dedup l).
Proof.
  induction l as [|x l IH]; cbn [dedup]; constructor.
  - intros H. apply filter_In in H. destruct H as [_ H].
    now rewrite str_eqb_refl in H.
  - now apply NoDup_filter.
Qed.

Lemma firstn_NoDup (A : Type) (k : nat) (l : list A) :
  NoDup l -> NoDup (firstn k l).
Proof.
  intros H. rewrite <- (firstn_skipn k l) in H.
  now apply NoDup_app_remove_r in H.
Qed.

Lemma length_differs (a b : str) :
  length a <> length b -> str_eqb a b = false.
Proof. intros H. apply str_eqb_neq. congruence. Qed.

(** Seven candidates of which the sixth is the first again. *)
Lemma dedup_seven (a b c d e z : str) :
  str_eqb a b = false -> str_eqb a c = false -> str_eqb a d = false ->
  str_eqb a e = false -> str_eqb b c = false -> str_eqb b d = false ->
  str_eqb b e = false -> str_eqb c d = false -> str_eqb c e = false ->
  str_eqb d e = false ->
  exists last,
    dedup [a; b; c; d; e; a; z] = [a; b; c; d; e] ++ last
    /\ (length last <= 1)%nat /\ (z = a -> last = []).
Proof.
  intros Hab Hac Had Hae Hbc Hbd Hbe Hcd Hce Hde.
  pose proof Hab as Hba. pose proof Hac as Hca. pose proof Had as Hda.
  pose proof Hae as Hea. pose proof Hbc as Hcb. pose proof Hbd as Hdb.
  pose proof Hbe as Heb. pose proof Hcd as Hdc. pose proof Hce as Hec.
  pose proof Hde as Hed.
  rewrite str_eqb_sym in Hba, Hca, Hda, Hea, Hcb, Hdb, Heb, Hdc, Hec, Hed.
  cbn [dedup filter].
  repeat (progress
            (rewrite ?str_eqb_refl, ?Hab, ?Hac, ?Had, ?Hae, ?Hbc, ?Hbd, ?Hbe,
               ?Hcd, ?Hce, ?Hde, ?Hba, ?Hca, ?Hda, ?Hea, ?Hcb, ?Hdb, ?Heb,
               ?Hdc, ?Hec, ?Hed;
             cbn [negb filter])
          || match goal with
             | |- context [str_eqb ?x z] => destruct (str_eqb x z) eqn:?
             end).
  all: try (exists []; repeat split; auto; cbn [length]; lia).
  exists [z]. repeat split; auto.
  intros ->. rewrite str_eqb_refl in *. discriminate.
Qed.

Lemma dedup_candidates (enc : str) :
  exists last,
    dedup (candidates enc) = distinct_candidates enc ++ last
    /\ (length last <= 1)%nat
    /\ (replace_g slashEscapeRegex (fun _ => lit "__")
          (lit "/dot/" ++ enc ++ lit ".tree.dot")
        = lit "/dot/" ++ enc ++ lit ".tree.dot" -> last = []).
Proof.
  unfold candidates, distinct_candidates.
  apply dedup_seven; apply length_differs;
    rewrite !length_app; cbn [lit length]; lia.
Qed.

(** X6: for a node id that [encodeURIComponent] accepts, whatever the
    server answers, the requests sent are the first candidates without
    their repetitions, up to where one succeeds: no location is asked
    twice, and at most six are asked.  The first five candidates differ for
    every id; a sixth location is asked only after those, and never for an
    id without slash. *)
Theorem fetchDotForNode_requests (fetch : str -> response) (nodeId enc : str) :
  Uri.encodeURIComponent nodeId = Some enc ->
  (exists k,
      fst (fetchDotForNode fetch nodeId) = firstn k (dedup (candidates enc)))
  /\ NoDup (fst (fetchDotForNode fetch nodeId))
  /\ (length (fst (fetchDotForNode fetch nodeId)) <= 6)%nat
  /\ (exists last,
         dedup (candidates enc) = distinct_candidates enc ++ last
         /\ (length last <= 1)%nat)
  /\ (~ In 47 nodeId ->
      dedup (candidates enc) = distinct_candidates enc
      /\ (length (fst (fetchDotForNode fetch nodeId)) <= 5)%nat).
Proof.
  intros He. unfold fetchDotForNode. rewrite He.
  destruct (try_candidates_prefix fetch nodeId (candidates enc) []) as (k & Hk).
  rewrite OverlayFacts.fresh_nil_dedup in Hk. cbn [app] in Hk.
  destruct (dedup_candidates enc) as (last & Hd & Hl & Hsame).
  rewrite Hk. repeat split.
  - now exists k.
  - apply firstn_NoDup, dedup_NoDup.
  - rewrite length_firstn, Hd, length_app. cbn [distinct_candidates length]. lia.
  - exists last. split; assumption.
  - rewrite Hd, Hsame, app_nil_r; auto.
    now apply RequestFacts.last_candidate_same with (nodeId := nodeId).
  - rewrite length_firstn, Hd, Hsame, app_nil_r;
      [cbn [distinct_candidates length]; lia|].
    now apply RequestFacts.last_candidate_same with (nodeId := nodeId).
Qed.

Lemma fetchDotForNode_requests_helpers :
  (exists k,
      fst (fetchDotForNode only_plain_dot helpers)
      = firstn k (dedup (candidates helpers_enc)))
  /\ NoDup (fst (fetchDotForNode only_plain_dot helpers))
  /\ (length (fst (fetchDotForNode only_plain_dot helpers)) <= 6)%nat.
Proof.
  destruct (fetchDotForNode_requests only_plain_dot helpers helpers_enc eq_refl)
    as (H1 & H2 & H3 & _).
  repeat split; assumption.
Defined.

End RequestCount.

Module RouteFacts.
Import Regex Viewer Server Page.
Local Open Scope N_scope.

Lemma route_dot (rest : str) :
  route (Some (lit "/dot/" ++ rest)) = (DotDir, Some (lit "/" ++ rest)).
Proof. reflexivity. Qed.

Lemma startsWith_dot_slash (z : str) :
  startsWith (lit "/dot/") (47 :: z) = true -> In 47 z.
Proof.
  destruct z as [|a [|b [|c [|d z]]]]; cbn [startsWith lit]; intros H;
    rewrite ?andb_false_r in H; try discriminate H.
  apply andb_prop in H. destruct H as [_ H].
  apply andb_prop in H. destruct H as [_ H].
  apply andb_prop in H. destruct H as [_ H].
  apply andb_prop in H. destruct H as [_ H].
  apply andb_prop in H. destruct H as [H _].
  apply N.eqb_eq in H. subst d. right. right. right. left. reflexivity.
Qed.

Lemma route_plain (z : str) :
  ~ In 47 z -> route (Some (47 :: z)) = (VisualizerDir, Some (47 :: z)).
Proof.
  intros H. unfold route.
  destruct (startsWith (lit "/dot/") (47 :: z)) eqn:E; auto.
  now apply startsWith_dot_slash in E.
Qed.

Lemma fetchPath_slash (dotParam : option str) :
  startsWith (lit "/") (fetchPath dotParam) = true.
Proof.
  unfold fetchPath.
  destruct dotParam as [[|c p]|]; try reflexivity.
  destruct (startsWith (lit "/") (c :: p)) eqn:E; auto.
Qed.

(** X7: a request whose url starts with /dot/ is served from the directory
    of the graph file, under the url without its /dot; every other request,
    one without url included, is served from the visualizer directory
    under its own url.  So a request whose url is a candidate of
    [fetchDotForNode] without /dot/ in front is served from the visualizer
    directory.  The path the page fetches first starts with a slash; when
    the dot parameter is absent or empty it is
    /depends-output-file.converted.dot, and a request with that url is
    served from the visualizer directory. *)
Theorem requests_routed (nodeId enc : str) :
  Uri.encodeURIComponent nodeId = Some enc ->
  (forall rest,
      route (Some (lit "/dot/" ++ rest)) = (DotDir, Some (lit "/" ++ rest)))
  /\ (forall u,
         startsWith (lit "/dot/") u = false ->
         route (Some u) = (VisualizerDir, Some u))
  /\ route None = (VisualizerDir, None)
  /\ (forall suffix,
         In suffix [lit ".tree.dot"; lit ".dot"] ->
         route (Some (lit "/" ++ enc ++ suffix))
         = (VisualizerDir, Some (lit "/" ++ enc ++ suffix)))
  /\ (forall dotParam, startsWith (lit "/") (fetchPath dotParam) = true)
  /\ fetchPath None = lit "/depends-output-file.converted.dot"
  /\ fetchPath (Some []) = lit "/depends-output-file.converted.dot"
  /\ route (Some (lit "/depends-output-file.converted.dot"))
     = (VisualizerDir, Some (lit "/depends-output-file.converted.dot")).
Proof.
  intros He.
  pose proof (UriFacts.encodeURIComponent_no_slash (length nodeId) nodeId enc
                (le_n _) He) as Henc.
  split; [exact route_dot|].
  split; [intros u Hu; unfold route; now rewrite Hu|].
  split; [reflexivity|].
  split.
  { intros suffix Hin. apply route_plain. intros H.
    apply in_app_or in H. destruct H as [H|H]; [auto|].
    destruct Hin as [<-|[<-|[]]]; vm_compute in H; intuition discriminate. }
  split; [exact fetchPath_slash|].
  repeat split.
Qed.

Lemma requests_routed_helpers :
  route (Some (lit "/dot/util%2Fhelpers.py.tree.dot"))
  = (DotDir, Some (lit "/util%2Fhelpers.py.tree.dot"))
  /\ route (Some (lit "/util%2Fhelpers.py.dot"))
     = (VisualizerDir, Some (lit "/util%2Fhelpers.py.dot")).
Proof.
  destruct (requests_routed helpers helpers_enc eq_refl)
    as (H1 & _ & _ & H2 & _).
  split.
  - apply (H1 (lit "util%2Fhelpers.py.tree.dot")).
  - apply (H2 (lit ".dot")). right. now left.
Defined.

End RouteFacts.

Module OverlayView.
Import Viewer Overlay.





End OverlayView.

Module ScanFacts.
Import Regex RegexFacts RegexEval.

Section Repeat.
Variable R : Type.
Variable p : char -> bool.

Lemma lazy_ext (s : str) :
  forall k k' : str -> str -> option R,
    (forall w r, k w r = k' w r) -> lazy p k s = lazy p k' s.
Proof.
  induction s as [|c s IH]; intros k k' H; cbn [lazy]; rewrite H; auto.
  destruct (k' [] (c :: s)); auto. destruct (p c); auto.
Qed.

Lemma rep_ext (q : quant) (k k' : str -> str -> option R) (s : str) :
  (forall w r, k w r = k' w r) -> rep p q k s = rep p q k' s.
Proof.
  intros H. destruct q; cbn [rep].
  - destruct s as [|c s]; auto. now rewrite H.
  - destruct s as [|c s]; auto. now rewrite !H.
  - now apply RewriteRun.greedy_ext.
  - destruct s as [|c s]; auto. destruct (p c); auto.
    apply RewriteRun.greedy_ext. auto.
  - now apply lazy_ext.
Qed.

End Repeat.

(** Without anchor, the character before the position plays no part. *)
Lemma run_anchor_free (r : regex) :
  anchor_free r -> forall prev prev' s, run r prev s = run r prev' s.
Proof.
  induction 1 as [|[| |p q cap] r Hi _ IH]; intros prev prev' s;
    try contradiction; auto.
  cbn [run]. apply rep_ext. intros w rest.
  now rewrite (IH (prev_after w prev) (prev_after w prev')).
Qed.

Lemma exec_all_anchor_free (r : regex) (s : str) :
  anchor_free r ->
  forall prev prev' skip, exec_all r prev skip s = exec_all r prev' skip s.
Proof.
  intros Hr. induction s as [|c s IH]; intros prev prev' skip.
  - destruct skip; cbn [exec_all]; auto.
    now rewrite (run_anchor_free r Hr prev prev').
  - destruct skip; cbn [exec_all]; auto.
    rewrite (run_anchor_free r Hr prev prev').
    destruct (run r prev' (c :: s)) as [[caps rest]|]; auto.
Qed.

Section Scan.
Variable r : regex.
Hypothesis Hr : anchor_free r.

Lemma scan_miss (c : char) (s : str) (prev : option char) :
  run r None (c :: s) = None ->
  exec_all r prev 0 (c :: s) = exec_all r None 0 s.
Proof.
  intros H. cbn [exec_all]. rewrite (run_anchor_free r Hr prev None), H.
  now apply exec_all_anchor_free.
Qed.

Lemma scan_skip (w s : str) :
  forall prev, exec_all r prev (length w) (w ++ s) = exec_all r None 0 s.
Proof.
  induction w as [|c w IH]; intros prev; cbn [length app exec_all].
  - now apply exec_all_anchor_free.
  - apply IH.
Qed.

(** A match is recorded and the scan resumes behind it. *)
Lemma scan_hit (prev : option char) (w rest : str) (caps : list str) :
  w <> [] -> run r None (w ++ rest) = Some (caps, rest) ->
  exec_all r prev 0 (w ++ rest) = caps :: exec_all r None 0 rest.
Proof.
  intros Hne Hrun. destruct w as [|c w]; [congruence|].
  cbn [app exec_all]. cbn [app] in Hrun.
  rewrite (run_anchor_free r Hr prev None), Hrun. f_equal.
  assert (Hl : (matched_len (c :: w ++ rest) rest - 1 = length w)%nat).
  { unfold matched_len.
    change (length (c :: w ++ rest)) with (S (length (w ++ rest))).
    rewrite length_app. lia. }
  rewrite Hl. apply scan_skip.
Qed.

(** A stretch in which no match starts. *)
Lemma scan_pass (w s : str) :
  (forall w1 c w2, w = w1 ++ c :: w2 -> run r None (c :: w2 ++ s) = None) ->
  forall prev, exec_all r prev 0 (w ++ s) = exec_all r None 0 s.
Proof.
  induction w as [|c w IH]; intros H prev.
  - now apply exec_all_anchor_free.
  - cbn [app]. rewrite scan_miss by (apply (H [] c w); reflexivity).
    apply IH. intros w1 d w2 ->. apply (H (c :: w1) d w2). reflexivity.
Qed.

Lemma scan_end (prev : option char) :
  run r None [] = None -> exec_all r prev 0 [] = [].
Proof.
  intros H. cbn [exec_all]. now rewrite (run_anchor_free r Hr prev None), H.
Qed.

End Scan.

(** The characters of a match are accepted by the classes. *)
Lemma Matches_accepted (r : regex) (prev : option char) (w rest : str)
  (caps : list str) :
  Matches r prev w rest caps -> Forall (accepted r) w.
Proof.
  induction 1 as [| | |p q cap r prev w1 w2 rest caps Hw1 _ _ IH];
    try (constructor; fail).
  - eapply Forall_impl; [|exact IHMatches]. intros c Hc. now right.
  - eapply Forall_impl; [|exact IHMatches]. intros c Hc. now right.
  - apply Forall_app. split.
    + eapply Forall_impl; [|exact Hw1]. intros c Hc. now left.
    + eapply Forall_impl; [|exact IH]. intros c Hc. now right.
Qed.

(** Without anchor, what follows the match plays no part either. *)
Lemma Matches_anchor_free (r : regex) (prev : option char) (w rest : str)
  (caps : list str) :
  anchor_free r -> Matches r prev w rest caps ->
  forall prev' rest', Matches r prev' w rest' caps.
Proof.
  intros Hr H. induction H as [| | |p q cap r prev w1 w2 rest caps H1 H2 _ IH];
    intros prev' rest'.
  - constructor.
  - inversion Hr; contradiction.
  - inversion Hr; contradiction.
  - constructor; auto. apply IH. now inversion Hr.
Qed.

Lemma prefix_before (q : char) (w : str) :
  forall suf rest rest',
    suf ++ q :: rest = w ++ rest' -> ~ In q w ->
    exists suf', suf = w ++ suf'.
Proof.
  induction w as [|c w IH]; intros suf rest rest' E Hq.
  - now exists suf.
  - destruct suf as [|d suf]; cbn [app] in E; injection E as -> E.
    + exfalso. apply Hq. now left.
    + destruct (IH suf rest rest' E) as (suf' & ->).
      * intros Hin. apply Hq. now right.
      * now exists suf'.
Qed.

(** A character that no class accepts closes the place: what does not
    match before it does not match with it behind. *)
Lemma run_closed_by (r : regex) (q : char) (suf rest : str) :
  anchor_free r -> ~ accepted r q ->
  run r None suf = None -> run r None (suf ++ q :: rest) = None.
Proof.
  intros Hr Hq Hnone.
  destruct (run r None (suf ++ q :: rest)) as [[caps rest']|] eqn:E; auto.
  exfalso. apply run_sound in E. destruct E as (w & E & Hm).
  assert (Hw : ~ In q w).
  { intros Hin. apply Hq.
    pose proof (Matches_accepted _ _ _ _ _ Hm) as Ha. rewrite Forall_forall in Ha.
    now apply Ha. }
  destruct (prefix_before q w suf rest rest' E Hw) as (suf' & ->).
  destruct (@run_complete r None w suf' caps
              (Matches_anchor_free _ _ _ _ _ Hr Hm None suf')) as (c' & r' & Hrun).
  congruence.
Qed.

Lemma search_none (r : regex) (s : str) :
  forall prev, search r prev s = None ->
  forall pre suf, s = pre ++ suf -> run r (prev_after pre prev) suf = None.
Proof.
  induction s as [|c s IH]; intros prev H pre suf E.
  - destruct pre; [|discriminate E]. cbn [app] in E. subst suf.
    rewrite search_unfold in H. cbn [prev_after rev].
    destruct (run r prev []) as [[? ?]|]; [discriminate H | reflexivity].
  - rewrite search_unfold in H.
    destruct (run r prev (c :: s)) as [[? ?]|] eqn:Er; [discriminate H|].
    destruct pre as [|d pre].
    + cbn [app] in E. subst suf. exact Er.
    + cbn [app] in E. injection E as <- ->.
      rewrite prev_after_cons. now apply (IH (Some c)).
Qed.

End ScanFacts.

Module LineScan.
Import Regex RegexFacts RegexEval Serializer Viewer ScanFacts.
Local Open Scope N_scope.

Lemma nodeRegex_anchor_free : anchor_free nodeRegex.
Proof. rewrite DialectFacts.nodeRegex_eq. repeat constructor. Qed.

Lemma edgeRegex_anchor_free : anchor_free edgeRegex.
Proof. rewrite DialectFacts.edgeRegex_eq. repeat constructor. Qed.

Lemma space_not_word (c : char) : is_space c = true -> is_word c = false.
Proof.
  intros H. destruct (is_word c) eqn:E; auto.
  apply word_not_space in E. congruence.
Qed.

Section Head.
Variable x : char.
Variable r' : regex.
Hypothesis Hx : is_word x = false.
Hypothesis Hsx : is_space x = false.

Hypothesis Hfree : anchor_free (head_pattern x r').

Lemma run_nonword (c : char) (s : str) :
  is_word c = false -> run (head_pattern x r') None (c :: s) = None.
Proof. intros H. unfold head_pattern. rewrite run_cls. cbn [rep]. now rewrite H. Qed.

Lemma run_word_miss (w s : str) :
  w <> [] -> all is_word w -> stops is_word s -> next_is_not x s ->
  run (head_pattern x r') None (w ++ s) = None.
Proof.
  intros Hne Hw Hs Hn. unfold head_pattern.
  rewrite run_plus_det
    by (apply SerializerFacts.refuses_star_chr;
        [exact word_not_space | exact Hx | exact Hsx]).
  rewrite (@takeWhile_app _ _ _ Hw Hs), (@dropWhile_app _ _ _ Hw Hs).
  destruct w as [|c w]; [congruence|]. cbv zeta.
  rewrite run_star_det by (apply refuses_chr; exact Hsx).
  rewrite run_chr. unfold next_is_not in Hn.
  destruct (dropWhile is_space s) as [|d s']; [reflexivity|].
  now rewrite Hn.
Qed.

Lemma pass_char (c : char) (s : str) (prev : option char) :
  is_word c = false ->
  exec_all (head_pattern x r') prev 0 (c :: s) = exec_all (head_pattern x r') None 0 s.
Proof.
  intros H. apply (scan_miss (head_pattern x r') Hfree). now apply run_nonword.
Qed.

Lemma pass_chars (w s : str) (prev : option char) :
  Forall (fun c => is_word c = false) w ->
  exec_all (head_pattern x r') prev 0 (w ++ s) = exec_all (head_pattern x r') None 0 s.
Proof.
  intros H. revert prev. induction H as [|c w Hc _ IH]; intros prev.
  - apply exec_all_anchor_free, Hfree.
  - cbn [app]. rewrite pass_char by exact Hc. apply IH.
Qed.

Lemma pass_word (w s : str) (prev : option char) :
  all is_word w -> stops is_word s -> next_is_not x s ->
  exec_all (head_pattern x r') prev 0 (w ++ s) = exec_all (head_pattern x r') None 0 s.
Proof.
  intros Hw Hs Hn. apply (scan_pass (head_pattern x r') Hfree).
  intros w1 c w2 ->. change (c :: w2 ++ s) with ((c :: w2) ++ s).
  apply run_word_miss; auto; [discriminate|].
  apply Forall_app in Hw. tauto.
Qed.

End Head.

Lemma nodeRegex_head : nodeRegex = head_pattern 91 node_tail.
Proof. reflexivity. Qed.

Lemma edgeRegex_head : edgeRegex = head_pattern 45 edge_tail.
Proof. reflexivity. Qed.

Lemma spaces_not_word (ind : str) :
  all is_space ind -> Forall (fun c => is_word c = false) ind.
Proof.
  intros H. eapply Forall_impl; [|exact H]. exact space_not_word.
Qed.

Lemma edge_line_app (a b rest : str) :
  edge_line a b ++ rest = a ++ 32 :: 45 :: 62 :: 32 :: b ++ 59 :: rest.
Proof. unfold edge_line. rewrite <- !app_assoc. reflexivity. Qed.

(** ** The node pattern over a line *)

Lemma node_scan_node_line (ind id type rest : str) (prev : option char) :
  all is_space ind -> word id -> all is_dot type -> no_quote_bracket type ->
  exec_all nodeRegex prev 0 ((ind ++ node_line id type) ++ newline :: rest)
  = [id; type] :: exec_all nodeRegex None 0 rest.
Proof.
  intros Hind [Hne Hid] Hty Hnq. rewrite <- app_assoc.
  rewrite nodeRegex_head.
  rewrite (pass_chars 91 node_tail nodeRegex_anchor_free)
    by now apply spaces_not_word.
  rewrite <- nodeRegex_head.
  rewrite (scan_hit nodeRegex nodeRegex_anchor_free None
             (node_line id type) (newline :: rest) [id; type]).
  - f_equal. rewrite nodeRegex_head.
    now rewrite (pass_char 91 node_tail nodeRegex_anchor_free).
  - unfold node_line. destruct id; [congruence | discriminate].
  - now apply SerializerFacts.run_node_line.
Qed.

Lemma node_scan_edge_line (ind a b rest : str) (prev : option char) :
  all is_space ind -> word a -> word b ->
  exec_all nodeRegex prev 0 ((ind ++ edge_line a b) ++ newline :: rest)
  = exec_all nodeRegex None 0 rest.
Proof.
  intros Hind [_ Ha] [_ Hb]. rewrite <- app_assoc, edge_line_app.
  rewrite nodeRegex_head.
  rewrite (pass_chars 91 node_tail nodeRegex_anchor_free)
    by now apply spaces_not_word.
  rewrite (pass_word 91 node_tail eq_refl eq_refl nodeRegex_anchor_free)
    by (auto; reflexivity).
  rewrite !(pass_char 91 node_tail nodeRegex_anchor_free) by reflexivity.
  rewrite (pass_word 91 node_tail eq_refl eq_refl nodeRegex_anchor_free)
    by (auto; reflexivity).
  now rewrite !(pass_char 91 node_tail nodeRegex_anchor_free) by reflexivity.
Qed.

(** ** The edge pattern over a line *)

Lemma edgeRegex_rejects_quote : ~ accepted edgeRegex dquote.
Proof.
  rewrite DialectFacts.edgeRegex_eq. intros H.
  repeat (apply Exists_cons in H; destruct H as [H|H]; [discriminate H|]).
  inversion H.
Qed.

Lemma edge_scan_type (type rest : str) (prev : option char) :
  test edgeRegex type = false ->
  exec_all edgeRegex prev 0 (type ++ dquote :: rest)
  = exec_all edgeRegex None 0 (dquote :: rest).
Proof.
  intros Ht. apply (scan_pass edgeRegex edgeRegex_anchor_free).
  intros w1 c w2 ->. change (c :: w2 ++ dquote :: rest)
    with ((c :: w2) ++ dquote :: rest).
  apply run_closed_by.
  - exact edgeRegex_anchor_free.
  - exact edgeRegex_rejects_quote.
  - unfold test in Ht.
    destruct (search edgeRegex None (w1 ++ c :: w2)) eqn:E; [discriminate|].
    rewrite (run_anchor_free edgeRegex edgeRegex_anchor_free None
               (prev_after w1 None)).
    now apply (search_none edgeRegex (w1 ++ c :: w2) None E w1 (c :: w2)).
Qed.

Lemma edge_scan_node_line (ind id type rest : str) (prev : option char) :
  all is_space ind -> word id -> plain_type type ->
  exec_all edgeRegex prev 0 ((ind ++ node_line id type) ++ newline :: rest)
  = exec_all edgeRegex None 0 rest.
Proof.
  intros Hind [_ Hid] (_ & _ & Ht).
  rewrite <- app_assoc, SerializerFacts.node_line_app.
  rewrite edgeRegex_head.
  rewrite (pass_chars 45 edge_tail edgeRegex_anchor_free)
    by now apply spaces_not_word.
  rewrite (pass_word 45 edge_tail eq_refl eq_refl edgeRegex_anchor_free)
    by (auto; reflexivity).
  rewrite !(pass_char 45 edge_tail edgeRegex_anchor_free) by reflexivity.
  change (108 :: 97 :: 98 :: 101 :: 108 :: 61 :: 34
          :: type ++ 34 :: 93 :: 59 :: newline :: rest)
    with ([108; 97; 98; 101; 108]
          ++ 61 :: 34 :: type ++ dquote :: 93 :: 59 :: newline :: rest).
  rewrite (pass_word 45 edge_tail eq_refl eq_refl edgeRegex_anchor_free)
    by (repeat constructor).
  rewrite !(pass_char 45 edge_tail edgeRegex_anchor_free) by reflexivity.
  rewrite <- edgeRegex_head.
  rewrite (edge_scan_type type _ None Ht), edgeRegex_head.
  now rewrite !(pass_char 45 edge_tail edgeRegex_anchor_free) by reflexivity.
Qed.

Lemma run_plus_max (p : char -> bool) (cap : bool) (r : regex)
  (prev : option char) (w rest : str) (x : list str * str) :
  w <> [] -> all p w -> stops p rest ->
  run r (prev_after w prev) rest = Some x ->
  run (Cls p Plus cap :: r) prev (w ++ rest)
  = with_group cap w (Some x).
Proof.
  intros Hne Hw Hs Hr. rewrite run_cls. cbn [rep].
  destruct w as [|c w]; [congruence|]. cbn [app].
  inversion Hw as [|? ? Hc Hw']; subst. rewrite Hc.
  destruct x as [caps out]. cbn [with_group].
  apply (@greedy_max _ p w
           (fun w0 r0 =>
              with_group cap (c :: w0) (run r (prev_after (c :: w0) prev) r0))
           rest); auto.
  now rewrite Hr.
Qed.

Lemma run_edge_line (a b rest : str) :
  word a -> word b ->
  run edgeRegex None (edge_line a b ++ rest) = Some ([a; b], rest).
Proof.
  intros [Hane Ha] [Hbne Hb].
  rewrite edge_line_app, DialectFacts.edgeRegex_eq.
  rewrite run_plus_det
    by (apply SerializerFacts.refuses_star_chr;
        [exact word_not_space | reflexivity | reflexivity]).
  assert (Hs : stops is_word (32 :: 45 :: 62 :: 32 :: b ++ 59 :: rest))
    by reflexivity.
  rewrite (@takeWhile_app _ _ _ Ha Hs), (@dropWhile_app _ _ _ Ha Hs).
  destruct a as [|a0 a]; [congruence|]. cbv zeta.
  generalize (prev_after (a0 :: a) None) as prev1. intros prev1.
  rewrite run_star_det by (apply refuses_chr; reflexivity).
  cbn [takeWhile dropWhile].
  change (is_space 32) with true. change (is_space 45) with false.
  cbv iota. rewrite !run_chr. cbn [N.eqb Pos.eqb].
  rewrite run_star_det
    by (apply refuses_plus; exact space_not_word).
  assert (Hsb : stops is_space (b ++ 59 :: rest)).
  { apply (@CommentFacts.stops_app_head is_space b (59 :: rest) is_word); auto.
    exact word_not_space. }
  cbn [takeWhile dropWhile]. change (is_space 32) with true. cbv iota.
  rewrite (@CommentFacts.takeWhile_stop is_space _ Hsb),
    (@CommentFacts.dropWhile_stop is_space _ Hsb).
  rewrite (run_plus_max is_word true _ _ b (59 :: rest) ([], rest));
    [reflexivity | assumption | assumption | reflexivity |].
  rewrite SerializerFacts.run_star_total
    by exact SerializerFacts.run_optional_last.
  reflexivity.
Qed.

Lemma edge_scan_edge_line (ind a b rest : str) (prev : option char) :
  all is_space ind -> word a -> word b ->
  exec_all edgeRegex prev 0 ((ind ++ edge_line a b) ++ newline :: rest)
  = [a; b] :: exec_all edgeRegex None 0 rest.
Proof.
  intros Hind Ha Hb. rewrite <- app_assoc.
  rewrite edgeRegex_head.
  rewrite (pass_chars 45 edge_tail edgeRegex_anchor_free)
    by now apply spaces_not_word.
  rewrite <- edgeRegex_head.
  rewrite (scan_hit edgeRegex edgeRegex_anchor_free None
             (edge_line a b) (newline :: rest) [a; b]).
  - f_equal. rewrite edgeRegex_head.
    now rewrite (pass_char 45 edge_tail edgeRegex_anchor_free).
  - unfold edge_line. destruct Ha as [Hne _].
    destruct a; [congruence | discriminate].
  - now apply run_edge_line.
Qed.

End LineScan.

Module GraphTextFacts.
Import Regex RegexFacts RegexEval Serializer Viewer ScanFacts LineScan.
Local Open Scope N_scope.

Lemma join_cons (sep x : str) (l : list str) :
  l <> [] -> join sep (x :: l) = x ++ sep ++ join sep l.
Proof. destruct l; [congruence | reflexivity]. Qed.

Lemma graph_text_lines (header indent : str) (ls : list dline) :
  graph_text header indent ls = header ++ newline :: lines_text indent ls.
Proof.
  unfold graph_text. rewrite join_cons by (destruct ls; discriminate).
  cbn [app]. do 2 f_equal.
  induction ls as [|l ls IH]; [reflexivity|].
  cbn [map app lines_text]. rewrite join_cons by (destruct ls; discriminate).
  cbn [app]. now rewrite IH.
Qed.

(** The opening line: the word digraph, a name, a brace. *)
Lemma header_app (name rest : str) :
  (lit "digraph " ++ name ++ lit " {") ++ newline :: rest
  = [100; 105; 103; 114; 97; 112; 104]
    ++ 32 :: name ++ 32 :: 123 :: newline :: rest.
Proof. rewrite <- !app_assoc. reflexivity. Qed.

Section Head.
Variable x : char.
Variable r' : regex.
Hypothesis Hx : is_word x = false.
Hypothesis Hsx : is_space x = false.
Hypothesis Hfree : anchor_free (head_pattern x r').
Hypothesis Hbrace : N.eqb x 123 = false.

Lemma scan_header (name rest : str) (prev : option char) :
  word name ->
  exec_all (head_pattern x r') prev 0
    ((lit "digraph " ++ name ++ lit " {") ++ newline :: rest)
  = exec_all (head_pattern x r') None 0 rest.
Proof.
  intros [Hne Hname]. rewrite header_app.
  assert (Hn : next_is_not x (32 :: name ++ 32 :: 123 :: newline :: rest)).
  { unfold next_is_not. cbn [dropWhile]. change (is_space 32) with true.
    cbv iota. destruct name as [|c name]; [congruence|]. cbn [app dropWhile].
    inversion Hname as [|? ? Hc _]; subst.
    rewrite (word_not_space _ Hc).
    destruct (N.eqb_spec x c) as [->|]; [congruence | reflexivity]. }
  rewrite (pass_word x r' Hx Hsx Hfree) by (auto; repeat constructor).
  rewrite (pass_char x r' Hfree) by reflexivity.
  assert (Hb : next_is_not x (32 :: 123 :: newline :: rest)).
  { unfold next_is_not. cbn [dropWhile]. change (is_space 32) with true.
    change (is_space 123) with false. cbv iota. exact Hbrace. }
  rewrite (pass_word x r' Hx Hsx Hfree name (32 :: 123 :: newline :: rest)
             None Hname eq_refl Hb).
  now rewrite !(pass_char x r' Hfree) by reflexivity.
Qed.

Lemma scan_brace (prev : option char) :
  run (head_pattern x r') None [] = None ->
  exec_all (head_pattern x r') prev 0 (lit "}") = [].
Proof.
  intros H. cbn [lit]. rewrite (pass_char x r' Hfree) by reflexivity.
  now apply scan_end.
Qed.

End Head.

Lemma node_scan_lines (indent : str) (ls : list dline) :
  all is_space indent -> Forall wf_dline ls ->
  forall prev,
    exec_all nodeRegex prev 0 (lines_text indent ls) = flat_map node_caps ls.
Proof.
  intros Hind. induction 1 as [|l ls Hl _ IH]; intros prev.
  - cbn [lines_text flat_map]. rewrite nodeRegex_head.
    apply (scan_brace 91 node_tail nodeRegex_anchor_free). reflexivity.
  - cbn [lines_text flat_map].
    destruct l as [id type|a b]; cbn [dline_text node_caps wf_dline] in *.
    + destruct Hl as (Hid & Hty & Hnq & _).
      rewrite node_scan_node_line by assumption. cbn [app]. now rewrite IH.
    + destruct Hl as (Ha & Hb).
      rewrite node_scan_edge_line by assumption. cbn [app]. apply IH.
Qed.

Lemma edge_scan_lines (indent : str) (ls : list dline) :
  all is_space indent -> Forall wf_dline ls ->
  forall prev,
    exec_all edgeRegex prev 0 (lines_text indent ls) = flat_map edge_caps ls.
Proof.
  intros Hind. induction 1 as [|l ls Hl _ IH]; intros prev.
  - cbn [lines_text flat_map]. rewrite edgeRegex_head.
    apply (scan_brace 45 edge_tail edgeRegex_anchor_free). reflexivity.
  - cbn [lines_text flat_map].
    destruct l as [id type|a b]; cbn [dline_text edge_caps wf_dline] in *.
    + destruct Hl as (Hid & Hty).
      rewrite edge_scan_node_line by assumption. cbn [app]. apply IH.
    + destruct Hl as (Ha & Hb).
      rewrite edge_scan_edge_line by assumption. cbn [app]. now rewrite IH.
Qed.

(** What the two loops of the parser capture in a graph text. *)
Lemma matches_graph_text (name indent : str) (ls : list dline) :
  word name -> all is_space indent -> Forall wf_dline ls ->
  matches nodeRegex (graph_text (lit "digraph " ++ name ++ lit " {") indent ls)
  = flat_map node_caps ls
  /\ matches edgeRegex
       (graph_text (lit "digraph " ++ name ++ lit " {") indent ls)
     = flat_map edge_caps ls.
Proof.
  intros Hname Hind Hls. unfold matches. rewrite graph_text_lines.
  change (?h ++ newline :: ?t) with (h ++ newline :: t).
  split.
  - rewrite nodeRegex_head.
    rewrite (scan_header 91 node_tail eq_refl eq_refl nodeRegex_anchor_free
               eq_refl name _ None Hname).
    rewrite <- nodeRegex_head. now apply node_scan_lines.
  - rewrite edgeRegex_head.
    rewrite (scan_header 45 edge_tail eq_refl eq_refl edgeRegex_anchor_free
               eq_refl name _ None Hname).
    rewrite <- edgeRegex_head. now apply edge_scan_lines.
Qed.

(** ** The model built from the captures *)

Lemma set_fresh (V : Type) (k : str) (v : V) (m : OMap.t V) :
  ~ In k (map fst m) -> OMap.set k v m = m ++ [(k, v)].
Proof.
  induction m as [|[k' v'] m IH]; intros H; [reflexivity|].
  cbn [OMap.set]. destruct (str_eqb k k') eqn:E.
  - apply str_eqb_eq in E. subst. exfalso. apply H. now left.
  - cbn [app]. rewrite IH; auto. intros Hin. apply H. now right.
Qed.

Lemma fold_declare_fresh (ls : list dline) :
  forall m,
    NoDup (map fst m ++ map fst (flat_map node_entry ls)) ->
    fold_left declare_node (flat_map node_caps ls) m
    = m ++ flat_map node_entry ls.
Proof.
  induction ls as [|l ls IH]; intros m H.
  - cbn. now rewrite app_nil_r.
  - destruct l as [id type|a b]; cbn [flat_map node_caps node_entry app] in *;
      [|now apply IH].
    cbn [fold_left declare_node map fst] in *.
    pose proof (NoDup_remove_2 _ _ _ H) as Hid.
    rewrite set_fresh.
    + rewrite IH.
      * now rewrite <- app_assoc.
      * rewrite map_app, <- app_assoc. exact H.
    + intros Hin. apply Hid. apply in_or_app. now left.
Qed.

Lemma ensure_known (x : str) (m : OMap.t str) :
  In x (map fst m) -> ensure_node x m = m.
Proof.
  intros H. unfold ensure_node.
  now rewrite (proj2 (get_Some_keys x m) H).
Qed.

Lemma fold_record_known (m : OMap.t str) (ls : list dline) :
  (forall a b, In (a, b) (flat_map edge_entry ls) ->
               In a (map fst m) /\ In b (map fst m)) ->
  forall es,
    fold_left record_edge (flat_map edge_caps ls) (es, m)
    = (es ++ flat_map edge_entry ls, m).
Proof.
  induction ls as [|l ls IH]; intros H es.
  - cbn. now rewrite app_nil_r.
  - destruct l as [id type|a b]; cbn [flat_map edge_caps edge_entry app] in *;
      [now apply IH|].
    cbn [fold_left record_edge fst snd].
    destruct (H a b (or_introl eq_refl)) as [Ha Hb].
    rewrite (ensure_known a m Ha), (ensure_known b m Hb).
    rewrite IH by (intros; apply H; now right).
    now rewrite <- app_assoc.
Qed.

(** The model of a graph text whose node lines come with different ids
    and whose edge lines join ids of node lines. *)
Lemma parse_graph_text (name indent : str) (ls : list dline) :
  word name -> all is_space indent -> Forall wf_dline ls ->
  NoDup (map fst (flat_map node_entry ls)) ->
  (forall a b, In (a, b) (flat_map edge_entry ls) ->
               In a (map fst (flat_map node_entry ls))
               /\ In b (map fst (flat_map node_entry ls))) ->
  parseDotToElements
    (graph_text (lit "digraph " ++ name ++ lit " {") indent ls)
  = {| nodes := flat_map node_entry ls; edges := flat_map edge_entry ls |}.
Proof.
  intros Hname Hind Hls Hnd Hcl.
  destruct (matches_graph_text name indent ls Hname Hind Hls) as [Hn He].
  unfold parseDotToElements, declarations. rewrite Hn, He.
  rewrite (fold_declare_fresh ls []) by exact Hnd. cbn [app].
  now rewrite (fold_record_known _ ls Hcl []).
Qed.

End GraphTextFacts.

Module TreeFacts.
Import Regex Serializer Viewer.

Lemma size_pos (t : tree) : (1 <= size t)%nat.
Proof. destruct t. unfold size. cbn [preorder length]. lia. Qed.

Lemma size_node (type : str) (cs : list tree) :
  size (Node type cs) = S (length (flat_map preorder cs)).
Proof. reflexivity. Qed.

Lemma over_children_cons (A : Type) (f : tree -> nat -> list A) (c : tree)
  (cs : list tree) (j : nat) :
  over_children A f (c :: cs) j
  = f c j ++ over_children A f cs (j + size c).
Proof. reflexivity. Qed.

Lemma flat_map_over_children (A B : Type) (g : A -> list B)
  (f : tree -> nat -> list A) (cs : list tree) :
  forall j,
    flat_map g (over_children A f cs j)
    = over_children B (fun c j => flat_map g (f c j)) cs j.
Proof.
  induction cs as [|c cs IH]; intros j; [reflexivity|].
  rewrite !over_children_cons, flat_map_app. now rewrite IH.
Qed.

Lemma over_children_ext (A : Type) (f g : tree -> nat -> list A)
  (cs : list tree) :
  Forall (fun c => forall j, f c j = g c j) cs ->
  forall j, over_children A f cs j = over_children A g cs j.
Proof.
  induction 1 as [|c cs Hc _ IH]; intros j; [reflexivity|].
  rewrite !over_children_cons. now rewrite Hc, IH.
Qed.

Lemma numbered_app (pre : str) (a b : list str) :
  forall k, numbered pre k (a ++ b)
            = numbered pre k a ++ numbered pre (k + length a) b.
Proof.
  unfold numbered. induction a as [|x a IH]; intros k; cbn [app mapi_from length].
  - now rewrite Nat.add_0_r.
  - rewrite IH. now rewrite Nat.add_succ_r.
Qed.

Lemma numbered_children (pre : str) (cs : list tree) :
  forall j,
    over_children (str * str) (fun c j => numbered pre j (preorder c)) cs j
    = numbered pre j (flat_map preorder cs).
Proof.
  induction cs as [|c cs IH]; intros j; [reflexivity|].
  rewrite over_children_cons. cbn [flat_map].
  now rewrite numbered_app, IH.
Qed.

Lemma numbered_keys (pre : str) (types : list str) :
  forall k, map fst (numbered pre k types)
            = map (fun i => pre ++ decimal i) (seq k (length types)).
Proof.
  unfold numbered. induction types as [|x l IH]; intros k; [reflexivity|].
  cbn [mapi_from map length seq fst]. now rewrite IH.
Qed.

Lemma numbered_NoDup (pre : str) (k : nat) (types : list str) :
  NoDup (map fst (numbered pre k types)).
Proof.
  rewrite numbered_keys. apply ElementFacts.NoDup_map_inj; [|apply seq_NoDup].
  intros i j H. apply app_inv_head in H. now apply DecimalFacts.decimal_inj.
Qed.

Lemma numbered_In (pre : str) (k i : nat) (types : list str) :
  (k <= i < k + length types)%nat ->
  In (pre ++ decimal i) (map fst (numbered pre k types)).
Proof.
  intros H. rewrite numbered_keys. apply in_map_iff. exists i.
  split; auto. apply in_seq. lia.
Qed.

(** *** [treeToDot] *)

Lemma tree_nodes (t : tree) :
  forall k, flat_map node_entry (tree_dlines t k)
            = numbered (lit "n") k (preorder t).
Proof.
  induction t as [type cs IH] using SerializerFacts.tree_induction.
  intros k. cbn [tree_dlines flat_map node_entry app preorder].
  unfold numbered at 1. cbn [mapi_from]. f_equal.
  fold (numbered (lit "n") (S k) (flat_map preorder cs)).
  rewrite flat_map_over_children, <- numbered_children.
  apply over_children_ext. eapply Forall_impl; [|exact IH].
  intros c Hc j. cbv beta. rewrite flat_map_app, Hc. cbn. apply app_nil_r.
Qed.

Lemma tree_dlines_edges (t : tree) :
  forall k, flat_map edge_entry (tree_dlines t k) = tree_edges t k.
Proof.
  induction t as [type cs IH] using SerializerFacts.tree_induction.
  intros k. cbn [tree_dlines tree_edges flat_map edge_entry app].
  rewrite flat_map_over_children.
  apply over_children_ext. eapply Forall_impl; [|exact IH].
  intros c Hc j. cbv beta. rewrite flat_map_app, Hc. reflexivity.
Qed.

Lemma numbered_line_mono (pre : str) (P : str -> Prop) (lo hi lo' hi' : nat)
  (l : dline) :
  (lo' <= lo)%nat -> (hi <= hi')%nat ->
  numbered_line pre P lo hi l -> numbered_line pre P lo' hi' l.
Proof.
  intros Hlo Hhi. destruct l as [id type|a b]; cbn.
  - intros [(i & Hi & ->) HP]. split; auto. exists i. split; auto. lia.
  - intros (i & j & Hi & Hj & -> & ->). exists i, j. repeat split; lia.
Qed.

Lemma tree_lines_numbered (P : str -> Prop) (t : tree) :
  forall k,
    Forall P (preorder t) ->
    Forall (numbered_line (lit "n") P k (k + size t)) (tree_dlines t k).
Proof.
  induction t as [type cs IH] using SerializerFacts.tree_induction.
  intros k HP. cbn [preorder] in HP. inversion HP as [|? ? Hty Hcs]; subst.
  cbn [tree_dlines]. rewrite size_node. constructor.
  { split; auto. exists k. split; auto. lia. }
  assert (H : forall j,
             (k < j)%nat ->
             Forall (numbered_line (lit "n") P k
                       (j + length (flat_map preorder cs)))
               (over_children dline
                  (fun c j0 =>
                     tree_dlines c j0
                     ++ [EdgeL (lit "n" ++ decimal k) (lit "n" ++ decimal j0)])
                  cs j)).
  { clear HP Hty. induction IH as [|c cs Hc _ IHcs]; intros j Hj;
      [constructor|].
    cbn [flat_map] in Hcs. apply Forall_app in Hcs. destruct Hcs as [Hc1 Hc2].
    rewrite over_children_cons. cbn [flat_map]. rewrite length_app.
    pose proof (size_pos c) as Hpos. fold (size c).
    apply Forall_app. split; [apply Forall_app; split|].
    - eapply Forall_impl; [|apply (Hc j Hc1)].
      intros l. apply numbered_line_mono; lia.
    - constructor; [|constructor]. exists k, j. repeat split; lia.
    - replace (j + (size c + length (flat_map preorder cs)))%nat
        with (j + size c + length (flat_map preorder cs))%nat by lia.
      apply IHcs; auto. lia. }
  replace (k + S (length (flat_map preorder cs)))%nat
    with (S k + length (flat_map preorder cs))%nat by lia.
  apply H. lia.
Qed.

Lemma addNode_children_lines (nodeId : str) (f : tree -> nat -> list dline)
  (cs : list tree) :
  Forall (fun c => forall k ls,
              addNode c (k, ls)
              = (lit "n" ++ decimal k,
                 ((k + size c)%nat, ls ++ map (dline_text []) (tree_dlines c k))))
         cs ->
  forall j ls,
    fold_left (fun s child => link nodeId (addNode child s)) cs (j, ls)
    = ((j + length (flat_map preorder cs))%nat,
       ls ++ map (dline_text [])
               (over_children dline
                  (fun c j0 =>
                     tree_dlines c j0 ++ [EdgeL nodeId (lit "n" ++ decimal j0)])
                  cs j)).
Proof.
  induction 1 as [|c cs Hc _ IH]; intros j ls.
  - cbn. now rewrite Nat.add_0_r, app_nil_r.
  - cbn [fold_left]. rewrite Hc, SerializerFacts.link_pair, IH.
    rewrite over_children_cons. cbn [flat_map]. rewrite length_app.
    fold (size c). f_equal; [lia|].
    rewrite !map_app, <- !app_assoc. reflexivity.
Qed.

Lemma addNode_lines (t : tree) :
  forall k ls,
    addNode t (k, ls)
    = (lit "n" ++ decimal k,
       ((k + size t)%nat, ls ++ map (dline_text []) (tree_dlines t k))).
Proof.
  induction t as [type cs IH] using SerializerFacts.tree_induction.
  intros k ls. cbn [addNode fst snd].
  rewrite (addNode_children_lines (lit "n" ++ decimal k)
             (fun c j => tree_dlines c j) cs IH).
  rewrite size_node. cbn [tree_dlines map dline_text app].
  f_equal. f_equal; [lia|]. now rewrite <- app_assoc.
Qed.

Lemma treeToDot_graph_text (root : tree) :
  treeToDot root
  = graph_text (lit "digraph " ++ lit "G" ++ lit " {") []
      (tree_dlines root 0).
Proof.
  unfold treeToDot, treeLines, graph_text. rewrite addNode_lines.
  reflexivity.
Qed.

End TreeFacts.

Module RoundTrip.
Import Regex Serializer Viewer TreeFacts.

Lemma word_n (i : nat) : word (lit "n" ++ decimal i).
Proof.
  split; [discriminate|]. constructor; [reflexivity|].
  apply SerializerFacts.decimal_word.
Qed.

Lemma word_decimal (i : nat) : word ([] ++ decimal i).
Proof.
  split; [apply SerializerFacts.decimal_not_nil|].
  apply SerializerFacts.decimal_word.
Qed.

Lemma numbered_wf (pre : str) (lo hi : nat) (l : dline) :
  (forall i, word (pre ++ decimal i)) ->
  numbered_line pre plain_type lo hi l -> wf_dline l.
Proof.
  intros Hw. destruct l as [id type|a b]; cbn.
  - intros [(i & _ & ->) HP]. split; auto.
  - intros (i & j & _ & _ & -> & ->). split; auto.
Qed.

Lemma quote_bracket_sound (type : str) :
  quote_bracket type = false -> no_quote_bracket type.
Proof.
  intros H a. revert type H.
  induction a as [|x a IH]; intros type H b E; subst type.
  - cbn in H. discriminate H.
  - cbn [app quote_bracket] in H.
    destruct (a ++ dquote :: 93%N :: b) as [|d t] eqn:Et.
    + destruct a; discriminate Et.
    + apply orb_false_iff in H. destruct H as [_ H].
      apply (IH (d :: t) H b). now rewrite <- Et.
Qed.

Lemma plain_typeb_sound (types : list str) :
  forallb plain_typeb types = true -> Forall plain_type types.
Proof.
  intros H. apply Forall_forall. intros type Hin.
  rewrite forallb_forall in H. specialize (H type Hin).
  unfold plain_typeb in H. apply andb_prop in H. destruct H as [H H3].
  apply andb_prop in H. destruct H as [H1 H2].
  repeat split.
  - now apply RewriteFacts.forallb_all.
  - apply quote_bracket_sound. now apply negb_true_iff.
  - now apply negb_true_iff.
Qed.

(** The model of the lines of a tree, whatever the serializer: the nodes
    are the numbered types, the edges those of the lines. *)
Lemma parse_numbered (name indent pre : str) (types : list str)
  (ls : list dline) :
  word name -> all is_space indent ->
  (forall i, word (pre ++ decimal i)) ->
  flat_map node_entry ls = numbered pre 0 types ->
  Forall (numbered_line pre plain_type 0 (length types)) ls ->
  parseDotToElements
    (graph_text (lit "digraph " ++ name ++ lit " {") indent ls)
  = {| nodes := numbered pre 0 types; edges := flat_map edge_entry ls |}.
Proof.
  intros Hname Hind Hw Hnodes Hls.
  rewrite (GraphTextFacts.parse_graph_text name indent ls Hname Hind).
  - now rewrite Hnodes.
  - eapply Forall_impl; [|exact Hls]. intros l. now apply numbered_wf.
  - rewrite Hnodes. apply numbered_NoDup.
  - intros a b Hin. rewrite Hnodes. apply in_flat_map in Hin.
    destruct Hin as (l & Hl & Hab). rewrite Forall_forall in Hls.
    specialize (Hls l Hl). destruct l as [id type|a' b']; [contradiction|].
    destruct Hab as [E|[]]. injection E as -> ->.
    destruct Hls as (i & j & Hi & Hj & -> & ->).
    split; apply numbered_In; lia.
Qed.

(** X9: a tree whose types hold no line terminator, no double quote
    followed by a closing bracket and nothing that reads as an edge is read
    back from the text of [treeToDot] as it is: the nodes are n0, n1, ...
    in the order of the first visit, each labelled with its type, and the
    edges are those from every node to each of its children. *)
Theorem treeToDot_round_trip (root : tree) :
  Forall plain_type (preorder root) ->
  parseDotToElements (treeToDot root)
  = {| nodes := numbered (lit "n") 0 (preorder root);
       edges := tree_edges root 0 |}.
Proof.
  intros Hty. rewrite treeToDot_graph_text.
  rewrite (parse_numbered (lit "G") [] (lit "n") (preorder root)).
  - now rewrite tree_dlines_edges.
  - split; [discriminate | repeat constructor].
  - constructor.
  - exact word_n.
  - apply tree_nodes.
  - apply (tree_lines_numbered plain_type root 0 Hty).
Qed.

Lemma treeToDot_round_trip_sample :
  parseDotToElements (treeToDot sample_tree)
  = {| nodes := [(lit "n0", lit "module");
                 (lit "n1", lit "expression_statement");
                 (lit "n2", litq "'"); (lit "n3", lit "comment")];
       edges := [(lit "n1", lit "n2"); (lit "n0", lit "n1");
                 (lit "n0", lit "n3")] |}.
Proof.
  apply (treeToDot_round_trip sample_tree).
  apply plain_typeb_sound. reflexivity.
Defined.

End RoundTrip.

Module AstFacts.
Import Regex Serializer Viewer TreeFacts.

Lemma ast_nodes (t : tree) :
  forall parent k,
    flat_map node_entry (ast_dlines t parent k) = numbered [] k (preorder t).
Proof.
  induction t as [type cs IH] using SerializerFacts.tree_induction.
  intros parent k. cbn [ast_dlines flat_map node_entry app preorder].
  unfold numbered at 1. cbn [mapi_from]. f_equal.
  fold (numbered [] (S k) (flat_map preorder cs)).
  rewrite flat_map_app.
  assert (Hp : flat_map node_entry (parent_line parent k) = [])
    by now destruct parent.
  rewrite Hp. change ([] ++ ?l) with l.
  rewrite flat_map_over_children, <- numbered_children.
  apply over_children_ext. eapply Forall_impl; [|exact IH].
  intros c Hc j. apply Hc.
Qed.

Lemma ast_dlines_edges (t : tree) :
  forall parent k,
    flat_map edge_entry (ast_dlines t parent k) = ast_edges t parent k.
Proof.
  induction t as [type cs IH] using SerializerFacts.tree_induction.
  intros parent k. cbn [ast_dlines ast_edges flat_map edge_entry app].
  rewrite flat_map_app. f_equal.
  - now destruct parent.
  - rewrite flat_map_over_children.
    apply over_children_ext. eapply Forall_impl; [|exact IH].
    intros c Hc j. apply Hc.
Qed.

Lemma ast_lines_numbered (P : str -> Prop) (lo hi : nat) (t : tree) :
  forall parent k,
    (lo <= k)%nat -> (k + size t <= hi)%nat ->
    (forall p, parent = Some p -> (lo <= p < hi)%nat) ->
    Forall P (preorder t) ->
    Forall (numbered_line [] P lo hi) (ast_dlines t parent k).
Proof.
  induction t as [type cs IH] using SerializerFacts.tree_induction.
  intros parent k Hlo Hhi Hpar HP.
  cbn [preorder] in HP. inversion HP as [|? ? Hty Hcs]; subst.
  cbn [ast_dlines]. rewrite size_node in Hhi. constructor.
  { split; auto. exists k. split; auto. lia. }
  apply Forall_app. split.
  { destruct parent as [p|]; constructor; [|constructor].
    exists p, k. repeat split; auto; try lia; now apply Hpar. }
  assert (H : forall j,
             (k < j)%nat ->
             (j + length (flat_map preorder cs) <= hi)%nat ->
             Forall (numbered_line [] P lo hi)
               (over_children dline (fun c j0 => ast_dlines c (Some k) j0)
                  cs j)).
  { clear HP Hty Hhi. induction IH as [|c cs Hc _ IHcs]; intros j Hj Hjhi;
      [constructor|].
    cbn [flat_map] in Hcs, Hjhi. apply Forall_app in Hcs.
    destruct Hcs as [Hc1 Hc2]. rewrite length_app in Hjhi.
    fold (size c) in Hjhi. pose proof (size_pos c) as Hpos.
    rewrite over_children_cons. apply Forall_app. split.
    - apply Hc; auto; try lia. intros p E. injection E as <-. lia.
    - apply IHcs; auto; lia. }
  apply H; lia.
Qed.

Lemma decimalZ_of_nat (p : nat) : decimalZ (Z.of_nat p) = decimal p.
Proof.
  unfold decimalZ. destruct (Z.of_nat p) eqn:E; try lia;
    now rewrite <- E, Nat2Z.id.
Qed.

Lemma nodeToDot_children_lines (myId : nat) (cs : list tree) :
  Forall (fun c => forall parent k ls,
              nodeToDot c (parent_id parent) (k, ls)
              = ((k + size c)%nat,
                 ls ++ map (dline_text (lit "  ")) (ast_dlines c parent k)))
         cs ->
  forall j ls,
    fold_left (fun s child => nodeToDot child (Z.of_nat myId) s) cs (j, ls)
    = ((j + length (flat_map preorder cs))%nat,
       ls ++ map (dline_text (lit "  "))
               (over_children dline (fun c j0 => ast_dlines c (Some myId) j0)
                  cs j)).
Proof.
  induction 1 as [|c cs Hc _ IH]; intros j ls.
  - cbn. now rewrite Nat.add_0_r, app_nil_r.
  - cbn [fold_left]. rewrite (Hc (Some myId)), IH.
    rewrite over_children_cons. cbn [flat_map]. rewrite length_app.
    fold (size c). f_equal; [lia|].
    rewrite !map_app, <- !app_assoc. reflexivity.
Qed.

Lemma nodeToDot_lines (t : tree) :
  forall parent k ls,
    nodeToDot t (parent_id parent) (k, ls)
    = ((k + size t)%nat,
       ls ++ map (dline_text (lit "  ")) (ast_dlines t parent k)).
Proof.
  induction t as [type cs IH] using SerializerFacts.tree_induction.
  intros parent k ls. cbn [nodeToDot fst snd].
  rewrite (nodeToDot_children_lines k cs IH).
  rewrite size_node. f_equal; [lia|].
  cbn [ast_dlines map dline_text]. rewrite map_app.
  destruct parent as [p|]; cbn [parent_id parent_line map dline_text].
  - assert (E : (Z.of_nat p =? -1)%Z = false) by (apply Z.eqb_neq; lia).
    rewrite E, decimalZ_of_nat. rewrite <- !app_assoc. reflexivity.
  - cbn [Z.eqb Pos.eqb]. rewrite <- !app_assoc. reflexivity.
Qed.

Lemma astDotGraph_graph_text (root : tree) :
  astDotGraph root
  = graph_text (lit "digraph " ++ lit "AST" ++ lit " {") (lit "  ")
      (ast_dlines root None 0).
Proof.
  unfold astDotGraph, astLines, graph_text.
  rewrite (nodeToDot_lines root None). reflexivity.
Qed.

(** X10: the same for [nodeToDot], whose text the overlay reads: the nodes
    are 0, 1, ... in the order of the first visit, each labelled with its
    type, and every node but the root is the target of one edge, from its
    parent. *)
Theorem astDotGraph_round_trip (root : tree) :
  Forall plain_type (preorder root) ->
  parseDotToElements (astDotGraph root)
  = {| nodes := numbered [] 0 (preorder root);
       edges := ast_edges root None 0 |}.
Proof.
  intros Hty. rewrite astDotGraph_graph_text.
  rewrite (RoundTrip.parse_numbered (lit "AST") (lit "  ") []
             (preorder root)).
  - now rewrite ast_dlines_edges.
  - split; [discriminate | repeat constructor].
  - repeat constructor.
  - exact RoundTrip.word_decimal.
  - apply ast_nodes.
  - apply (ast_lines_numbered plain_type 0 (length (preorder root)) root
             None 0); auto; try discriminate.
Qed.

Lemma astDotGraph_round_trip_sample :
  parseDotToElements (astDotGraph sample_tree)
  = {| nodes := [(lit "0", lit "module");
                 (lit "1", lit "expression_statement");
                 (lit "2", litq "'"); (lit "3", lit "comment")];
       edges := [(lit "0", lit "1"); (lit "1", lit "2");
                 (lit "0", lit "3")] |}.
Proof.
  apply (astDotGraph_round_trip sample_tree).
  apply RoundTrip.plain_typeb_sound. reflexivity.
Defined.

End AstFacts.

Module ConvertTwice.
Import Regex RegexFacts RegexEval Converter RewriteFacts.
Local Open Scope N_scope.

Lemma converted_line_text (m : OMap.t str) (l : line) :
  map line_text (converted_line m l) = rewritten m l.
Proof.
  destruct l as [ws|body|ws from sp1 sp2 to tail|ws c body]; try reflexivity.
  cbn [converted_line map line_text rewritten]. unfold quoted_edge.
  now rewrite <- !app_assoc.
Qed.

Lemma converted_line_wf (m : OMap.t str) (l : line) :
  inline_labels m -> wf_line l ->
  Forall wf_line (converted_line m l)
  /\ Forall is_other (converted_line m l).
Proof.
  intros Hm Hl.
  destruct l as [ws|body|ws from sp1 sp2 to tail|ws c body];
    cbn [converted_line]; split;
    try (apply Forall_nil);
    try (apply Forall_cons; [|apply Forall_nil]);
    try exact I; try exact Hl.
  destruct Hl as (Hws & [_ Hfrom] & _ & _ & [_ Hto] & Htail).
  cbn [wf_line]. repeat split; auto.
  - apply all_app. split.
    { apply label_or_id_dot; auto.
      eapply all_impl; [exact digit_is_dot | exact Hfrom]. }
    apply all_app. split; [repeat constructor|].
    apply all_app. split.
    { apply label_or_id_dot; auto.
      eapply all_impl; [exact digit_is_dot | exact Hto]. }
    apply all_app. split; [repeat constructor | exact Htail].
  - now apply space_run_no_slashes.
Qed.

Lemma converted_lines (m : OMap.t str) (ls : list line) :
  inline_labels m -> Forall wf_line ls ->
  output m ls = render (map line_text (flat_map (converted_line m) ls))
  /\ Forall wf_line (flat_map (converted_line m) ls)
  /\ Forall is_other (flat_map (converted_line m) ls).
Proof.
  intros Hm Hls. unfold output. repeat split.
  - f_equal. induction ls as [|l ls IH]; [reflexivity|].
    inversion Hls; subst. cbn [flat_map].
    now rewrite map_app, converted_line_text, IH.
  - induction Hls as [|l ls Hl _ IH]; [constructor|]. cbn [flat_map].
    apply Forall_app. split; auto. now apply converted_line_wf.
  - induction Hls as [|l ls Hl _ IH]; [constructor|]. cbn [flat_map].
    apply Forall_app. split; auto. now apply converted_line_wf.
Qed.

Lemma other_lines_kept (m : OMap.t str) (ls : list line) :
  Forall is_other ls -> output m ls = render (map line_text ls).
Proof.
  intros H. unfold output. f_equal.
  induction H as [|l ls Hl _ IH]; [reflexivity|].
  destruct l; try contradiction. cbn [flat_map rewritten map line_text app].
  now rewrite IH.
Qed.

Lemma other_lines_whole (ls : list line) :
  Forall wf_line ls -> Forall is_other ls ->
  Forall whole (map line_text ls)
  /\ Forall (fun t => is_other (classify t)) (map line_text ls).
Proof.
  intros Hw. induction Hw as [|l ls Hl _ IH]; intros Ho; [split; constructor|].
  inversion Ho as [|? ? Hol Ho']; subst. destruct (IH Ho') as [IH1 IH2].
  destruct l as [ws|body|ws from sp1 sp2 to tail|ws c body];
    try contradiction.
  destruct (classify_other ws c body Hl) as [Hwhole Hc].
  cbn [map line_text]. split; constructor; auto. now rewrite Hc.
Qed.

(** X11: on a text made of lines, each ended by a line feed, that hold no
    other line terminator and do not end inside an edge (a number alone,
    or a number and the arrow alone, white space apart), what
    [convertDotIds] writes is made of such lines again, and all of them
    are other lines: no blank line, no line that begins with two slashes
    and no edge between numbers is left.  Converting it again changes
    nothing. *)
Theorem convertDotText_idempotent (ts : list str) :
  Forall whole ts ->
  (exists ts',
      convertDotText (render ts) = render ts'
      /\ Forall whole ts'
      /\ Forall (fun t => is_other (classify t)) ts')
  /\ convertDotText (convertDotText (render ts)) = convertDotText (render ts).
Proof.
  intros Hts. destruct (classify_lines ts Hts) as [Hls Hts'].
  pose proof (convertDotText_on_lines _ Hls) as Hc. rewrite Hts' in Hc.
  rewrite Hc.
  destruct (converted_lines (idToLabel_of (render ts)) (map classify ts)
              (idToLabel_of_inline _) Hls) as (Hout & Hwf & Hother).
  destruct (other_lines_whole _ Hwf Hother) as [Hwhole Hclass].
  split.
  - eexists. split; [exact Hout|]. split; assumption.
  - rewrite Hout, (convertDotText_on_lines _ Hwf).
    now apply other_lines_kept.
Qed.

Lemma convertDotText_idempotent_main :
  convertDotText (convertDotText main_text) = convertDotText main_text.
Proof.
  refine (proj2 (convertDotText_idempotent (map line_text main_lines) _)).
  unfold main_lines, whole. cbn [map line_text lit app].
  repeat (apply Forall_cons || apply Forall_nil);
    (split; [repeat constructor | reflexivity]).
Defined.

End ConvertTwice.

Module PipelineFacts.
Import Regex RegexFacts RegexEval Converter Viewer RewriteFacts.
Local Open Scope N_scope.

Lemma digit_not_dquote (c : char) : is_digit c = true -> is_not_dquote c = true.
Proof. class_facts. Qed.

Lemma inline_not_dquote (c : char) : is_inline c = true -> (dquote =? c) = false.
Proof.
  unfold is_inline. intros H. apply andb_prop in H. destruct H as [H _].
  destruct (N.eqb_spec dquote c) as [<-|]; [discriminate H | reflexivity].
Qed.

Lemma label_or_id_quote_free (m : OMap.t str) (x : str) :
  quote_free m -> digits x ->
  label_or_id m x <> [] /\ all is_not_dquote (label_or_id m x).
Proof.
  intros Hm [Hne Hx]. unfold label_or_id.
  assert (Hxq : all is_not_dquote x).
  { eapply all_impl; [exact digit_not_dquote | exact Hx]. }
  destruct (OMap.get x m) as [[|c l]|] eqn:E; auto.
  split; [discriminate|]. apply get_In in E.
  unfold quote_free in Hm. rewrite Forall_forall in Hm. apply (Hm _ E).
Qed.

(** The quoted pattern on an edge as the rewriter writes it. *)
Lemma run_quoted_part (a b rest : str) (prev : option char) :
  a <> [] -> b <> [] -> all is_not_dquote a -> all is_not_dquote b ->
  run quotedRegex prev
    (([dquote] ++ a ++ litq "' -> '" ++ b ++ litq "';") ++ rest)
  = Some ([a; b], 59 :: rest).
Proof.
  intros Hane Hbne Ha Hb.
  rewrite <- !app_assoc. cbn [app litq].
  change (N_of_ascii "'" =? 39) with true.
  change (N_of_ascii " " =? 39) with false.
  change (N_of_ascii "-" =? 39) with false.
  change (N_of_ascii ">" =? 39) with false.
  change (N_of_ascii ";" =? 39) with false. cbv iota.
  change (N_of_ascii " ") with 32. change (N_of_ascii "-") with 45.
  change (N_of_ascii ">") with 62. change (N_of_ascii ";") with 59.
  rewrite DialectFacts.quotedRegex_eq, run_chr, N.eqb_refl.
  assert (Hr : forall r, refuses is_not_dquote (Chr dquote :: r))
    by (intros r; apply refuses_chr; reflexivity).
  rewrite run_plus_det by apply Hr.
  assert (Hs : forall t, stops is_not_dquote (dquote :: t)) by reflexivity.
  rewrite (@takeWhile_app _ _ _ Ha (Hs _)), (@dropWhile_app _ _ _ Ha (Hs _)).
  destruct a as [|a0 a]; [congruence|]. cbv zeta.
  rewrite run_chr, N.eqb_refl.
  rewrite run_star_det by (apply refuses_chr; reflexivity).
  cbn [takeWhile dropWhile]. change (is_space 32) with true.
  change (is_space 45) with false. cbv iota.
  rewrite !run_chr. cbn [N.eqb Pos.eqb].
  rewrite run_star_det by (apply refuses_chr; reflexivity).
  cbn [takeWhile dropWhile]. change (is_space 32) with true.
  change (is_space dquote) with false. cbv iota.
  rewrite run_chr, N.eqb_refl.
  rewrite run_plus_det by apply Hr.
  rewrite (@takeWhile_app _ _ _ Hb (Hs _)), (@dropWhile_app _ _ _ Hb (Hs _)).
  destruct b as [|b0 b]; [congruence|]. cbv zeta.
  rewrite run_chr, N.eqb_refl. reflexivity.
Qed.

Lemma search_behind_space (ws s : str) (caps : list str) (rest : str) :
  all is_inline ws ->
  (forall prev, run quotedRegex prev s = Some (caps, rest)) ->
  forall prev, search quotedRegex prev (ws ++ s) = Some caps.
Proof.
  intros Hws Hrun. induction Hws as [|c ws Hc _ IH]; intros prev.
  - cbn [app]. rewrite search_unfold, Hrun. reflexivity.
  - cbn [app]. rewrite search_unfold.
    rewrite DialectFacts.quotedRegex_eq, run_chr, (inline_not_dquote c Hc).
    rewrite <- DialectFacts.quotedRegex_eq. apply IH.
Qed.

(** What the loop over the lines of [init] finds on a line of the
    converted text. *)
Lemma quoted_line_rewritten (m : OMap.t str) (l : line)
  (acc : list (str * str) * list str) :
  quote_free m -> wf_line l -> quiet l ->
  fold_left quoted_line (rewritten m l) acc
  = fold_left (fun acc e =>
                 (fst acc ++ [e], OMap.add (snd e) (OMap.add (fst e) (snd acc))))
      (edge_pair m l) acc.
Proof.
  intros Hm Hl Hq.
  destruct l as [ws|body|ws from sp1 sp2 to tail|ws c body];
    cbn [rewritten edge_pair fold_left]; auto.
  - destruct Hl as (Hws & Hfrom & _ & _ & Hto & _).
    destruct (label_or_id_quote_free m from Hm Hfrom) as [Hane Ha].
    destruct (label_or_id_quote_free m to Hm Hto) as [Hbne Hb].
    unfold quoted_line, quoted_edge. rewrite <- !app_assoc.
    rewrite (search_behind_space ws _ [label_or_id m from; label_or_id m to]
               (59 :: tail)); [reflexivity | exact Hws |].
    intros prev.
    pose proof (run_quoted_part (label_or_id m from) (label_or_id m to) tail
                  prev Hane Hbne Ha Hb) as H.
    rewrite <- !app_assoc in H. cbn [app] in H. exact H.
  - cbn [quiet] in Hq. unfold quoted_line, test in *.
    destruct (search quotedRegex None (ws ++ c :: body)); [discriminate|].
    reflexivity.
Qed.

Lemma split_on_line (c : char) (t s : str) :
  ~ In c t ->
  split_on c (t ++ c :: s) = t :: split_on c s.
Proof.
  induction t as [|d t IH]; intros H; cbn [app split_on].
  - now rewrite N.eqb_refl.
  - destruct (N.eqb_spec d c) as [->|_]; [exfalso; apply H; now left|].
    rewrite IH; auto. intros Hin. apply H. now right.
Qed.

Lemma split_on_render (ts : list str) :
  Forall (all is_dot) ts -> split_on newline (render ts) = ts ++ [[]].
Proof.
  induction 1 as [|t ts Ht _ IH]; [reflexivity|].
  rewrite render_cons, split_on_line, IH; auto.
  intros Hin. unfold all in Ht. rewrite Forall_forall in Ht.
  apply Ht in Hin. discriminate Hin.
Qed.

Lemma quoted_line_empty (acc : list (str * str) * list str) :
  quoted_line acc [] = acc.
Proof. reflexivity. Qed.

Lemma fold_quoted_lines (m : OMap.t str) (ls : list line) :
  quote_free m -> Forall wf_line ls -> Forall quiet ls ->
  forall acc,
    fold_left quoted_line (flat_map (rewritten m) ls) acc
    = fold_left (fun acc e =>
                   (fst acc ++ [e],
                    OMap.add (snd e) (OMap.add (fst e) (snd acc))))
        (flat_map (edge_pair m) ls) acc.
Proof.
  intros Hm Hls. induction Hls as [|l ls Hl _ IH]; intros Hq acc; auto.
  inversion Hq; subst. cbn [flat_map]. rewrite !fold_left_app.
  rewrite quoted_line_rewritten by assumption. now apply IH.
Qed.

Lemma fold_edges (es : list (str * str)) :
  forall acc : list (str * str) * list str,
    fold_left (fun acc e =>
                 (fst acc ++ [e], OMap.add (snd e) (OMap.add (fst e) (snd acc))))
      es acc
    = (fst acc ++ es,
       fold_left (fun s e => OMap.add (snd e) (OMap.add (fst e) s)) es (snd acc)).
Proof.
  induction es as [|e es IH]; intros acc.
  - cbn. rewrite app_nil_r. now destruct acc.
  - cbn [fold_left]. rewrite IH. cbn [fst snd]. now rewrite <- app_assoc.
Qed.

Lemma rewritten_dot (m : OMap.t str) (ls : list line) :
  inline_labels m -> Forall wf_line ls ->
  Forall (all is_dot) (flat_map (rewritten m) ls).
Proof.
  intros Hm Hls.
  destruct (ConvertTwice.converted_lines m ls Hm Hls) as (_ & Hwf & _).
  assert (E : flat_map (rewritten m) ls
              = map line_text (flat_map (converted_line m) ls)).
  { clear. induction ls as [|l ls IH]; [reflexivity|].
    cbn [flat_map]. now rewrite map_app, ConvertTwice.converted_line_text, IH. }
  rewrite E. apply Forall_map. eapply Forall_impl; [|exact Hwf].
  exact line_text_dot.
Qed.

Lemma quoted_graph_output (m : OMap.t str) (ls : list line) :
  inline_labels m -> quote_free m -> Forall wf_line ls -> Forall quiet ls ->
  quoted_graph (output m ls)
  = {| nodes := map (fun id => (id, id)) (endpoints (flat_map (edge_pair m) ls));
       edges := flat_map (edge_pair m) ls |}.
Proof.
  intros Hi Hm Hls Hq. unfold quoted_graph, output.
  rewrite split_on_render by now apply rewritten_dot.
  rewrite fold_left_app. cbn [fold_left]. rewrite quoted_line_empty.
  rewrite fold_quoted_lines by assumption. rewrite fold_edges. reflexivity.
Qed.

Lemma quotedMatch_output (m : OMap.t str) (ls : list line) :
  quote_free m -> Forall wf_line ls ->
  flat_map (edge_pair m) ls <> [] -> quotedMatch (output m ls) = true.
Proof.
  intros Hm Hls Hne. apply DialectFacts.quotedMatch_iff.
  unfold output. revert Hne.
  induction Hls as [|l ls Hl _ IH]; intros Hne; [now destruct Hne|].
  cbn [flat_map] in *.
  destruct l as [ws|body|ws from sp1 sp2 to tail|ws c body];
    cbn [edge_pair rewritten app] in *.
  - now apply IH.
  - now apply IH.
  - clear IH Hne. destruct Hl as (Hws & Hfrom & _ & _ & Hto & _).
    destruct (label_or_id_quote_free m from Hm Hfrom) as [Hane Ha].
    destruct (label_or_id_quote_free m to Hm Hto) as [Hbne Hb].
    rewrite render_cons. unfold quoted_edge.
    exists ws,
      (dquote :: label_or_id m from ++ dquote :: [32] ++ lit "->" ++ [32]
       ++ dquote :: label_or_id m to ++ [dquote]),
      (59 :: tail ++ newline :: render (flat_map (rewritten m) ls)).
    split.
    + repeat (rewrite <- app_assoc; cbn [app litq lit]). reflexivity.
    + exists (label_or_id m from), [32], [32], (label_or_id m to).
      repeat split; auto; repeat constructor.
  - destruct (IH Hne) as (pre & w & post & E & Hw).
    rewrite render_cons, E.
    exists ((ws ++ c :: body) ++ newline :: pre), w, post.
    split; [|exact Hw]. repeat (rewrite <- app_assoc; cbn [app]). reflexivity.
Qed.

(** X12: the viewer reads the text written by [convertDotIds] back as the
    graph of the labels.  For a text made of lines, each ended by a line
    feed, that hold no other line terminator and do not end inside an edge
    (a number alone, or a number and the arrow alone, white space apart),
    with at least one edge line, whose other lines hold no quoted edge and
    whose labels hold no double quote, the model built by [init] from the
    converted text has one edge for every edge line, in order, from the
    label of its source to the label of its target (the id itself where
    there is no label), and one node for each of these names, in the
    order of their first appearance. *)
Theorem converted_text_read_back (ts : list str) :
  Forall whole ts -> Forall quiet (map classify ts) ->
  quote_free (idToLabel_of (render ts)) ->
  flat_map (edge_pair (idToLabel_of (render ts))) (map classify ts) <> [] ->
  graph_of_text (convertDotText (render ts))
  = {| nodes :=
         map (fun id => (id, id))
           (endpoints
              (flat_map (edge_pair (idToLabel_of (render ts)))
                 (map classify ts)));
       edges :=
         flat_map (edge_pair (idToLabel_of (render ts))) (map classify ts) |}.
Proof.
  intros Hts Hq Hm Hne. destruct (classify_lines ts Hts) as [Hls Hts'].
  pose proof (convertDotText_on_lines _ Hls) as Hc. rewrite Hts' in Hc.
  rewrite Hc.
  unfold graph_of_text. rewrite quotedMatch_output by assumption.
  apply quoted_graph_output; auto. apply idToLabel_of_inline.
Qed.

Lemma converted_text_read_back_main :
  graph_of_text (convertDotText main_text)
  = {| nodes := [(lit "main.py", lit "main.py"); (lit "9", lit "9")];
       edges := [(lit "main.py", lit "9")] |}.
Proof.
  refine (converted_text_read_back (map line_text main_lines) _ _ _ _).
  - unfold main_lines, whole. cbn [map line_text lit app].
    repeat (apply Forall_cons || apply Forall_nil);
      (split; [repeat constructor | reflexivity]).
  - vm_compute. repeat constructor.
  - vm_compute. repeat constructor.
  - vm_compute. discriminate.
Defined.

End PipelineFacts.

Module WasmFacts.
Import Wasm CopySpec.
Local Open Scope Z_scope.

Lemma update_length (n : nat) (v : N) (mem : bytes) :
  length (update n v mem) = length mem.
Proof.
  revert n. induction mem as [|b mem IH]; intros [|n]; cbn; auto.
Qed.

Lemma nth_error_update (n m : nat) (v : N) (mem : bytes) :
  (n < length mem)%nat ->
  nth_error (update n v mem) m
  = if Nat.eqb n m then Some v else nth_error mem m.
Proof.
  revert n m. induction mem as [|b mem IH]; intros n m H; [cbn in H; lia|].
  destruct n as [|n], m as [|m]; cbn; auto.
  apply IH. cbn in H. lia.
Qed.

Lemma set_byte_length (mem : bytes) (k : Z) (v : option N) :
  length (set_byte mem k v) = length mem.
Proof.
  unfold set_byte. destruct ((0 <=? k) && (k <? Z.of_nat (length mem)));
    auto using update_length.
Qed.

Lemma get_set_byte (mem : bytes) (k j : Z) (b : N) :
  0 <= k < Z.of_nat (length mem) ->
  get_byte (set_byte mem k (Some b)) j
  = if k =? j then Some b else get_byte mem j.
Proof.
  intros Hk. unfold get_byte. rewrite set_byte_length. unfold set_byte.
  assert (E : (0 <=? k) && (k <? Z.of_nat (length mem)) = true).
  { apply andb_true_intro. split; [apply Z.leb_le | apply Z.ltb_lt]; lia. }
  rewrite E.
  destruct ((0 <=? j) && (j <? Z.of_nat (length mem))) eqn:Ej.
  - apply andb_prop in Ej. destruct Ej as [Ej1 Ej2].
    apply Z.leb_le in Ej1. apply Z.ltb_lt in Ej2.
    rewrite nth_error_update by lia.
    destruct (Z.eqb_spec k j) as [->|Hne].
    + now rewrite Nat.eqb_refl.
    + destruct (Nat.eqb_spec (Z.to_nat k) (Z.to_nat j)); auto. lia.
  - destruct (Z.eqb_spec k j) as [->|]; auto. congruence.
Qed.

Lemma get_byte_in_range (mem : bytes) (k : Z) :
  0 <= k < Z.of_nat (length mem) -> exists b, get_byte mem k = Some b.
Proof.
  intros Hk. unfold get_byte.
  assert (E : (0 <=? k) && (k <? Z.of_nat (length mem)) = true).
  { apply andb_true_intro. split; [apply Z.leb_le | apply Z.ltb_lt]; lia. }
  rewrite E. destruct (nth_error mem (Z.to_nat k)) eqn:En; eauto.
  apply nth_error_None in En. lia.
Qed.

(** The loop of [memmove], when the destination is not before the
    source: the bytes not yet copied are still those of the start. *)
Lemma copy_backwards_spec (mem0 : bytes) (dest src : Z) (n : nat) :
  src <= dest -> 0 <= src ->
  forall mem,
    length mem = length mem0 ->
    dest + Z.of_nat n <= Z.of_nat (length mem0) ->
    (forall k, k < dest + Z.of_nat n -> get_byte mem k = get_byte mem0 k) ->
    length (copy_backwards n mem dest src) = length mem0
    /\ (forall i, 0 <= i < Z.of_nat n ->
                  get_byte (copy_backwards n mem dest src) (dest + i)
                  = get_byte mem0 (src + i))
    /\ (forall k, k < dest ->
                  get_byte (copy_backwards n mem dest src) k = get_byte mem0 k)
    /\ (forall k, dest + Z.of_nat n <= k ->
                  get_byte (copy_backwards n mem dest src) k = get_byte mem k).
Proof.
  intros Hsd Hs. induction n as [|n IH]; intros mem Hlen Hn Hlow.
  - cbn [copy_backwards]. repeat split; auto; intros; try lia. apply Hlow. lia.
  - cbn [copy_backwards].
    destruct (get_byte_in_range mem0 (src + Z.of_nat n)) as (b & Hb); [lia|].
    assert (Hread : get_byte mem (src + Z.of_nat n) = Some b).
    { rewrite Hlow; auto. lia. }
    rewrite Hread.
    set (mem1 := set_byte mem (dest + Z.of_nat n) (Some b)).
    assert (Hg : forall j, get_byte mem1 j
                           = if dest + Z.of_nat n =? j then Some b
                             else get_byte mem j).
    { intros j. apply get_set_byte. rewrite Hlen. lia. }
    destruct (IH mem1) as (L & C & B & A).
    + unfold mem1. now rewrite set_byte_length.
    + lia.
    + intros k Hk. rewrite Hg.
      destruct (Z.eqb_spec (dest + Z.of_nat n) k); [lia|]. apply Hlow. lia.
    + repeat split; auto.
      * intros i Hi. destruct (Z.eq_dec i (Z.of_nat n)) as [->|Hne].
        -- rewrite A by lia. rewrite Hg, Z.eqb_refl. now rewrite Hb.
        -- apply C. lia.
      * intros k Hk. rewrite A by lia. rewrite Hg.
        destruct (Z.eqb_spec (dest + Z.of_nat n) k); [lia | reflexivity].
Qed.

Lemma get_byte_nth (mem : bytes) (k : Z) :
  0 <= k -> get_byte mem k = nth_error mem (Z.to_nat k).
Proof.
  intros Hk. unfold get_byte.
  destruct (Z.ltb_spec k (Z.of_nat (length mem))) as [H|H].
  - assert (E : (0 <=? k) = true) by (apply Z.leb_le; lia). now rewrite E.
  - rewrite andb_false_r. symmetry. apply nth_error_None. lia.
Qed.

Lemma get_byte_negative (mem : bytes) (k : Z) : k < 0 -> get_byte mem k = None.
Proof.
  intros H. unfold get_byte.
  assert (E : (0 <=? k) = false) by (apply Z.leb_gt; lia). now rewrite E.
Qed.

(** [copyWithin] inside the array. *)
Lemma copyWithin_spec (mem : bytes) (dest src num : Z) :
  0 <= dest -> 0 <= src -> 0 <= num ->
  src + num <= Z.of_nat (length mem) -> dest + num <= Z.of_nat (length mem) ->
  length (copyWithin mem dest src (src + num)) = length mem
  /\ (forall i, 0 <= i < num ->
                get_byte (copyWithin mem dest src (src + num)) (dest + i)
                = get_byte mem (src + i))
  /\ (forall k, k < dest \/ dest + num <= k ->
                get_byte (copyWithin mem dest src (src + num)) k
                = get_byte mem k).
Proof.
  intros Hd Hs Hn Hsn Hdn. unfold copyWithin, clamp_index.
  assert (E1 : (dest <? 0) = false) by (apply Z.ltb_ge; lia).
  assert (E2 : (src <? 0) = false) by (apply Z.ltb_ge; lia).
  assert (E3 : (src + num <? 0) = false) by (apply Z.ltb_ge; lia).
  rewrite E1, E2, E3. cbv zeta.
  rewrite !Z.min_l by lia.
  replace (src + num - src) with num by lia.
  destruct (Z.ltb_spec 0 num) as [Hpos|Hzero].
  2: { split; [reflexivity|]. split; [intros i Hi; lia | reflexivity]. }
  set (a := firstn (Z.to_nat dest) mem).
  set (b := firstn (Z.to_nat num) (skipn (Z.to_nat src) mem)).
  set (c := skipn (Z.to_nat (dest + num)) mem).
  assert (La : length a = Z.to_nat dest).
  { unfold a. rewrite length_firstn. lia. }
  assert (Lb : length b = Z.to_nat num).
  { unfold b. rewrite length_firstn, length_skipn. lia. }
  assert (Lc : (length c = length mem - Z.to_nat (dest + num))%nat).
  { unfold c. apply length_skipn. }
  assert (Ll : length (a ++ b ++ c) = length mem).
  { rewrite !length_app. lia. }
  repeat split; auto.
  - intros i Hi. rewrite !get_byte_nth by lia.
    rewrite nth_error_app2 by lia. rewrite nth_error_app1 by lia.
    unfold b. rewrite nth_error_firstn.
    destruct (Nat.ltb_spec (Z.to_nat (dest + i) - length a) (Z.to_nat num));
      [|lia].
    rewrite nth_error_skipn. f_equal. lia.
  - intros k [Hk|Hk].
    + destruct (Z.ltb_spec k 0) as [Hneg|Hnn];
        [now rewrite !get_byte_negative|].
      rewrite !get_byte_nth by lia. rewrite nth_error_app1 by lia.
      unfold a. rewrite nth_error_firstn.
      destruct (Nat.ltb_spec (Z.to_nat k) (Z.to_nat dest)); [reflexivity|lia].
    + rewrite !get_byte_nth by lia.
      rewrite nth_error_app2 by lia. rewrite nth_error_app2 by lia.
      unfold c. rewrite nth_error_skipn. f_equal. lia.
Qed.

(** X13: inside the memory, [memmove] and [memcpy] both return [dest] and
    leave the memory with the [num] bytes that stood at [src] copied to
    [dest], also when the two ranges overlap, every other byte and the
    size of the memory being unchanged. *)
Theorem memmove_copies (mem : bytes) (dest src num : Z) :
  0 <= dest -> 0 <= src -> 0 <= num ->
  src + num <= Z.of_nat (length mem) -> dest + num <= Z.of_nat (length mem) ->
  copied mem dest src num (memmove mem dest src num)
  /\ copied mem dest src num (memcpy mem dest src num).
Proof.
  intros Hd Hs Hn Hsn Hdn. unfold copied. split.
  - unfold memmove. destruct (Z.ltb_spec dest src) as [Hlt|Hge]; cbn [fst snd].
    + split; auto. now apply copyWithin_spec.
    + split; auto.
      destruct (copy_backwards_spec mem dest src (Z.to_nat num) Hge Hs mem
                  eq_refl) as (L & C & B & A); auto; try lia.
      repeat split; auto.
      * intros i Hi. apply C. lia.
      * intros k [Hk|Hk]; [now apply B | apply A; lia].
  - unfold memcpy. cbn [fst snd]. split; auto. now apply copyWithin_spec.
Qed.

Lemma memmove_copies_overlap :
  copied [1; 2; 3; 4; 5]%N 1 0 3 (memmove [1; 2; 3; 4; 5]%N 1 0 3)
  /\ copied [1; 2; 3; 4; 5]%N 1 0 3 (memcpy [1; 2; 3; 4; 5]%N 1 0 3).
Proof.
  apply (memmove_copies [1; 2; 3; 4; 5]%N 1 0 3); cbn; lia.
Defined.

End WasmFacts.

Module TreeFiles.
Import Serializer Viewer.

Lemma numbered_named (pre : str) (types : list str) :
  forall k,
    numbered pre k types = map (named pre) (numbered [] k types).
Proof.
  unfold numbered.
  induction types as [|type types IH]; intros k; [reflexivity|].
  cbn [mapi_from map]. now rewrite IH.
Qed.

Lemma ast_edges_parent (t : tree) (p k : nat) :
  ast_edges t (Some p) k = (decimal p, decimal k) :: ast_edges t None k.
Proof. destruct t. reflexivity. Qed.

(** The edges of the two serializers are the same, in another order:
    [addNode] writes the edge to a child after the lines of the child,
    [nodeToDot] before them. *)
Lemma edges_permuted (t : tree) :
  forall k,
    Permutation (tree_edges t k)
      (map (linked (lit "n")) (ast_edges t None k)).
Proof.
  induction t as [type children IH] using SerializerFacts.tree_induction.
  intros k. cbn [tree_edges ast_edges parent_edge app].
  generalize (S k) as j.
  induction IH as [|c cs Hc _ IHcs]; intros j; [constructor|].
  rewrite !TreeFacts.over_children_cons, map_app.
  apply Permutation_app; [|apply IHcs].
  rewrite ast_edges_parent. cbn [map].
  eapply Permutation_trans;
    [apply Permutation_sym, Permutation_cons_append|].
  apply perm_skip, Hc.
Qed.

(** X14: the file [.tree.dot] and the picture of a source file come from
    two different texts of the same tree, and show the same graph: for a
    tree of plain types, the nodes read from the text of [treeToDot] are
    those read from the text of [nodeToDot] with [n] before each id, in
    the same order and with the same labels, and the edges are the same
    up to their order. *)
Theorem tree_files_agree (root : tree) :
  Forall plain_type (preorder root) ->
  nodes (parseDotToElements (treeToDot root))
  = map (named (lit "n")) (nodes (parseDotToElements (astDotGraph root)))
  /\ Permutation (edges (parseDotToElements (treeToDot root)))
       (map (linked (lit "n"))
          (edges (parseDotToElements (astDotGraph root)))).
Proof.
  intros Hty.
  assert (Et : parseDotToElements (treeToDot root)
               = {| nodes := numbered (lit "n") 0 (preorder root);
                    edges := tree_edges root 0 |}).
  { rewrite TreeFacts.treeToDot_graph_text.
    rewrite (RoundTrip.parse_numbered (lit "G") [] (lit "n")
               (preorder root)).
    - now rewrite TreeFacts.tree_dlines_edges.
    - split; [discriminate | repeat constructor].
    - constructor.
    - exact RoundTrip.word_n.
    - apply TreeFacts.tree_nodes.
    - apply (TreeFacts.tree_lines_numbered plain_type root 0 Hty). }
  assert (Ea : parseDotToElements (astDotGraph root)
               = {| nodes := numbered [] 0 (preorder root);
                    edges := ast_edges root None 0 |}).
  { rewrite AstFacts.astDotGraph_graph_text.
    rewrite (RoundTrip.parse_numbered (lit "AST") (lit "  ") []
               (preorder root)).
    - now rewrite AstFacts.ast_dlines_edges.
    - split; [discriminate | repeat constructor].
    - repeat constructor.
    - exact RoundTrip.word_decimal.
    - apply AstFacts.ast_nodes.
    - apply (AstFacts.ast_lines_numbered plain_type 0
               (length (preorder root)) root None 0);
        auto; try discriminate. }
  rewrite Et, Ea. cbn [nodes edges]. split.
  - apply numbered_named.
  - apply edges_permuted.
Qed.

Lemma tree_files_agree_sample :
  nodes (parseDotToElements (treeToDot sample_tree))
  = map (named (lit "n"))
      (nodes (parseDotToElements (astDotGraph sample_tree)))
  /\ Permutation (edges (parseDotToElements (treeToDot sample_tree)))
       (map (linked (lit "n"))
          (edges (parseDotToElements (astDotGraph sample_tree)))).
Proof.
  apply (tree_files_agree sample_tree).
  apply RoundTrip.plain_typeb_sound. reflexivity.
Defined.

End TreeFiles.

Module CliFacts.
Import Cli.

Section Facts.
Variables W E number : Type.

Lemma parse_each_same (a b : steps W E number) (src outputDir : str)
  (files : list str) (w : W) :
  same_parsing a b ->
  parse_each a src outputDir files w = parse_each b src outputDir files w.
Proof.
  intros (_ & Hp & Hj & _). revert w.
  induction files as [|f files IH]; intros w; [reflexivity|].
  cbn [parse_each]. unfold bind. rewrite Hp, Hj.
  destruct (endsWith f (lit ".py")).
  - unfold await.
    destruct (parseFileWithTreeSitter b (path_join b src f) outputDir w)
      as [[[]|e] w']; [apply IH | reflexivity].
  - unfold ret. apply IH.
Qed.

(** The part of [run] after the Depends section, when that section was
    skipped. *)
Lemma run_without_depends (st : steps W E number) (args : list str)
  (language src outputDir : str) (w : W) :
  OMap.includes (lit "--only-tree-sitter") args = true ->
  OMap.includes (lit "--web") args = true ->
  exists e w',
    run st args language src outputDir w = (Failed e, w')
    /\ forall st', same_parsing st st' ->
                   run st' args language src outputDir w
                   = (Failed e, w').
Proof.
  intros Hts Hweb. unfold run. rewrite Hts, Hweb. cbn [negb].
  destruct (OMap.includes (lit "--only-depends") args); cbn [negb].
  - do 2 eexists. split; [reflexivity|]. intros st' _. reflexivity.
  - unfold bind at 1 2 3. unfold ret at 1. unfold say at 1.
    unfold bind at 1. unfold await at 1.
    destruct (readdir st src (console st RunningTreeSitter w))
      as [[files|e] w1] eqn:Erd.
    + destruct (parse_each st src outputDir files w1) as [[[]|e] w2] eqn:Ep.
      * exists NothingToVisualize, w2. split; [reflexivity|].
        intros st' Hsame. unfold bind, ret, say, await.
        pose proof (parse_each_same st st' src outputDir files w1 Hsame)
          as Hpe.
        destruct Hsame as (Hr & _ & _ & Hc).
        rewrite <- Hr, <- Hc, Erd, <- Hpe. now rewrite Ep.
      * exists e, w2. split; [reflexivity|].
        intros st' Hsame. unfold bind, ret, say, await.
        pose proof (parse_each_same st st' src outputDir files w1 Hsame)
          as Hpe.
        destruct Hsame as (Hr & _ & _ & Hc).
        rewrite <- Hr, <- Hc, Erd, <- Hpe. now rewrite Ep.
    + exists (Rejected e), w1. split; [reflexivity|].
      intros st' (Hr & Hp & Hj & Hc). unfold bind, ret, say, await.
      now rewrite <- Hr, <- Hc, Erd.
Qed.

(** X15: [--web] does not go with [--only-tree-sitter]: whatever the
    outside does, such a run ends with exit status 1, after the syntax
    trees if the Depends section alone is skipped; neither the Java
    process nor the converter, the renderer or the server is run (the run
    is the same with any others). *)
Theorem web_needs_depends (st : steps W E number) (args : list str) (w : W) :
  OMap.includes (lit "--web") args = true ->
  OMap.includes (lit "--only-tree-sitter") args = true ->
  fst (main st args w) = Exited 1
  /\ forall st', same_parsing st st' -> main st' args w = main st args w.
Proof.
  intros Hweb Hts. unfold main.
  destruct args as [|language [|src [|outputDir rest]]];
    try (split; [reflexivity|]; intros st' (_ & _ & _ & <-); reflexivity).
  destruct (run_without_depends st (language :: src :: outputDir :: rest)
              language src outputDir w Hts Hweb) as (e & w' & -> & Hsame).
  split; [reflexivity|]. intros st' Hs. rewrite (Hsame st' Hs).
  destruct Hs as (_ & _ & _ & <-). reflexivity.
Qed.

(** X16: with [--web], a call of [main] that returns has found the file
    [depends-output-file.converted.dot] in the output directory (the third
    argument), has rendered it at once, and has ended with the visualizer
    being served for that file, on the port read from the arguments. *)
Theorem web_serves_converted (st : steps W E number) (args : list str)
  (w : W) :
  OMap.includes (lit "--web") args = true ->
  fst (main st args w) = Returned ->
  exists w0 w1 w2 w3,
    access st (served_path st (output_dir args)) w0 = (inl tt, w1)
    /\ renderDependsGraphs st (served_path st (output_dir args)) w1
       = (inl tt, w2)
    /\ serveVisualizer st (port_of st args)
         (served_path st (output_dir args)) w3
       = (inl tt, snd (main st args w)).
Proof.
  intros Hweb. unfold main.
  destruct args as [|language [|src [|outputDir rest]]]; try discriminate.
  set (args := language :: src :: outputDir :: rest) in *.
  unfold run. rewrite Hweb. unfold output_dir, served_path.
  cbn [nth args]. fold args.
  unfold bind, ret, say, await, throw, findDotFile.
  repeat
    match goal with
    | |- context [negb ?b] => destruct b; cbn [negb]
    | |- context [match ?step ?w with _ => _ end] =>
        destruct (step w) as [[?|?] ?] eqn:?
    | |- context [match path_join st ?a ?b with _ => _ end] =>
        destruct (path_join st a b) eqn:?
    | |- context [match parse_each ?a ?b ?c ?d ?e with _ => _ end] =>
        destruct (parse_each a b c d e) as [[?|?] ?] eqn:?
    end;
    cbn [fst snd]; try discriminate.
  all: intros _;
    match goal with
    | H1 : access _ ?p ?a = (inl ?u1, ?b),
      H2 : renderDependsGraphs _ ?p ?b = (inl ?u2, ?c),
      H3 : serveVisualizer _ _ ?p ?d = (inl ?u3, _) |- _ =>
        exists a, b, c, d; destruct u1, u2, u3; repeat split; assumption
    end.
Qed.

End Facts.

Lemma web_needs_depends_sample :
  fst (main quiet_steps
         [lit "python"; lit "src"; lit "out"; lit "--web";
          lit "--only-tree-sitter"] [])
  = Exited 1
  /\ forall st', same_parsing quiet_steps st' ->
       main st'
         [lit "python"; lit "src"; lit "out"; lit "--web";
          lit "--only-tree-sitter"] []
       = main quiet_steps
           [lit "python"; lit "src"; lit "out"; lit "--web";
            lit "--only-tree-sitter"] [].
Proof.
  apply (web_needs_depends (list str) unit N quiet_steps); reflexivity.
Defined.

Lemma web_serves_converted_sample :
  exists w0 w1 w2 w3,
    access quiet_steps (lit "out/depends-output-file.converted.dot") w0
    = (inl tt, w1)
    /\ renderDependsGraphs quiet_steps
         (lit "out/depends-output-file.converted.dot") w1
       = (inl tt, w2)
    /\ serveVisualizer quiet_steps 4000%N
         (lit "out/depends-output-file.converted.dot") w3
       = (inl tt,
          [lit "src/a.py"; lit "out/depends-output-file.converted.dot"]).
Proof.
  apply (web_serves_converted (list str) unit N quiet_steps
           [lit "python"; lit "src"; lit "out"; lit "--web"; lit "--port";
            lit "4000"] []);
    reflexivity.
Defined.

End CliFacts.

Module RenderFacts.
Import Render.

Lemma replace_dot_end_suffix (by_ stem : str) :
  replace_dot_end by_ (stem ++ lit ".dot") = stem ++ by_.
Proof.
  induction stem as [|c stem IH]; [reflexivity|].
  cbn [app replace_dot_end].
  destruct (str_eqb (c :: stem ++ lit ".dot") (lit ".dot")) eqn:Eq.
  - apply str_eqb_eq in Eq. apply (f_equal (@length N)) in Eq.
    cbn [length] in Eq. rewrite length_app in Eq. cbn in Eq. lia.
  - now rewrite IH.
Qed.

Lemma replace_dot_end_other (by_ dotPath : str) :
  Cli.endsWith dotPath (lit ".dot") = false ->
  replace_dot_end by_ dotPath = dotPath.
Proof.
  induction dotPath as [|c rest IH]; intros Hend; [reflexivity|].
  cbn [replace_dot_end].
  destruct (str_eqb (c :: rest) (lit ".dot")) eqn:Eq.
  - apply str_eqb_eq in Eq. rewrite Eq in Hend. discriminate Hend.
  - f_equal. apply IH. unfold Cli.endsWith in *.
    destruct (Nat.leb_spec (length (lit ".dot")) (length rest)) as [Hle|Hgt];
      [|reflexivity].
    cbn [andb]. 
    assert (Hle' : (length (lit ".dot") <=? length (c :: rest))%nat = true).
    { apply Nat.leb_le. cbn [length] in *. lia. }
    rewrite Hle' in Hend. cbn [andb] in Hend.
    replace (length (c :: rest) - length (lit ".dot"))%nat
      with (S (length rest - length (lit ".dot"))) in Hend
      by (cbn [length] in *; lia).
    exact Hend.
Qed.

Lemma suffix_differs (stem a b : str) :
  length a = length b -> a <> b -> stem ++ a <> stem ++ b.
Proof. intros _ Hne Heq. apply app_inv_head in Heq. contradiction. Qed.

(** One step of the function at a time. *)
Ltac run_render o :=
  repeat
    (cbn [files output fst snd];
     match goal with
     | |- context [match createVizWithMemory o ?f with _ => _ end] =>
         destruct (createVizWithMemory o f)
     | |- context [match files ?w ?p with _ => _ end] =>
         destruct (files w p) as [[?|?]|]
     | |- context [match renderString o ?a ?b with _ => _ end] =>
         destruct (renderString o a b)
     | |- context [match png o ?a with _ => _ end] =>
         destruct (png o a)
     | |- context [if can_write o ?a then _ else _] =>
         destruct (can_write o a)
     end);
  cbn [files output fst snd].

Section Facts.
Variables V B E : Type.
Variable o : outside V B E.

(** X17: [renderDependsGraphs] changes no file but the two it names: the
    path of the graph with [.svg] and with [.png] in place of a final
    [.dot].  For a path that ends in [.dot] the graph file itself is
    kept; for any other path both names are the path of the graph, and a
    call that succeeds leaves the image where the graph was. *)
Theorem renderDependsGraphs_files (dotPath : str) (w : world B) :
  (forall p, p <> svgPath_of dotPath -> p <> pngPath_of dotPath ->
             files (snd (renderDependsGraphs o dotPath w)) p = files w p)
  /\ (forall stem, dotPath = stem ++ lit ".dot" ->
        svgPath_of dotPath = stem ++ lit ".svg"
        /\ pngPath_of dotPath = stem ++ lit ".png"
        /\ files (snd (renderDependsGraphs o dotPath w)) dotPath
           = files w dotPath)
  /\ (Cli.endsWith dotPath (lit ".dot") = false ->
      fst (renderDependsGraphs o dotPath w) = inl tt ->
      exists pngBuffer,
        files (snd (renderDependsGraphs o dotPath w)) dotPath
        = Some (Binary pngBuffer)).
Proof.
  assert (Frame : forall p, p <> svgPath_of dotPath ->
                            p <> pngPath_of dotPath ->
                            files (snd (renderDependsGraphs o dotPath w)) p
                            = files w p).
  { intros p Hs Hp. apply str_eqb_neq in Hs, Hp.
    unfold renderDependsGraphs, bind, log, await, readFile, writeFile.
    run_render o; rewrite ?Hp, ?Hs; reflexivity. }
  split; [exact Frame|]. split.
  - intros stem ->. unfold svgPath_of, pngPath_of.
    rewrite !replace_dot_end_suffix. repeat split.
    apply Frame; unfold svgPath_of, pngPath_of;
      rewrite replace_dot_end_suffix; apply suffix_differs;
      try reflexivity; discriminate.
  - intros Hend. unfold renderDependsGraphs, svgPath_of, pngPath_of.
    rewrite !(replace_dot_end_other _ dotPath Hend).
    unfold bind, log, await, readFile, writeFile.
    run_render o; try discriminate.
    all: intros _; eexists; now rewrite str_eqb_refl.
Qed.

End Facts.

End RenderFacts.
